(** * make_csv.py: alignment of logged events with video segments

    A shallow embedding of [src/make_csv.py] (functions
    [_add_video_end_info], [_add_event_end_info], [_find_latest_video] and
    [run_thru_events]) together with the properties its specification
    states about them, and further properties of these functions, of the
    way file names are cut down to a time, and of the two readers of
    [src/utility/image_provider.py].

    Conventions of the embedding.
    - A pandas frame is the list of its rows, in positional ([iloc]) order;
      the frames here carry the default [RangeIndex], so a row's index label
      is its position.
    - A timestamp string (a log line in [LOG_TIME_FORMAT], a file stem in
      [FILE_TIME_FORMAT]) is represented by the epoch second that
      [strptime(...).timestamp()] yields for it, an integer.  The one place
      where the source parses a name that is not already a column
      ([counts_df.iloc[-1]["filename"]]) keeps the naive local [datetime]
      apart from its epoch second, as the source adds the recording's
      length to the former and only then asks for the latter: the two
      operations are the fields of the parameter [local_time].
    - The [float64] columns and the values computed from them are exact
      rationals ([Q]): every such value is an integer or the quotient
      [frames / fps] of two integers, or a difference of those.
    - A raised exception is [Err] with the exception's class; it aborts the
      run, as nothing in the source catches it. *)

From Stdlib Require Import Ascii ZArith QArith Qround Qminmax List String Bool Lia.
From Stdlib Require Import Permutation Sorted RelationClasses.
Import ListNotations.

Open Scope Z_scope.

(** ** Exceptions and the error monad *)

Inductive PyError : Type :=
| KeyError
| IndexError
| ValueError
| TypeError
| OverflowError.

Inductive result (A : Type) : Type :=
| Ok (a : A)
| Err (e : PyError).

Arguments Ok {A} a.
Arguments Err {A} e.

Definition bind {A B : Type} (m : result A) (k : A -> result B) : result B :=
  match m with
  | Ok a => k a
  | Err e => Err e
  end.

Notation "x <- m ;; k" := (bind m (fun x => k))
  (at level 61, m at next level, right associativity).

(** ** Python numerics *)

(** [a / b] on integers: true division. *)
Definition true_div (a b : Z) : Q := inject_Z a / inject_Z b.

(** [int(x)]: truncation toward zero. *)
Definition py_int (x : Q) : Z := Z.quot (Qnum x) (Z.pos (Qden x)).

(** [x < y] on numbers. *)
Definition Qltb (x y : Q) : bool := negb (Qle_bool y x).

(** [min(a, b)]: the first argument unless the second is smaller. *)
Definition py_min (a b : Q) : Q := if Qltb b a then b else a.

(** ** Frames *)

(** A row of [file_epoch_map_df] as [map_file_names_to_epoch] builds it. *)
Record EpochRow : Type := {
  filename : string;
  epoch_ts : Z
}.

(** A row of [file_epoch_map_df] once [_add_video_end_info] has added the
    columns ["length"] and ["end_epoch_ts"].  The second holds whole seconds
    only (a shifted integer column, the last entry the timestamp of a
    datetime without a sub-second part), and [run_thru_events] reads it
    through [int]. *)
Module Video.
Record row : Type := {
  base : EpochRow;
  length : Q;
  end_epoch_ts : Z
}.
End Video.
Abbreviation VideoRow := Video.row.

Definition vname (v : VideoRow) : string := filename (Video.base v).
Definition vstart (v : VideoRow) : Z := epoch_ts (Video.base v).

(** A row of [counts.csv]. *)
Record CountsRow : Type := {
  c_filename : string;
  frames : Z
}.

(** A row of [events_df] as [parse_logs] builds it, and once
    [_add_event_end_info] has added ["end_ts"]. *)
Record LogRow : Type := {
  event_type : string;
  ts : Z
}.

Record EventRow : Type := {
  log : LogRow;
  end_ts : Z
}.

(** A label dictionary: ["filename"], ["class"], ["start frame"],
    ["end frame"]. *)
Record Label : Type := {
  lbl_filename : string;
  lbl_class : string;
  start_frame : Q;
  end_frame : Q
}.

(** [df.iloc[-1]]. *)
Definition iloc_last {A : Type} (df : list A) : result A :=
  match rev df with
  | [] => Err IndexError
  | x :: _ => Ok x
  end.

(** [np.argmin] (on a series: [Series.argmin]): the position of the first
    occurrence of the least value; [ValueError] on an empty sequence. *)
Fixpoint argmin_from (best_i : nat) (best : Z) (i : nat) (l : list Z) : nat :=
  match l with
  | [] => best_i
  | x :: xs =>
      if x <? best then argmin_from i x (S i) xs
      else argmin_from best_i best (S i) xs
  end.

Definition argmin (l : list Z) : result nat :=
  match l with
  | [] => Err ValueError
  | x :: xs => Ok (argmin_from 0%nat x 1%nat xs)
  end.

(** [df[df["filename"] == name]]: the matching rows, each with its index. *)
Fixpoint rows_named_from (i : nat) (name : string) (df : list VideoRow)
  : list (nat * VideoRow) :=
  match df with
  | [] => []
  | v :: rest =>
      if String.eqb (vname v) name
      then (i, v) :: rows_named_from (S i) name rest
      else rows_named_from (S i) name rest
  end.

Definition rows_named (name : string) (df : list VideoRow) : list (nat * VideoRow) :=
  rows_named_from 0%nat name df.

(** ** Local time *)

(** What the source takes from [datetime] for the name of the last counted
    file.  A naive [datetime] is the number of seconds it counts on the
    local wall clock.
    - [parse_file_time name] is [datetime.strptime] of the name, cut down
      as lines 131-133 and 106-108 do (strip ["data/"], [".h264"] and the
      seven characters of the sub-second suffix), with [FILE_TIME_FORMAT];
      [None] when [strptime] raises.
    - [timestamp_after d n] is [(d + timedelta(seconds=n)).timestamp()]:
      the epoch second of the local time that reads [n] seconds more than
      [d]; [OverflowError] when the [timedelta] or the sum is out of the
      range of [datetime].  Where the local clock is set forward or back
      between the two readings, this is not [n] seconds after the epoch
      second of [d]. *)
Record LocalTime : Type := {
  parse_file_time : string -> option Z;
  timestamp_after : Z -> Z -> result Z
}.

Section MakeCsv.

(** The local clock of the machine that runs the script. *)
Variable local_time : LocalTime.

(** [DataFrame.sort_values(by="filename")] on the label frame.  The default
    sort kind is not stable, so the properties below assume of it only that
    it permutes the rows. *)
Variable sort_values : list Label -> list Label.

(** The end of the recording (lines 106-109 and 131-136): the name of the
    last counted file is parsed to a naive local [datetime], the
    [timedelta] of [int(frames / fps)] seconds is added to it, and the
    epoch second is taken of the sum.  [_add_event_end_info] writes the sum
    out with [strftime] and [run_thru_events] reads it back with
    [strptime(...).timestamp()] (line 168), which is the same epoch
    second. *)
Definition last_video_end (counts_df : list CountsRow) (fps : Z) : result Z :=
  c <- iloc_last counts_df ;;
  match parse_file_time local_time (c_filename c) with
  | None => Err ValueError
  | Some last_video_datetime_obj =>
      if fps =? 0
      then Err (if frames c =? 0 then ValueError else OverflowError)
      else timestamp_after local_time last_video_datetime_obj
             (py_int (true_div (frames c) fps))
  end.

(** ** [_add_video_end_info] *)

(** The columns ["length"] ([shift(-1)] minus own start, the last entry
    overwritten) and ["end_epoch_ts"] ([shift(-1)], the last entry
    overwritten). *)
Fixpoint fill_video_end (last_length : Q) (last_end : Z) (df : list EpochRow)
  : list VideoRow :=
  match df with
  | [] => []
  | r :: rest =>
      match rest with
      | [] => [ Video.Build_row r last_length last_end ]
      | next :: _ =>
          Video.Build_row r (inject_Z (epoch_ts next - epoch_ts r)) (epoch_ts next)
          :: fill_video_end last_length last_end rest
      end
  end.

Definition _add_video_end_info
  (file_epoch_map_df : list EpochRow) (counts_df : list CountsRow) (fps : Z)
  : result (list VideoRow) :=
  match file_epoch_map_df with
  | [] => Err KeyError
  | _ =>
      c <- iloc_last counts_df ;;
      let last_length := true_div (frames c) fps in
      last_end <- last_video_end counts_df fps ;;
      Ok (fill_video_end last_length last_end file_epoch_map_df)
  end.

(** ** [_add_event_end_info] *)

Fixpoint fill_event_end (last_end : Z) (events_df : list LogRow) : list EventRow :=
  match events_df with
  | [] => []
  | r :: rest =>
      match rest with
      | [] => [ Build_EventRow r last_end ]
      | next :: _ => Build_EventRow r (ts next) :: fill_event_end last_end rest
      end
  end.

Definition _add_event_end_info
  (events_df : list LogRow) (counts_df : list CountsRow) (fps : Z)
  : result (list EventRow) :=
  match events_df with
  | [] => Err KeyError
  | _ =>
      last_end <- last_video_end counts_df fps ;;
      Ok (fill_event_end last_end events_df)
  end.

(** ** [_find_latest_video] *)

Definition _find_latest_video (epoch_timestamp : Z) (file_epoch_map_df : list VideoRow)
  : result string :=
  let earlier := filter (fun v => vstart v <? epoch_timestamp) file_epoch_map_df in
  i <- argmin (map (fun v => Z.abs (vstart v - epoch_timestamp)) earlier) ;;
  match nth_error earlier i with
  | Some v => Ok (vname v)
  | None => Err IndexError
  end.

(** ** [run_thru_events] *)

(** The [while leftover_seconds > 0] loop (lines 177-194).  [rest] is the
    part of the frame from [video_index] on: [iloc[video_index]] is its head
    ([IndexError] when there is none) and [video_index += 1] drops it. *)
Fixpoint overflow_loop (fps : Z) (class : string) (rest : list VideoRow)
  (leftover_seconds : Q) (labels_list : list Label) : result (list Label) :=
  if Qltb 0 leftover_seconds then
    match rest with
    | [] => Err IndexError
    | v :: rest' =>
        let start := py_min 4 (leftover_seconds * inject_Z fps) in
        if Qltb leftover_seconds (Video.length v)
        then
          overflow_loop fps class rest' 0
            (labels_list ++
              [ Build_Label (vname v) class start (leftover_seconds * inject_Z fps) ])
        else
          overflow_loop fps class rest' (leftover_seconds - Video.length v)
            (labels_list ++ [ Build_Label (vname v) class start (Video.length v) ])
    end
  else Ok labels_list.

(** The body of the [for index, row in events_df.iterrows()] loop
    (lines 156-198). *)
Definition loop_body (file_epoch_map_df : list VideoRow) (fps : Z)
  (labels_list : list Label) (row : EventRow) : result (list Label) :=
  starting_video <- _find_latest_video (ts (log row)) file_epoch_map_df ;;
  match rows_named starting_video file_epoch_map_df with
  | [ (index0, starting_video_info) ] =>
      let starting_video_ts := vstart starting_video_info in
      let starting_video_length := py_int (Video.length starting_video_info) in
      let starting_video_end_ts := Video.end_epoch_ts starting_video_info in
      let event_ts := ts (log row) in
      let event_end_ts := end_ts row in
      let class := event_type (log row) in
      let start := inject_Z ((event_ts - starting_video_ts) * fps) in
      if starting_video_end_ts <? event_end_ts then
        labels_list' <-
          overflow_loop fps class (skipn (index0 + 1) file_epoch_map_df)
            (inject_Z (event_end_ts - starting_video_end_ts)) labels_list ;;
        Ok (labels_list' ++
              [ Build_Label starting_video class start
                  (inject_Z ((starting_video_length - 1) * fps)) ])
      else
        Ok (labels_list ++
              [ Build_Label starting_video class start
                  (inject_Z ((event_end_ts - starting_video_ts) * fps)) ])
  | _ => Err TypeError
  end.

Fixpoint iterrows (file_epoch_map_df : list VideoRow) (fps : Z)
  (events_df : list EventRow) (labels_list : list Label) : result (list Label) :=
  match events_df with
  | [] => Ok labels_list
  | row :: rest =>
      labels_list' <- loop_body file_epoch_map_df fps labels_list row ;;
      iterrows file_epoch_map_df fps rest labels_list'
  end.

(** [labels_list] as it stands on line 199, before it is sorted. *)
Definition collect_labels
  (events_df : list LogRow) (counts_df : list CountsRow)
  (file_epoch_map_df : list EpochRow) (fps : Z) : result (list Label) :=
  videos <- _add_video_end_info file_epoch_map_df counts_df fps ;;
  events <- _add_event_end_info events_df counts_df fps ;;
  iterrows videos fps events [].

Definition run_thru_events
  (events_df : list LogRow) (counts_df : list CountsRow)
  (file_epoch_map_df : list EpochRow) (fps : Z) : result (list Label) :=
  labels_list <- collect_labels events_df counts_df file_epoch_map_df fps ;;
  Ok (sort_values labels_list).

End MakeCsv.

(** ** Vocabulary of the specification *)

(** Start times strictly increasing along the frame (the specification's
    invariant on the ordered set of segments). *)
Fixpoint increasing (l : list Z) : bool :=
  match l with
  | [] => true
  | x :: rest =>
      match rest with
      | [] => true
      | y :: _ => (x <? y) && increasing rest
      end
  end.

(** No two rows of the frame carry the same file name. *)
Fixpoint distinct (l : list string) : bool :=
  match l with
  | [] => true
  | x :: rest => negb (existsb (String.eqb x) rest) && distinct rest
  end.

(** The owning segment of an event starting at [t], with its position:
    what lines 162-163 and 176 of [run_thru_events] resolve. *)
Definition owning_segment (t : Z) (videos : list VideoRow) : result (nat * VideoRow) :=
  starting_video <- _find_latest_video t videos ;;
  match rows_named starting_video videos with
  | [ hit ] => Ok hit
  | _ => Err TypeError
  end.

(** The total duration of a run of segments, as the ["length"] column
    holds it. *)
Definition total_length (videos : list VideoRow) : Q :=
  fold_right (fun v acc => (Video.length v + acc)%Q) 0%Q videos.

(** A segment's duration in whole seconds ([int] of its ["length"], what
    line 165 reads), and the total over a run of segments. *)
Definition duration_seconds (v : VideoRow) : Z := py_int (Video.length v).

Definition total_duration (videos : list VideoRow) : Z :=
  fold_right (fun v acc => duration_seconds v + acc) 0 videos.

(** The bounds of the specification's monotonic-frames property, for a
    label [r] and the segment [seg] it names.  The end frame is bounded by
    the segment's whole seconds and hence by its ["length"]. *)
Definition frames_within (fps : Z) (r : Label) (seg : VideoRow) : Prop :=
  (start_frame r <= end_frame r)%Q /\
  (end_frame r <= inject_Z (duration_seconds seg * fps))%Q /\
  (end_frame r <= Video.length seg * inject_Z fps)%Q.

(** The rows the [while] loop appends, as a relation on positions:
    [overflow_walk timeline fps class i leftover rows] when the loop,
    entered with [video_index = i] and [leftover_seconds = leftover], appends
    [rows] and leaves.  [Video.length] is the value the loop reads from the
    ["length"] column (lines 187 and 191). *)
Inductive overflow_walk (timeline : list VideoRow) (fps : Z) (class : string)
  : nat -> Q -> list Label -> Prop :=
| walk_done (i : nat) (leftover : Q) :
    ~ (0 < leftover)%Q ->
    overflow_walk timeline fps class i leftover []
| walk_ends_inside (i : nat) (leftover : Q) (current : VideoRow) :
    (0 < leftover)%Q ->
    nth_error timeline i = Some current ->
    (leftover < Video.length current)%Q ->
    overflow_walk timeline fps class i leftover
      [ Build_Label (vname current) class
          (Qmin 4 (leftover * inject_Z fps)) (leftover * inject_Z fps) ]
| walk_continues (i : nat) (leftover : Q) (current : VideoRow) (rows : list Label) :
    (0 < leftover)%Q ->
    nth_error timeline i = Some current ->
    ~ (leftover < Video.length current)%Q ->
    overflow_walk timeline fps class (S i) (leftover - Video.length current) rows ->
    overflow_walk timeline fps class i leftover
      (Build_Label (vname current) class
         (Qmin 4 (leftover * inject_Z fps)) (Video.length current) :: rows).

(** The overflow walk in the specification's words (section 4.3, step 3):
    [spec_walk timeline fps class i leftover rows] when walking forward from
    the segment at position [i] with [leftover] seconds emits [rows].  A
    segment's [duration_seconds] is a whole number of seconds: for the last
    segment the floor of [frame_count / frame_rate]. *)
Inductive spec_walk (timeline : list VideoRow) (fps : Z) (class : string)
  : nat -> Q -> list Label -> Prop :=
| spec_walk_done (i : nat) (leftover : Q) :
    ~ (0 < leftover)%Q ->
    spec_walk timeline fps class i leftover []
| spec_walk_ends_inside (i : nat) (leftover : Q) (current : VideoRow) :
    (0 < leftover)%Q ->
    nth_error timeline i = Some current ->
    (leftover < inject_Z (duration_seconds current))%Q ->
    spec_walk timeline fps class i leftover
      [ Build_Label (vname current) class
          (Qmin 4 (leftover * inject_Z fps)) (leftover * inject_Z fps) ]
| spec_walk_continues (i : nat) (leftover : Q) (current : VideoRow)
    (rows : list Label) :
    (0 < leftover)%Q ->
    nth_error timeline i = Some current ->
    ~ (leftover < inject_Z (duration_seconds current))%Q ->
    spec_walk timeline fps class (S i)
      (leftover - inject_Z (duration_seconds current)) rows ->
    spec_walk timeline fps class i leftover
      (Build_Label (vname current) class
         (Qmin 4 (leftover * inject_Z fps))
         (inject_Z (duration_seconds current)) :: rows).

(** Two labels that agree up to the way a frame number is written as a
    fraction. *)
Definition same_label (a b : Label) : Prop :=
  lbl_filename a = lbl_filename b /\
  lbl_class a = lbl_class b /\
  (start_frame a == start_frame b)%Q /\
  (end_frame a == end_frame b)%Q.

(** ** Example data: the specification's boundary scenario *)

Definition boundary_files : list EpochRow :=
  [ Build_EpochRow "v00.h264"%string 0;
    Build_EpochRow "v10.h264"%string 10;
    Build_EpochRow "v25.h264"%string 25 ].

Definition boundary_counts : list CountsRow :=
  [ Build_CountsRow "v00.h264"%string 20;
    Build_CountsRow "v10.h264"%string 30;
    Build_CountsRow "v25.h264"%string 30 ].

(** A name parser that reads the start time off the frame of files. *)
Definition parse_in (files : list EpochRow) (name : string) : option Z :=
  option_map epoch_ts (find (fun r => String.eqb (filename r) name) files).

(** A local clock that is never changed (UTC): the wall clock reads the
    epoch second. *)
Definition utc_time (files : list EpochRow) : LocalTime :=
  {| parse_file_time := parse_in files;
     timestamp_after := fun d n => Ok (d + n) |}.

Definition boundary_videos : list VideoRow :=
  [ Video.Build_row (Build_EpochRow "v00.h264"%string 0) (inject_Z 10) 10;
    Video.Build_row (Build_EpochRow "v10.h264"%string 10) (inject_Z 15) 25;
    Video.Build_row (Build_EpochRow "v25.h264"%string 25) (true_div 30 2) 40 ].

(** A concrete [sort_values]: stable insertion by file name. *)
Fixpoint insert_by_filename (x : Label) (l : list Label) : list Label :=
  match l with
  | [] => [ x ]
  | y :: rest =>
      if String.leb (lbl_filename x) (lbl_filename y)
      then x :: l
      else y :: insert_by_filename x rest
  end.

Definition sort_by_filename (l : list Label) : list Label :=
  fold_right insert_by_filename [] l.

(** The event of the boundary scenario, spanning [5, 12), and the one that
    follows it in the log. *)
Definition boundary_log : list LogRow :=
  [ Build_LogRow "logPos"%string 5; Build_LogRow "logNeg"%string 12 ].

Definition boundary_event : EventRow :=
  Build_EventRow (Build_LogRow "logPos"%string 5) 12.

Definition boundary_events : list EventRow :=
  [ boundary_event; Build_EventRow (Build_LogRow "logNeg"%string 12) 40 ].

(** An event that starts exactly where the second segment starts. *)
Definition edge_event : EventRow :=
  Build_EventRow (Build_LogRow "logPos"%string 10) 12.

(** A last file with an odd number of frames. *)
Definition odd_counts : list CountsRow :=
  [ Build_CountsRow "v00.h264"%string 20;
    Build_CountsRow "v10.h264"%string 30;
    Build_CountsRow "v25.h264"%string 31 ].

(** A local clock that is set back one hour when it reads 7200 (the end of
    daylight saving time): a reading from 7200 on is taken an hour later
    than the same reading would have been. *)
Definition set_back_time (files : list EpochRow) : LocalTime :=
  {| parse_file_time := parse_in files;
     timestamp_after := fun d n =>
       Ok (if d + n <? 7200 then d + n else d + n + 3600) |}.

(** One file that starts half an hour before the clock is set back, with
    7200 frames, and a log of one event in it. *)
Definition night_files : list EpochRow :=
  [ Build_EpochRow "n.h264"%string 5400 ].

Definition night_counts : list CountsRow :=
  [ Build_CountsRow "n.h264"%string 7200 ].

Definition night_log : list LogRow :=
  [ Build_LogRow "logPos"%string 5401 ].

(** The timeline [_add_video_end_info] builds of the boundary files when
    the last file has 31 frames, and the last event of the boundary log,
    which ends with the recording. *)
Definition odd_videos : list VideoRow :=
  [ Video.Build_row (Build_EpochRow "v00.h264"%string 0) (inject_Z 10) 10;
    Video.Build_row (Build_EpochRow "v10.h264"%string 10) (inject_Z 15) 25;
    Video.Build_row (Build_EpochRow "v25.h264"%string 25) (true_div 31 2) 40 ].

Definition last_event : EventRow :=
  Build_EventRow (Build_LogRow "logNeg"%string 12) 40.

(** Log times in non-decreasing order, as [parse_logs] sorts them. *)
Fixpoint nondecreasing (l : list Z) : bool :=
  match l with
  | [] => true
  | x :: rest =>
      match rest with
      | [] => true
      | y :: _ => (x <=? y) && nondecreasing rest
      end
  end.

(** The same files in another order of rows (the order in which the
    directory listing happened to give them). *)
Definition boundary_videos_shuffled : list VideoRow :=
  [ Video.Build_row (Build_EpochRow "v25.h264"%string 25) (true_div 30 2) 40;
    Video.Build_row (Build_EpochRow "v00.h264"%string 0) (inject_Z 10) 10;
    Video.Build_row (Build_EpochRow "v10.h264"%string 10) (inject_Z 15) 25 ].

(** Inputs as a recording session leaves them: a positive frame rate,
    files with distinct names listed by increasing start time, a counts
    table whose last row has a frame count that is not negative, and a
    recording that ends [int(frames / fps)] seconds after its last file
    starts: the last counted file is the last file, and the local clock is
    not set forward or back while that file is recorded. *)
Definition consistent_inputs (local_time : LocalTime)
  (df : list EpochRow) (counts_df : list CountsRow) (fps : Z) : Prop :=
  0 < fps /\
  increasing (map epoch_ts df) = true /\
  distinct (map filename df) = true /\
  forall c r, iloc_last counts_df = Ok c -> iloc_last df = Ok r ->
    0 <= frames c /\
    last_video_end local_time counts_df fps =
      Ok (epoch_ts r + py_int (true_div (frames c) fps)).

(** A frame number that is whole. *)
Definition whole (x : Q) : Prop := exists z : Z, (x == inject_Z z)%Q.

(** ** [utility/image_provider.py]: [VideoReader] *)

(** The reader's mutable fields.  [video] stands for the file at
    [self.path]: the frames [container.decode(video=0)] yields each time the
    file is opened.  [decoder] is [self.decoder]: [None], or the frames the
    iterator has yet to yield.  An open [self.container] and a set
    [self.decoder] go together, so one field stands for both. *)
Module VideoReader.

Inductive error : Type :=
| RuntimeError
| StopIteration.

Section Reader.

Variables Frame Array : Type.

(** [frame.to_ndarray(format=self.format).astype(numpy.float32) / 255.0]. *)
Variable to_array : Frame -> Array.

Record state : Type := {
  video : list Frame;
  total_frames : Z;
  decoder : option (list Frame);
  cur_frame : Z
}.

(** [__init__]: count the frames by decoding the file once, then forget the
    container. *)
Definition init (frames : list Frame) : state :=
  {| video := frames;
     total_frames := Z.of_nat (List.length frames);
     decoder := None;
     cur_frame := 0 |}.

Definition hasFrame (self : state) (idx : Z) : bool :=
  (0 <=? idx) && (idx <? total_frames self).

(** [getFrame]: the answer, an exception or an array, and the reader
    after the call. *)
Definition getFrame (self : state) (idx : Z) : (error + Array) * state :=
  let frames_left :=
    match decoder self with
    | None => video self
    | Some remaining => remaining
    end in
  let opened :=
    {| video := video self; total_frames := total_frames self;
       decoder := Some frames_left; cur_frame := cur_frame self |} in
  if negb (idx =? cur_frame self) then (inl RuntimeError, opened)
  else
    match frames_left with
    | [] => (inl StopIteration, opened)
    | frame :: remaining =>
        (inr (to_array frame),
         {| video := video self; total_frames := total_frames self;
            decoder := Some remaining; cur_frame := cur_frame self + 1 |})
    end.

(** [__iter__], run until [k] frames have been yielded (or the file is
    exhausted): it decodes from a container of its own, but counts in
    [self.cur_frame]. *)
Definition iterate (self : state) (k : nat) : list Array * state :=
  let yielded := firstn k (video self) in
  (map to_array yielded,
   {| video := video self; total_frames := total_frames self;
      decoder := decoder self;
      cur_frame := cur_frame self + Z.of_nat (List.length yielded) |}).

(** A client that asks for the frames of [requests] one after the other,
    going on after an exception. *)
Fixpoint getFrames (self : state) (requests : list Z)
  : list (error + Array) * state :=
  match requests with
  | [] => ([], self)
  | idx :: rest =>
      let (answer, self') := getFrame self idx in
      let (answers, self'') := getFrames self' rest in
      (answer :: answers, self'')
  end.

(** A reader that only [getFrame] has touched: its iterator stands at the
    frame [cur_frame]. *)
Definition in_step (self : state) : Prop :=
  total_frames self = Z.of_nat (List.length (video self)) /\
  0 <= cur_frame self /\
  match decoder self with
  | None => cur_frame self = 0
  | Some remaining => remaining = skipn (Z.to_nat (cur_frame self)) (video self)
  end.

End Reader.

Arguments video {Frame} _.
Arguments total_frames {Frame} _.
Arguments decoder {Frame} _.
Arguments cur_frame {Frame} _.
Arguments init {Frame} frames.
Arguments hasFrame {Frame} self idx.
Arguments getFrame {Frame Array} to_array self idx.
Arguments iterate {Frame Array} to_array self k.
Arguments getFrames {Frame Array} to_array self requests.
Arguments in_step {Frame} self.

End VideoReader.

(** ** The text of a start time in a file name *)

(** [s.replace(old, new)] for a non-empty [old]: the occurrences of [old]
    found from left to right, none overlapping another, each replaced.
    [skip] counts the characters of a match still to be passed over. *)
Fixpoint replace_from (old new : string) (skip : nat) (s : string) : string :=
  match s with
  | EmptyString => EmptyString
  | String c rest =>
      match skip with
      | S k => replace_from old new k rest
      | O =>
          if String.prefix old s
          then String.append new (replace_from old new (String.length old - 1) rest)
          else String c (replace_from old new 0 rest)
      end
  end.

Definition py_replace (old new s : string) : string := replace_from old new 0 s.

(** [s[:-n]] for a positive [n]. *)
Definition drop_last (n : nat) (s : string) : string :=
  String.substring 0 (String.length s - n) s.

(** [s.split(".")[0]]: what stands before the first dot. *)
Fixpoint before_dot (s : string) : string :=
  match s with
  | EmptyString => EmptyString
  | String c rest =>
      if Ascii.eqb c "."%char then EmptyString else String c (before_dot rest)
  end.

(** The text [_add_video_end_info] and [_add_event_end_info] hand to
    [strptime], from [str(counts_df.iloc[-1]["filename"])] (lines 106-107
    and 131-132). *)
Definition counts_name_stamp (last_video_name : string) : string :=
  drop_last 7 (py_replace ".h264" "" (py_replace "data/" "" last_video_name)).

(** The text [map_file_names_to_epoch] hands to [strptime], from
    [file_path.stem] (lines 80-81). *)
Definition stem_stamp (stem : string) : string := before_dot stem.

(** The characters of a time written in [FILE_TIME_FORMAT], and of the
    sub-second digits after it. *)
Definition is_digit (c : Ascii.ascii) : bool :=
  (48 <=? Ascii.nat_of_ascii c)%nat && (Ascii.nat_of_ascii c <=? 57)%nat.

Definition stamp_char (c : Ascii.ascii) : bool :=
  is_digit c || Ascii.eqb c "-"%char || Ascii.eqb c " "%char || Ascii.eqb c ":"%char.

Fixpoint all_chars (p : Ascii.ascii -> bool) (s : string) : bool :=
  match s with
  | EmptyString => true
  | String c rest => p c && all_chars p rest
  end.

(** ** [utility/image_provider.py]: [ImageReader] *)

(** The directory is represented by [path_exists], which tells for a frame
    number [idx] whether [self.path.format(idx)] is a file; it does not
    change while the reader is used.  A [path] without a replacement field
    stands for the same file whatever [idx] is.  The files are images that
    [Image.open] reads; what is left to fail in [getFrame] is the conversion
    to [self.format].  [self.cur_idx] is set by [__init__] and never read,
    and the test frame only supplies [height] and [width]; both are left
    out. *)
Module ImageReader.

Inductive error : Type :=
| RuntimeError
| ValueError.

(** The default of [target_format]. *)
Definition default_target_format : string := "BGR"%string.

(** Lines 41-45: only the lower-case names are translated; any other
    string, the default among them, is passed on as it is. *)
Definition normalise (target_format : string) : string :=
  if (String.eqb target_format "bgr" || String.eqb target_format "rgb")%string
  then (if String.eqb target_format "bgr" then "BGR" else "RGB")%string
  else if String.eqb target_format "gray" then "L"%string
  else target_format.

Section Reader.

Variable Array : Type.

(** [os.path.exists(self.path.format(idx))]. *)
Variable path_exists : Z -> bool.

(** Whether [Image.convert] accepts a mode; for one it does not accept it
    raises [ValueError]. *)
Variable convert_ok : string -> bool.

(** The image of frame [idx], converted to an accepted mode, as an array
    (scaled, a lost channel axis put back). *)
Variable load : string -> Z -> Array.

Record state : Type := {
  first_frame : Z;
  format : string;
  total_frames : Z
}.

Definition hasFrame (idx : Z) : bool := path_exists idx.

Definition getFrame (format : string) (idx : Z) : error + Array :=
  if hasFrame idx
  then if convert_ok format then inr (load format idx) else inl ValueError
  else inl RuntimeError.

(** [while self.hasFrame(check_idx): check_idx += 1].  Nothing bounds the
    loop: it ends at the first frame number without a file, and where there
    is none it does not end.  [fuel] is the number of tests the loop is
    given; [None] when they do not suffice. *)
Fixpoint scan (fuel : nat) (check_idx : Z) : option Z :=
  match fuel with
  | O => None
  | S fuel' =>
      if hasFrame check_idx then scan fuel' (check_idx + 1) else Some check_idx
  end.

(** [__init__]: [None] when the loop has not ended within [fuel] tests;
    else the exception of the test frame, or the reader. *)
Definition init (fuel : nat) (first : Z) (target_format : string)
  : option (error + state) :=
  let format := normalise target_format in
  match scan fuel first with
  | None => None
  | Some check_idx =>
      let total := check_idx - first in
      Some match getFrame format first with
           | inl e => inl e
           | inr _ =>
               inr {| first_frame := first; format := format; total_frames := total |}
           end
  end.

(** [range(a, b)]. *)
Definition range (a b : Z) : list Z :=
  map (fun i => a + Z.of_nat i) (seq 0 (Z.to_nat (b - a))).

(** [__iter__], run to its end: what each [getFrame] gives. *)
Definition iterate (self : state) : list (error + Array) :=
  map (getFrame (format self))
    (range (first_frame self) (first_frame self + total_frames self)).

End Reader.

Arguments getFrame {Array} path_exists convert_ok load format idx.
Arguments init {Array} path_exists convert_ok load fuel first target_format.
Arguments iterate {Array} path_exists convert_ok load self.

End ImageReader.

(** * Properties *)

(** Closed comparisons of integers, by evaluation. *)
Ltac by_evaluation :=
  cbv; first [ reflexivity | discriminate | (intro; discriminate) ].

(** ** Numbers *)

Lemma Qltb_true (x y : Q) : Qltb x y = true <-> (x < y)%Q.
Proof.
  unfold Qltb. rewrite negb_true_iff. split.
  - intros H. apply Qnot_le_lt. intros Hle.
    apply Qle_bool_iff in Hle. congruence.
  - intros H. destruct (Qle_bool y x) eqn:E; [|reflexivity].
    apply Qle_bool_iff in E. exfalso. exact (Qlt_not_le _ _ H E).
Qed.

Lemma Qltb_false (x y : Q) : Qltb x y = false <-> (y <= x)%Q.
Proof.
  unfold Qltb. rewrite negb_false_iff. apply Qle_bool_iff.
Qed.

Lemma py_min_Qmin (a b : Q) : py_min a b = Qmin a b.
Proof.
  unfold py_min, Qmin, GenericMinMax.gmin.
  destruct (Qltb b a) eqn:E.
  - apply Qltb_true in E. pose proof (proj1 (Qgt_alt a b) E) as C.
    now rewrite C.
  - apply Qltb_false in E. pose proof (proj1 (Qle_alt a b) E) as C.
    destruct (a ?= b)%Q; congruence.
Qed.

Lemma py_min_le_l (a b : Q) : (py_min a b <= a)%Q.
Proof.
  unfold py_min. destruct (Qltb b a) eqn:E.
  - apply Qltb_true in E. now apply Qlt_le_weak.
  - apply Qle_refl.
Qed.

Lemma py_min_le_r (a b : Q) : (py_min a b <= b)%Q.
Proof.
  unfold py_min. destruct (Qltb b a) eqn:E.
  - apply Qle_refl.
  - now apply Qltb_false in E.
Qed.

Lemma py_min_pos (a b : Q) : (0 < a)%Q -> (0 < b)%Q -> (0 < py_min a b)%Q.
Proof.
  intros Ha Hb. unfold py_min. now destruct (Qltb b a).
Qed.

Lemma py_int_inject_Z (z : Z) : py_int (inject_Z z) = z.
Proof.
  unfold py_int, inject_Z. simpl. apply Z.quot_1_r.
Qed.

Lemma py_int_pred_le (x : Q) : (inject_Z (py_int x - 1) <= x)%Q.
Proof.
  destruct x as [n d]. unfold py_int, Qle, inject_Z. simpl.
  pose proof (Z.quot_rem' n (Z.pos d)) as Hqr.
  assert (Hd : Z.pos d <> 0) by lia.
  pose proof (Z.rem_bound_abs n (Z.pos d) Hd). nia.
Qed.

Lemma py_int_le (x : Q) : (0 <= x)%Q -> (inject_Z (py_int x) <= x)%Q.
Proof.
  destruct x as [n d]. unfold py_int, Qle, inject_Z. simpl. intros Hn.
  pose proof (Z.quot_rem' n (Z.pos d)) as Hqr.
  assert (Hd : 0 < Z.pos d) by lia.
  assert (Hn' : 0 <= n) by lia.
  pose proof (Z.rem_bound_pos n (Z.pos d) Hn' Hd). nia.
Qed.

Lemma py_int_succ_gt (x : Q) : (x < inject_Z (py_int x + 1))%Q.
Proof.
  destruct x as [n d]. unfold py_int, Qlt, inject_Z. simpl.
  pose proof (Z.quot_rem' n (Z.pos d)) as Hqr.
  assert (Hd : Z.pos d <> 0) by lia.
  pose proof (Z.rem_bound_abs n (Z.pos d) Hd). nia.
Qed.

Lemma py_int_ge_of_lt (z : Z) (x : Q) : (inject_Z z < x)%Q -> z <= py_int x.
Proof.
  destruct x as [n d]. unfold py_int, Qlt, inject_Z. simpl. intros H.
  pose proof (Z.quot_rem' n (Z.pos d)) as Hqr.
  assert (Hd : Z.pos d <> 0) by lia.
  pose proof (Z.rem_bound_abs n (Z.pos d) Hd). nia.
Qed.

Lemma true_div_nonneg (a b : Z) : 0 <= a -> 0 < b -> (0 <= true_div a b)%Q.
Proof.
  intros Ha Hb. unfold true_div.
  destruct b as [|p|p]; try lia.
  unfold Qdiv, Qinv, Qmult, Qle, inject_Z. simpl. lia.
Qed.

Lemma inject_Z_sub (a b : Z) : (inject_Z a - inject_Z b)%Q = inject_Z (a - b).
Proof.
  unfold Qminus, Qplus, Qopp, inject_Z. simpl. f_equal. lia.
Qed.

Lemma inject_Z_pos (z : Z) : 0 < z -> (0 < inject_Z z)%Q.
Proof. intros H. unfold Qlt, inject_Z. simpl. lia. Qed.

Lemma inject_Z_nonneg (z : Z) : 0 <= z -> (0 <= inject_Z z)%Q.
Proof. intros H. unfold Qle, inject_Z. simpl. lia. Qed.

Lemma inject_Z_mul (a b : Z) : (inject_Z a * inject_Z b)%Q = inject_Z (a * b).
Proof. reflexivity. Qed.

Lemma Qfloor_inject_mul (a b : Z) :
  Qfloor (inject_Z a * inject_Z b) = a * b.
Proof. rewrite inject_Z_mul. apply Qfloor_Z. Qed.

(** ** Frames *)

Lemma argmin_from_spec (l : list Z) : forall best_i best i,
  (argmin_from best_i best i l = best_i /\ Forall (fun y => best <= y) l)
  \/ (exists k x, argmin_from best_i best i l = (i + k)%nat /\
        nth_error l k = Some x /\ x < best /\ Forall (fun y => x <= y) l).
Proof.
  induction l as [|a l IH]; intros best_i best i; simpl.
  - left. split; [reflexivity | constructor].
  - destruct (a <? best) eqn:E.
    + apply Z.ltb_lt in E. right.
      destruct (IH i a (S i)) as [[Hr Hall] | (k & x & Hr & Hn & Hlt & Hall)].
      * exists 0%nat, a. rewrite Hr, Nat.add_0_r. simpl.
        repeat split; auto. constructor; [lia | exact Hall].
      * exists (S k), x. rewrite Hr. simpl.
        repeat split; auto; try lia.
        constructor; [lia | exact Hall].
    + apply Z.ltb_ge in E.
      destruct (IH best_i best (S i)) as [[Hr Hall] | (k & x & Hr & Hn & Hlt & Hall)].
      * left. split; [exact Hr | constructor; [exact E | exact Hall]].
      * right. exists (S k), x. rewrite Hr. simpl.
        repeat split; auto; try lia.
        constructor; [lia | exact Hall].
Qed.

Lemma argmin_spec (l : list Z) (i : nat) :
  argmin l = Ok i ->
  exists x, nth_error l i = Some x /\ Forall (fun y => x <= y) l.
Proof.
  destruct l as [|a l]; simpl; [discriminate|].
  intros H. injection H as <-.
  destruct (argmin_from_spec l 0%nat a 1%nat) as [[Hr Hall] | (k & x & Hr & Hn & Hlt & Hall)].
  - exists a. rewrite Hr. simpl. split; [reflexivity|].
    constructor; [lia | exact Hall].
  - exists x. rewrite Hr. simpl. split; [exact Hn|].
    constructor; [lia | exact Hall].
Qed.

Lemma argmin_nonempty (l : list Z) : l <> [] -> exists i, argmin l = Ok i.
Proof.
  destruct l; [congruence|]. intros _. simpl. eauto.
Qed.

Lemma find_latest_video_spec (t : Z) (videos : list VideoRow) (name : string) :
  _find_latest_video t videos = Ok name ->
  exists owner, In owner videos /\ vname owner = name /\ vstart owner < t /\
    forall v, In v videos -> vstart v < t -> vstart v <= vstart owner.
Proof.
  unfold _find_latest_video.
  set (earlier := filter (fun v => vstart v <? t) videos).
  destruct (argmin _) as [i|e] eqn:Hmin; simpl; [|discriminate].
  apply argmin_spec in Hmin. destruct Hmin as (x & Hx & Hall).
  destruct (nth_error earlier i) as [owner|] eqn:Hown; [|discriminate].
  intros H. injection H as <-.
  assert (Hin : In owner earlier) by (eapply nth_error_In; eauto).
  apply filter_In in Hin. destruct Hin as [Hin Hlt]. apply Z.ltb_lt in Hlt.
  exists owner. repeat split; auto.
  intros v Hv Hvt.
  rewrite nth_error_map, Hown in Hx. simpl in Hx. injection Hx as <-.
  rewrite Forall_forall in Hall.
  assert (Hv' : In (Z.abs (vstart v - t))
                  (map (fun v => Z.abs (vstart v - t)) earlier)).
  { apply in_map_iff. exists v. split; [reflexivity|].
    apply filter_In. split; [exact Hv | now apply Z.ltb_lt]. }
  apply Hall in Hv'. lia.
Qed.

Lemma find_latest_video_ok (t : Z) (videos : list VideoRow) :
  (exists v, In v videos /\ vstart v < t) ->
  exists name, _find_latest_video t videos = Ok name.
Proof.
  intros (v & Hv & Hlt). unfold _find_latest_video.
  set (earlier := filter (fun v => vstart v <? t) videos).
  assert (Hne : map (fun v => Z.abs (vstart v - t)) earlier <> []).
  { assert (In v earlier) by (apply filter_In; split; [auto | now apply Z.ltb_lt]).
    destruct earlier; [contradiction | discriminate]. }
  destruct (argmin_nonempty _ Hne) as [i Hi]. rewrite Hi. simpl.
  apply argmin_spec in Hi. destruct Hi as (x & Hx & _).
  rewrite nth_error_map in Hx.
  destruct (nth_error earlier i); [eauto | discriminate].
Qed.

Lemma find_latest_video_none (t : Z) (videos : list VideoRow) :
  (forall v, In v videos -> t <= vstart v) ->
  _find_latest_video t videos = Err ValueError.
Proof.
  intros H. unfold _find_latest_video.
  assert (Hnil : filter (fun v => vstart v <? t) videos = []).
  { induction videos as [|a l IH]; [reflexivity|]. simpl.
    assert (Ha : t <= vstart a) by (apply H; now left).
    apply Z.ltb_ge in Ha. rewrite Ha. apply IH.
    intros v Hv. apply H. now right. }
  rewrite Hnil. reflexivity.
Qed.

Lemma rows_named_from_nil (name : string) (l : list VideoRow) : forall k,
  existsb (String.eqb name) (map vname l) = false ->
  rows_named_from k name l = [].
Proof.
  induction l as [|a l IH]; intros k H; simpl in *; [reflexivity|].
  apply orb_false_iff in H. destruct H as [Ha Hl].
  rewrite String.eqb_sym, Ha. now apply IH.
Qed.

Lemma existsb_eqb_false (name : string) (l : list VideoRow) (v : VideoRow) :
  existsb (String.eqb name) (map vname l) = false ->
  In v l -> String.eqb name (vname v) = false.
Proof.
  induction l as [|a l IH]; simpl; intros H Hin; [contradiction|].
  apply orb_false_iff in H. destruct H as [Ha Hl].
  destruct Hin as [<-|Hin]; auto.
Qed.

Lemma rows_named_from_distinct (videos : list VideoRow) : forall k i v,
  distinct (map vname videos) = true ->
  nth_error videos i = Some v ->
  rows_named_from k (vname v) videos = [ ((k + i)%nat, v) ].
Proof.
  induction videos as [|a l IH]; intros k i v Hd Hn.
  - destruct i; discriminate.
  - simpl in Hd. apply andb_true_iff in Hd. destruct Hd as [Ha Hd].
    apply negb_true_iff in Ha.
    destruct i as [|i]; simpl in Hn.
    + injection Hn as ->. simpl. rewrite String.eqb_refl, Nat.add_0_r.
      f_equal. now apply rows_named_from_nil.
    + simpl. assert (Hin : In v l) by (eapply nth_error_In; eauto).
      rewrite (existsb_eqb_false _ _ _ Ha Hin).
      rewrite (IH (S k) i v Hd Hn). do 2 f_equal. lia.
Qed.

Lemma rows_named_distinct (videos : list VideoRow) (i : nat) (v : VideoRow) :
  distinct (map vname videos) = true ->
  nth_error videos i = Some v ->
  rows_named (vname v) videos = [ (i, v) ].
Proof.
  intros Hd Hn. unfold rows_named.
  now rewrite (rows_named_from_distinct videos 0%nat i v Hd Hn).
Qed.

Lemma rows_named_from_In (name : string) (videos : list VideoRow) : forall k i v,
  In (i, v) (rows_named_from k name videos) ->
  exists j, i = (k + j)%nat /\ nth_error videos j = Some v /\ vname v = name.
Proof.
  induction videos as [|a l IH]; intros k i v Hin; simpl in Hin; [contradiction|].
  destruct (String.eqb (vname a) name) eqn:E.
  - destruct Hin as [Heq|Hin].
    + injection Heq as <- <-. exists 0%nat. apply String.eqb_eq in E.
      repeat split; auto; lia.
    + destruct (IH _ _ _ Hin) as (j & -> & Hj & Hname).
      exists (S j). repeat split; auto; lia.
  - destruct (IH _ _ _ Hin) as (j & -> & Hj & Hname).
    exists (S j). repeat split; auto; lia.
Qed.

Lemma rows_named_from_complete (name : string) (w : VideoRow) (l : list VideoRow) :
  forall k j,
  nth_error l j = Some w -> vname w = name ->
  In ((k + j)%nat, w) (rows_named_from k name l).
Proof.
  induction l as [|a l IH]; intros k j Hj Hname; [destruct j; discriminate|].
  destruct j as [|j]; simpl in Hj |- *.
  - injection Hj as ->. rewrite Hname, String.eqb_refl, Nat.add_0_r. now left.
  - replace (k + S j)%nat with (S k + j)%nat by lia.
    destruct (String.eqb (vname a) name); [right|]; now apply IH.
Qed.

Lemma owning_segment_spec (t : Z) (videos : list VideoRow) (i : nat) (info : VideoRow) :
  owning_segment t videos = Ok (i, info) ->
  _find_latest_video t videos = Ok (vname info) /\
  rows_named (vname info) videos = [ (i, info) ] /\
  nth_error videos i = Some info /\
  vstart info < t /\
  forall v, In v videos -> vstart v < t -> vstart v <= vstart info.
Proof.
  unfold owning_segment.
  destruct (_find_latest_video t videos) as [name|e] eqn:Hf; simpl; [|discriminate].
  destruct (rows_named name videos) as [|hit [|]] eqn:Hr; try discriminate.
  intros H. injection H as ->.
  destruct (find_latest_video_spec _ _ _ Hf) as (owner & Hown & Hname & Hlt & Hmax).
  destruct (In_nth_error _ _ Hown) as [ko Hko].
  pose proof (rows_named_from_complete name owner videos 0%nat ko Hko Hname) as Hin.
  fold (rows_named name videos) in Hin. rewrite Hr in Hin.
  destruct Hin as [Heq|[]]. injection Heq as -> ->. simpl in *.
  subst name. repeat split; auto.
Qed.

Lemma owning_segment_distinct (t : Z) (videos : list VideoRow) :
  distinct (map vname videos) = true ->
  (exists v, In v videos /\ vstart v < t) ->
  exists i info, owning_segment t videos = Ok (i, info).
Proof.
  intros Hd Hex. unfold owning_segment.
  destruct (find_latest_video_ok _ _ Hex) as [name Hf]. rewrite Hf. simpl.
  destruct (find_latest_video_spec _ _ _ Hf) as (owner & Hown & Hname & _).
  destruct (In_nth_error _ _ Hown) as [ko Hko].
  subst name. rewrite (rows_named_distinct _ _ _ Hd Hko). eauto.
Qed.

Lemma loop_body_owner (videos : list VideoRow) (fps : Z) (acc : list Label)
  (row : EventRow) (i : nat) (info : VideoRow) :
  owning_segment (ts (log row)) videos = Ok (i, info) ->
  loop_body videos fps acc row =
    let class := event_type (log row) in
    let start := inject_Z ((ts (log row) - vstart info) * fps) in
    if Video.end_epoch_ts info <? end_ts row then
      labels_list' <-
        overflow_loop fps class (skipn (i + 1) videos)
          (inject_Z (end_ts row - Video.end_epoch_ts info)) acc ;;
      Ok (labels_list' ++
            [ Build_Label (vname info) class start
                (inject_Z ((py_int (Video.length info) - 1) * fps)) ])
    else
      Ok (acc ++
            [ Build_Label (vname info) class start
                (inject_Z ((end_ts row - vstart info) * fps)) ]).
Proof.
  intros H. apply owning_segment_spec in H.
  destruct H as (Hf & Hr & _). unfold loop_body. rewrite Hf. simpl.
  rewrite Hr. reflexivity.
Qed.

(** ** Sorted timelines *)

Lemma increasing_sorted (l : list Z) :
  increasing l = true -> StronglySorted Z.lt l.
Proof.
  intros H. apply Sorted_StronglySorted; [exact Z.lt_strorder.(StrictOrder_Transitive)|].
  induction l as [|a l IH]; [constructor|].
  destruct l as [|b l].
  - constructor; constructor.
  - simpl in H. apply andb_true_iff in H. destruct H as [Hab Hl].
    apply Z.ltb_lt in Hab. constructor; [now apply IH | now constructor].
Qed.

Lemma sorted_around (l1 l2 : list Z) (x : Z) :
  StronglySorted Z.lt (l1 ++ x :: l2) ->
  Forall (fun y => y < x) l1 /\ Forall (fun y => x < y) l2.
Proof.
  induction l1 as [|a l1 IH]; simpl; intros H.
  - apply StronglySorted_inv in H. destruct H as [_ H]. split; [constructor | exact H].
  - apply StronglySorted_inv in H. destruct H as [Hs Hall].
    destruct (IH Hs) as [H1 H2]. split; [|exact H2].
    constructor; [|exact H1].
    rewrite Forall_forall in Hall. apply Hall. apply in_or_app. right. now left.
Qed.

Lemma sorted_neighbours (pre post : list VideoRow) (prev seg : VideoRow) :
  increasing (map vstart (pre ++ prev :: seg :: post)) = true ->
  vstart prev < vstart seg /\
  forall v, In v (pre ++ prev :: seg :: post) -> vstart v < vstart seg ->
            vstart prev <= vstart v -> v = prev.
Proof.
  intros H. apply increasing_sorted in H.
  rewrite map_app in H. simpl in H.
  pose proof (sorted_around _ _ _ H) as [Hpre Hpost].
  change (map vstart pre ++ vstart prev :: vstart seg :: map vstart post)
    with (map vstart pre ++ [vstart prev] ++ vstart seg :: map vstart post) in H.
  rewrite app_assoc in H.
  pose proof (sorted_around _ _ _ H) as [Hpre' Hpost'].
  rewrite Forall_forall in Hpre, Hpost, Hpre', Hpost'.
  assert (Hps : vstart prev < vstart seg).
  { apply Hpost. now left. }
  split; [exact Hps|].
  intros v Hv Hlt Hle.
  apply in_app_or in Hv. destruct Hv as [Hv|[Hv|[Hv|Hv]]]; auto.
  - assert (vstart v < vstart prev); [|lia].
    apply Hpre. now apply in_map.
  - subst v. lia.
  - assert (vstart seg < vstart v); [|lia].
    apply Hpost'. now apply in_map.
Qed.

(** C1.  When some segment starts strictly before [t], [_find_latest_video]
    names a segment that starts strictly before [t] and no earlier than any
    other segment that does; hence, on a timeline with increasing start
    times, an event that starts exactly at a segment's start time is
    resolved to the segment before it. *)
Theorem C1_owning_segment_has_greatest_earlier_start :
  forall (t : Z) (videos : list VideoRow),
  (exists v, In v videos /\ vstart v < t) ->
  (exists owner,
      In owner videos /\
      _find_latest_video t videos = Ok (vname owner) /\
      vstart owner < t /\
      forall v, In v videos -> vstart v < t -> vstart v <= vstart owner)
  /\
  (forall pre prev seg post,
      videos = pre ++ prev :: seg :: post ->
      increasing (map vstart videos) = true ->
      t = vstart seg ->
      _find_latest_video t videos = Ok (vname prev)).
Proof.
  intros t videos Hex.
  destruct (find_latest_video_ok _ _ Hex) as [name Hf].
  destruct (find_latest_video_spec _ _ _ Hf) as (owner & Hin & Hname & Hlt & Hmax).
  split.
  - exists owner. subst name. auto.
  - intros pre prev seg post -> Hinc ->.
    destruct (sorted_neighbours _ _ _ _ Hinc) as [Hps Huniq].
    assert (Hprev : In prev (pre ++ prev :: seg :: post)).
    { apply in_or_app. right. now left. }
    assert (Hown : owner = prev).
    { apply Huniq; auto. }
    subst owner name. exact Hf.
Qed.

(** ** The two end-time builders keep what they were given *)

Section Builders.

Variable local_time : LocalTime.

Lemma fill_video_end_base (last_length : Q) (last_end : Z) (df : list EpochRow) :
  map Video.base (fill_video_end last_length last_end df) = df.
Proof.
  induction df as [|r rest IH]; [reflexivity|].
  destruct rest as [|next rest]; [reflexivity|].
  simpl in *. f_equal. exact IH.
Qed.

Lemma fill_event_end_log (last_end : Z) (events_df : list LogRow) :
  map log (fill_event_end last_end events_df) = events_df.
Proof.
  induction events_df as [|r rest IH]; [reflexivity|].
  destruct rest as [|next rest]; [reflexivity|].
  simpl in *. f_equal. exact IH.
Qed.

Lemma add_video_end_info_inv (df : list EpochRow) (counts_df : list CountsRow)
  (fps : Z) (videos : list VideoRow) :
  _add_video_end_info local_time df counts_df fps = Ok videos ->
  exists c last_end,
    iloc_last counts_df = Ok c /\
    last_video_end local_time counts_df fps = Ok last_end /\
    fps <> 0 /\
    videos = fill_video_end (true_div (frames c) fps) last_end df.
Proof.
  unfold _add_video_end_info.
  destruct df as [|r rest]; [discriminate|].
  destruct (iloc_last counts_df) as [c|] eqn:Hc; simpl; [|discriminate].
  destruct (last_video_end local_time counts_df fps) as [last_end|] eqn:Hend;
    simpl; [|discriminate].
  intros H. injection H as <-.
  exists c, last_end. repeat split; auto.
  unfold last_video_end in Hend. rewrite Hc in Hend. simpl in Hend.
  destruct (parse_file_time local_time (c_filename c)); [|discriminate].
  destruct (fps =? 0) eqn:Hfps; [|apply Z.eqb_neq; exact Hfps].
  destruct (frames c =? 0); discriminate.
Qed.

Lemma add_video_end_info_base (df : list EpochRow) (counts_df : list CountsRow)
  (fps : Z) (videos : list VideoRow) :
  _add_video_end_info local_time df counts_df fps = Ok videos ->
  map Video.base videos = df.
Proof.
  intros H. apply add_video_end_info_inv in H.
  destruct H as (c & t0 & _ & _ & _ & ->). apply fill_video_end_base.
Qed.

Lemma add_event_end_info_log (events_df : list LogRow) (counts_df : list CountsRow)
  (fps : Z) (events : list EventRow) :
  _add_event_end_info local_time events_df counts_df fps = Ok events ->
  map log events = events_df.
Proof.
  unfold _add_event_end_info.
  destruct events_df as [|r rest]; [discriminate|].
  destruct (last_video_end local_time counts_df fps); simpl; [|discriminate].
  intros H. injection H as <-. exact (fill_event_end_log _ (r :: rest)).
Qed.

End Builders.

Lemma iterrows_fails (videos : list VideoRow) (fps : Z) (row : EventRow)
  (events : list EventRow) :
  In row events ->
  (forall acc, exists err, loop_body videos fps acc row = Err err) ->
  forall acc, exists err, iterrows videos fps events acc = Err err.
Proof.
  intros Hin Hfail. induction events as [|e rest IH]; [contradiction|].
  intros acc. simpl.
  destruct Hin as [->|Hin].
  - destruct (Hfail acc) as [err ->]. simpl. eauto.
  - destruct (loop_body videos fps acc e); simpl; eauto.
Qed.

(** ** The overflow loop *)

Lemma skipn_cons_inv {A : Type} (l : list A) : forall i v rest,
  skipn i l = v :: rest -> nth_error l i = Some v /\ skipn (S i) l = rest.
Proof.
  induction l as [|a l IH]; intros i v rest H.
  - destruct i; discriminate.
  - destruct i as [|i]; simpl in H.
    + injection H as -> ->. split; reflexivity.
    + apply IH in H. exact H.
Qed.

Lemma nth_error_skipn_cons {A : Type} (l : list A) : forall i v,
  nth_error l i = Some v -> skipn i l = v :: skipn (S i) l.
Proof.
  induction l as [|a l IH]; intros i v H.
  - destruct i; discriminate.
  - destruct i as [|i]; simpl in H.
    + injection H as ->. reflexivity.
    + apply IH in H. exact H.
Qed.

Lemma overflow_loop_done (fps : Z) (class : string) (rest : list VideoRow)
  (leftover : Q) (acc : list Label) :
  Qltb 0 leftover = false -> overflow_loop fps class rest leftover acc = Ok acc.
Proof.
  intros H. destruct rest; simpl; now rewrite H.
Qed.

Lemma overflow_loop_step (fps : Z) (class : string) (v : VideoRow)
  (rest : list VideoRow) (leftover : Q) (acc : list Label) :
  Qltb 0 leftover = true ->
  overflow_loop fps class (v :: rest) leftover acc =
    if Qltb leftover (Video.length v)
    then Ok (acc ++ [ Build_Label (vname v) class
                        (py_min 4 (leftover * inject_Z fps))
                        (leftover * inject_Z fps) ])
    else overflow_loop fps class rest (leftover - Video.length v)
           (acc ++ [ Build_Label (vname v) class
                       (py_min 4 (leftover * inject_Z fps)) (Video.length v) ]).
Proof.
  intros H. simpl. rewrite H.
  destruct (Qltb leftover (Video.length v)); [|reflexivity].
  now apply overflow_loop_done.
Qed.

Lemma overflow_loop_walk (videos : list VideoRow) (fps : Z) (class : string)
  (rest : list VideoRow) : forall i leftover acc acc',
  rest = skipn i videos ->
  overflow_loop fps class rest leftover acc = Ok acc' ->
  exists rows, overflow_walk videos fps class i leftover rows /\ acc' = acc ++ rows.
Proof.
  induction rest as [|v rest IH]; intros i leftover acc acc' Hrest Hloop;
    destruct (Qltb 0 leftover) eqn:Hpos.
  - simpl in Hloop. rewrite Hpos in Hloop. discriminate.
  - rewrite overflow_loop_done in Hloop by assumption. injection Hloop as <-.
    exists []. rewrite app_nil_r. split; [|reflexivity].
    apply walk_done. apply Qltb_false in Hpos. now apply Qle_not_lt.
  - symmetry in Hrest. apply skipn_cons_inv in Hrest. destruct Hrest as [Hnth Hrest].
    rewrite overflow_loop_step in Hloop by assumption.
    apply Qltb_true in Hpos.
    destruct (Qltb leftover (Video.length v)) eqn:Hlt.
    + injection Hloop as <-. eexists. split; [|reflexivity].
      rewrite py_min_Qmin. apply walk_ends_inside; auto. now apply Qltb_true.
    + apply IH with (i := S i) in Hloop; [|now symmetry].
      destruct Hloop as (rows & Hwalk & ->).
      eexists. split; [|now rewrite <- app_assoc].
      rewrite py_min_Qmin. apply walk_continues; auto.
      apply Qltb_false in Hlt. now apply Qle_not_lt.
  - rewrite overflow_loop_done in Hloop by assumption. injection Hloop as <-.
    exists []. rewrite app_nil_r. split; [|reflexivity].
    apply walk_done. apply Qltb_false in Hpos. now apply Qle_not_lt.
Qed.

Lemma walk_overflow_loop (videos : list VideoRow) (fps : Z) (class : string)
  (i : nat) (leftover : Q) (rows : list Label) :
  overflow_walk videos fps class i leftover rows ->
  forall acc,
    overflow_loop fps class (skipn i videos) leftover acc = Ok (acc ++ rows).
Proof.
  induction 1 as [i leftover Hnot | i leftover cur Hpos Hnth Hlt
                 | i leftover cur rows Hpos Hnth Hge Hwalk IH]; intros acc.
  - rewrite app_nil_r. apply overflow_loop_done.
    apply Qltb_false. now apply Qnot_lt_le.
  - rewrite (nth_error_skipn_cons _ _ _ Hnth).
    rewrite overflow_loop_step by now apply Qltb_true.
    apply Qltb_true in Hlt. rewrite Hlt. now rewrite py_min_Qmin.
  - rewrite (nth_error_skipn_cons _ _ _ Hnth).
    rewrite overflow_loop_step by now apply Qltb_true.
    apply Qnot_lt_le, Qltb_false in Hge. rewrite Hge.
    rewrite IH, py_min_Qmin. now rewrite <- app_assoc.
Qed.

Lemma walk_start_le_4 (videos : list VideoRow) (fps : Z) (class : string)
  (i : nat) (leftover : Q) (rows : list Label) :
  overflow_walk videos fps class i leftover rows ->
  Forall (fun r => (start_frame r <= 4)%Q) rows.
Proof.
  induction 1; constructor; simpl; auto; apply Q.le_min_l.
Qed.

Lemma walk_nonempty (videos : list VideoRow) (fps : Z) (class : string)
  (i : nat) (leftover : Q) (rows : list Label) :
  overflow_walk videos fps class i leftover rows ->
  (0 < leftover)%Q -> rows <> [].
Proof.
  destruct 1; intros Hpos; [contradiction | discriminate | discriminate].
Qed.

Lemma walk_segments (videos : list VideoRow) (fps : Z) (class : string)
  (i : nat) (leftover : Q) (rows : list Label) :
  overflow_walk videos fps class i leftover rows ->
  forall k r, nth_error rows k = Some r ->
    exists v, nth_error videos (i + k) = Some v /\ lbl_filename r = vname v /\
              lbl_class r = class.
Proof.
  induction 1 as [i leftover Hnot | i leftover cur Hpos Hnth Hlt
                 | i leftover cur rows Hpos Hnth Hge Hwalk IH]; intros k r Hk.
  - destruct k; discriminate.
  - destruct k as [|[|k]]; try discriminate. injection Hk as <-.
    exists cur. rewrite Nat.add_0_r. auto.
  - destruct k as [|k].
    + injection Hk as <-. exists cur. rewrite Nat.add_0_r. auto.
    + simpl in Hk. apply IH in Hk. destruct Hk as (v & Hv & Hname).
      exists v. replace (i + S k)%nat with (S i + k)%nat by lia. auto.
Qed.

Lemma loop_body_overflow (videos : list VideoRow) (fps : Z) (acc : list Label)
  (row : EventRow) (i : nat) (owner : VideoRow) :
  owning_segment (ts (log row)) videos = Ok (i, owner) ->
  Video.end_epoch_ts owner < end_ts row ->
  forall acc',
  loop_body videos fps acc row = Ok acc' <->
  exists overflow_rows,
    overflow_walk videos fps (event_type (log row)) (S i)
      (inject_Z (end_ts row - Video.end_epoch_ts owner)) overflow_rows /\
    acc' =
      acc ++ overflow_rows ++
      [ Build_Label (vname owner) (event_type (log row))
          (inject_Z ((ts (log row) - vstart owner) * fps))
          (inject_Z ((py_int (Video.length owner) - 1) * fps)) ].
Proof.
  intros Hown Hover acc'.
  rewrite (loop_body_owner _ _ _ _ _ _ Hown). cbv zeta.
  apply Z.ltb_lt in Hover. rewrite Hover.
  replace (i + 1)%nat with (S i) by lia.
  split.
  - destruct (overflow_loop _ _ _ _ _) as [l|] eqn:Hloop; simpl; [|discriminate].
    intros H. injection H as <-.
    apply overflow_loop_walk with (videos := videos) (i := S i) in Hloop; [|reflexivity].
    destruct Hloop as (rows & Hwalk & ->).
    exists rows. split; [exact Hwalk | now rewrite <- app_assoc].
  - intros (rows & Hwalk & ->).
    rewrite (walk_overflow_loop _ _ _ _ _ _ Hwalk). simpl.
    now rewrite <- app_assoc.
Qed.

(** ** The loop against the specification's walk *)

(** Where the ["length"] column holds whole seconds, the loop emits the rows
    of the specification's walk, up to the way a frame number is written as
    a fraction. *)
Lemma overflow_walk_spec_walk (videos : list VideoRow) (fps : Z) (class : string) :
  Forall (fun v => (Video.length v == inject_Z (duration_seconds v))%Q) videos ->
  forall i leftover rows,
  overflow_walk videos fps class i leftover rows ->
  forall leftover', (leftover == leftover')%Q ->
  exists rows',
    spec_walk videos fps class i leftover' rows' /\ Forall2 same_label rows rows'.
Proof.
  intros Hwhole i leftover rows Hwalk. rewrite Forall_forall in Hwhole.
  induction Hwalk as [i leftover Hnot | i leftover cur Hpos Hnth Hlt
                     | i leftover cur rows Hpos Hnth Hge Hwalk IH];
    intros leftover' Heq.
  - exists []. split; [|constructor].
    apply spec_walk_done. now rewrite <- Heq.
  - pose proof (Hwhole _ (nth_error_In _ _ Hnth)) as Hw.
    eexists. split.
    + apply spec_walk_ends_inside; [now rewrite <- Heq | exact Hnth |].
      now rewrite <- Heq, <- Hw.
    + constructor; [|constructor]. unfold same_label. simpl.
      repeat split; now rewrite Heq.
  - pose proof (Hwhole _ (nth_error_In _ _ Hnth)) as Hw.
    destruct (IH (leftover' - inject_Z (duration_seconds cur))%Q) as (rows' & Hspec & Hsame).
    { now rewrite Heq, Hw. }
    eexists. split.
    + apply spec_walk_continues; [now rewrite <- Heq | exact Hnth | | exact Hspec].
      now rewrite <- Heq, <- Hw.
    + constructor; [|exact Hsame]. unfold same_label. simpl.
      repeat split; [now rewrite Heq | exact Hw].
Qed.

Lemma spec_walk_overflow_walk (videos : list VideoRow) (fps : Z) (class : string) :
  Forall (fun v => (Video.length v == inject_Z (duration_seconds v))%Q) videos ->
  forall i leftover rows,
  spec_walk videos fps class i leftover rows ->
  forall leftover', (leftover == leftover')%Q ->
  exists rows',
    overflow_walk videos fps class i leftover' rows' /\ Forall2 same_label rows' rows.
Proof.
  intros Hwhole i leftover rows Hwalk. rewrite Forall_forall in Hwhole.
  induction Hwalk as [i leftover Hnot | i leftover cur Hpos Hnth Hlt
                     | i leftover cur rows Hpos Hnth Hge Hwalk IH];
    intros leftover' Heq.
  - exists []. split; [|constructor].
    apply walk_done. now rewrite <- Heq.
  - pose proof (Hwhole _ (nth_error_In _ _ Hnth)) as Hw.
    eexists. split.
    + apply walk_ends_inside; [now rewrite <- Heq | exact Hnth |].
      now rewrite <- Heq, Hw.
    + constructor; [|constructor]. unfold same_label. simpl.
      repeat split; now rewrite Heq.
  - pose proof (Hwhole _ (nth_error_In _ _ Hnth)) as Hw.
    destruct (IH (leftover' - Video.length cur)%Q) as (rows' & Hcode & Hsame).
    { now rewrite Heq, Hw. }
    eexists. split.
    + apply walk_continues; [now rewrite <- Heq | exact Hnth | | exact Hcode].
      now rewrite <- Heq, Hw.
    + constructor; [|exact Hsame]. unfold same_label. simpl.
      repeat split; [now rewrite Heq | exact Hw].
Qed.

(** So on such a timeline an event that ends after its owning segment is
    processed exactly when the specification's walk emits rows, and the
    labels appended are those rows followed by the owning segment's row,
    whose end frame is one second short of the segment's duration. *)
Lemma loop_body_follows_spec_walk (videos : list VideoRow) (fps : Z)
  (labels_list : list Label) (row : EventRow) (i : nat) (owner : VideoRow) :
  Forall (fun v => (Video.length v == inject_Z (duration_seconds v))%Q) videos ->
  owning_segment (ts (log row)) videos = Ok (i, owner) ->
  Video.end_epoch_ts owner < end_ts row ->
  ((exists labels_list', loop_body videos fps labels_list row = Ok labels_list') <->
   (exists spec_rows,
      spec_walk videos fps (event_type (log row)) (S i)
        (inject_Z (end_ts row - Video.end_epoch_ts owner)) spec_rows)) /\
  forall labels_list',
    loop_body videos fps labels_list row = Ok labels_list' ->
    exists spec_rows overflow_rows,
      spec_walk videos fps (event_type (log row)) (S i)
        (inject_Z (end_ts row - Video.end_epoch_ts owner)) spec_rows /\
      Forall2 same_label overflow_rows spec_rows /\
      labels_list' =
        labels_list ++ overflow_rows ++
        [ Build_Label (vname owner) (event_type (log row))
            (inject_Z ((ts (log row) - vstart owner) * fps))
            (inject_Z ((duration_seconds owner - 1) * fps)) ].
Proof.
  intros Hwhole Hown Hover.
  assert (Hfwd : forall labels_list',
    loop_body videos fps labels_list row = Ok labels_list' ->
    exists spec_rows overflow_rows,
      spec_walk videos fps (event_type (log row)) (S i)
        (inject_Z (end_ts row - Video.end_epoch_ts owner)) spec_rows /\
      Forall2 same_label overflow_rows spec_rows /\
      labels_list' =
        labels_list ++ overflow_rows ++
        [ Build_Label (vname owner) (event_type (log row))
            (inject_Z ((ts (log row) - vstart owner) * fps))
            (inject_Z ((duration_seconds owner - 1) * fps)) ]).
  { intros acc' Hbody.
    apply (loop_body_overflow _ _ _ _ _ _ Hown Hover) in Hbody.
    destruct Hbody as (rows & Hwalk & ->).
    destruct (overflow_walk_spec_walk _ _ _ Hwhole _ _ _ Hwalk _ (Qeq_refl _))
      as (rows' & Hspec & Hsame).
    exists rows', rows. auto. }
  split; [|exact Hfwd]. split.
  - intros (acc' & Hbody). destruct (Hfwd _ Hbody) as (rows' & _ & Hspec & _). eauto.
  - intros (rows' & Hspec).
    destruct (spec_walk_overflow_walk _ _ _ Hwhole _ _ _ Hspec _ (Qeq_refl _))
      as (rows & Hwalk & _).
    eexists. apply (loop_body_overflow _ _ _ _ _ _ Hown Hover). eauto.
Qed.

(** C2 (the loop departs from it).  Segments start at 0, 10 and 25, the
    last file has 31 frames and the frame rate is 2, so the last segment
    lasts 15 whole seconds.  The last event, from 12 to the end of the
    recording at 40, is owned by the second segment and comes to the third
    with 15 seconds left over.  The specification's walk finds them not
    less than the segment's duration and emits end frame 15; the loop
    compares them with the stored ["length"] 15.5 and emits end frame
    30. *)
Theorem C2_loop_reads_the_unfloored_length :
  _add_video_end_info (utc_time boundary_files) boundary_files odd_counts 2
  = Ok odd_videos /\
  _add_event_end_info (utc_time boundary_files) boundary_log odd_counts 2
  = Ok [ boundary_event; last_event ] /\
  owning_segment (ts (log last_event)) odd_videos
  = Ok (1%nat, Video.Build_row (Build_EpochRow "v10.h264"%string 10) (inject_Z 15) 25) /\
  map duration_seconds odd_videos = [ 10; 15; 15 ] /\
  loop_body odd_videos 2 [] last_event
  = Ok [ Build_Label "v25.h264"%string "logNeg"%string (inject_Z 4) (inject_Z 30);
         Build_Label "v10.h264"%string "logNeg"%string (inject_Z 4) (inject_Z 28) ] /\
  forall spec_rows,
    spec_walk odd_videos 2 "logNeg"%string 2 (inject_Z (40 - 25)) spec_rows <->
    spec_rows
    = [ Build_Label "v25.h264"%string "logNeg"%string (inject_Z 4) (inject_Z 15) ].
Proof.
  repeat (split; [reflexivity|]).
  intros spec_rows. split.
  - intros Hwalk.
    inversion Hwalk as [i leftover Hnot | i leftover cur Hpos Hnth Hlt
                       | i leftover cur rows Hpos Hnth Hge Hrest]; subst.
    + exfalso. apply Hnot. reflexivity.
    + injection Hnth as <-. vm_compute in Hlt. discriminate.
    + injection Hnth as <-.
      inversion Hrest as [i leftover Hnot | i leftover cur Hpos' Hnth' Hlt
                         | i leftover cur rows' Hpos' Hnth' Hge' Hrest']; subst.
      * reflexivity.
      * discriminate.
      * discriminate.
  - intros ->.
    apply (spec_walk_continues odd_videos 2 "logNeg"%string 2 (inject_Z (40 - 25))
             (Video.Build_row (Build_EpochRow "v25.h264"%string 25) (true_div 31 2) 40)
             []).
    + reflexivity.
    + reflexivity.
    + intros H. vm_compute in H. discriminate.
    + apply spec_walk_done. intros H. vm_compute in H. discriminate.
Qed.

(** C10.  Every label the overflow loop appends has a start frame of at
    most 4. *)
Theorem C10_overflow_start_frame_at_most_4 :
  forall (fps : Z) (class : string) (rest : list VideoRow) (leftover_seconds : Q)
         (labels_list labels_list' : list Label),
  overflow_loop fps class rest leftover_seconds labels_list = Ok labels_list' ->
  exists overflow_rows,
    labels_list' = labels_list ++ overflow_rows /\
    Forall (fun r => (start_frame r <= 4)%Q) overflow_rows.
Proof.
  intros fps class rest leftover acc acc' Hloop.
  apply overflow_loop_walk with (videos := rest) (i := 0%nat) in Hloop; [|reflexivity].
  destruct Hloop as (rows & Hwalk & ->).
  exists rows. split; [reflexivity|]. eapply walk_start_le_4; eauto.
Qed.

(** C3.  An event that ends no later than its owning segment gets exactly
    one label, in the owning segment, from the floor of its start and end
    offsets times the frame rate; when the event has zero duration the two
    frames are equal. *)
Theorem C3_contained_event_emits_one_row :
  forall (videos : list VideoRow) (fps : Z) (labels_list : list Label)
         (row : EventRow) (i : nat) (owner : VideoRow),
  owning_segment (ts (log row)) videos = Ok (i, owner) ->
  end_ts row <= Video.end_epoch_ts owner ->
  exists label,
    loop_body videos fps labels_list row = Ok (labels_list ++ [ label ]) /\
    lbl_filename label = vname owner /\
    lbl_class label = event_type (log row) /\
    start_frame label =
      inject_Z (Qfloor (inject_Z (ts (log row) - vstart owner) * inject_Z fps)) /\
    end_frame label =
      inject_Z (Qfloor (inject_Z (end_ts row - vstart owner) * inject_Z fps)) /\
    (ts (log row) = end_ts row -> start_frame label = end_frame label).
Proof.
  intros videos fps acc row i owner Hown Hin.
  rewrite (loop_body_owner _ _ _ _ _ _ Hown). cbv zeta.
  apply Z.ltb_ge in Hin. rewrite Hin.
  eexists. split; [reflexivity|].
  cbn [lbl_filename lbl_class start_frame end_frame].
  rewrite !Qfloor_inject_mul. repeat split; auto.
  intros ->. reflexivity.
Qed.

(** ** The loop over the events *)

Lemma iterrows_app (videos : list VideoRow) (fps : Z) (before after : list EventRow) :
  forall acc,
  iterrows videos fps (before ++ after) acc =
    (acc1 <- iterrows videos fps before acc ;; iterrows videos fps after acc1).
Proof.
  induction before as [|e before IH]; intros acc; simpl; [reflexivity|].
  destruct (loop_body videos fps acc e); simpl; [apply IH | reflexivity].
Qed.

Lemma iterrows_In (videos : list VideoRow) (fps : Z) (row : EventRow)
  (events : list EventRow) :
  In row events ->
  forall acc labels,
  iterrows videos fps events acc = Ok labels ->
  exists acc1 acc2,
    loop_body videos fps acc1 row = Ok acc2 /\
    exists after, iterrows videos fps after acc2 = Ok labels.
Proof.
  induction events as [|e rest IH]; intros Hin acc labels Hrun; [contradiction|].
  simpl in Hrun.
  destruct (loop_body videos fps acc e) as [acc'|] eqn:Hbody; simpl in Hrun;
    [|discriminate].
  destruct Hin as [->|Hin].
  - exists acc, acc'. split; [exact Hbody | eauto].
  - eapply IH; eauto.
Qed.

Lemma loop_body_ok_owner (videos : list VideoRow) (fps : Z) (acc acc' : list Label)
  (row : EventRow) :
  loop_body videos fps acc row = Ok acc' ->
  exists i owner, owning_segment (ts (log row)) videos = Ok (i, owner).
Proof.
  unfold loop_body, owning_segment.
  destruct (_find_latest_video _ _); simpl; [|discriminate].
  destruct (rows_named _ _) as [|[i owner] [|]]; try discriminate. eauto.
Qed.

Lemma iterrows_extends (videos : list VideoRow) (fps : Z) (events : list EventRow) :
  forall acc labels,
  iterrows videos fps events acc = Ok labels -> exists rows, labels = acc ++ rows.
Proof.
  induction events as [|e rest IH]; intros acc labels Hrun; simpl in Hrun.
  - injection Hrun as <-. exists []. now rewrite app_nil_r.
  - destruct (loop_body videos fps acc e) as [acc'|] eqn:Hbody; simpl in Hrun;
      [|discriminate].
    apply IH in Hrun. destruct Hrun as [rows ->].
    destruct (loop_body_ok_owner _ _ _ _ _ Hbody) as (i & owner & Hown).
    rewrite (loop_body_owner _ _ _ _ _ _ Hown) in Hbody. cbv zeta in Hbody.
    destruct (Video.end_epoch_ts owner <? end_ts e).
    + destruct (overflow_loop _ _ _ _ _) as [l|] eqn:Hloop; simpl in Hbody;
        [|discriminate].
      injection Hbody as <-.
      apply overflow_loop_walk with (videos := videos) (i := (i + 1)%nat) in Hloop;
        [|reflexivity].
      destruct Hloop as (rows' & _ & ->).
      eexists. rewrite <- !app_assoc. reflexivity.
    + injection Hbody as <-. eexists. rewrite <- !app_assoc. reflexivity.
Qed.

(** C9.  In the collected label list, the labels of an event that ends after
    its owning segment stand together, every overflow label before the
    owning segment's label. *)
Theorem C9_overflow_rows_precede_primary_row :
  forall (videos : list VideoRow) (fps : Z) (events : list EventRow)
         (labels_list0 labels_list : list Label)
         (row : EventRow) (i : nat) (owner : VideoRow),
  iterrows videos fps events labels_list0 = Ok labels_list ->
  In row events ->
  owning_segment (ts (log row)) videos = Ok (i, owner) ->
  Video.end_epoch_ts owner < end_ts row ->
  exists before overflow_rows primary after,
    labels_list = before ++ overflow_rows ++ primary :: after /\
    overflow_rows <> [] /\
    overflow_loop fps (event_type (log row)) (skipn (i + 1) videos)
      (inject_Z (end_ts row - Video.end_epoch_ts owner)) [] = Ok overflow_rows /\
    primary =
      Build_Label (vname owner) (event_type (log row))
        (inject_Z ((ts (log row) - vstart owner) * fps))
        (inject_Z ((py_int (Video.length owner) - 1) * fps)) /\
    forall acc, loop_body videos fps acc row = Ok (acc ++ overflow_rows ++ [ primary ]).
Proof.
  intros videos fps events acc0 labels row i owner Hrun Hin Hown Hover.
  destruct (iterrows_In _ _ _ _ Hin _ _ Hrun) as (acc1 & acc2 & Hbody & after & Hafter).
  apply iterrows_extends in Hafter. destruct Hafter as [rest ->].
  pose proof (proj1 (loop_body_overflow _ _ _ _ _ _ Hown Hover acc2) Hbody)
    as (rows & Hwalk & ->).
  exists acc1, rows, (Build_Label (vname owner) (event_type (log row))
                        (inject_Z ((ts (log row) - vstart owner) * fps))
                        (inject_Z ((py_int (Video.length owner) - 1) * fps))), rest.
  repeat split.
  - rewrite <- !app_assoc. reflexivity.
  - eapply walk_nonempty; eauto.
    apply inject_Z_pos. lia.
  - replace (i + 1)%nat with (S i) by lia.
    now rewrite (walk_overflow_loop _ _ _ _ _ _ Hwalk).
  - intros acc. apply (loop_body_overflow _ _ _ _ _ _ Hown Hover). eauto.
Qed.

(** ** Running out of segments *)

Lemma total_length_nonneg (videos : list VideoRow) :
  Forall (fun v => (0 <= Video.length v)%Q) videos ->
  (0 <= total_length videos)%Q.
Proof.
  induction 1 as [|v l Hv Hl IH]; simpl.
  - apply Qle_refl.
  - change 0%Q with (0 + 0)%Q. now apply Qplus_le_compat.
Qed.

Lemma overflow_loop_exhausted (fps : Z) (class : string) (rest : list VideoRow) :
  Forall (fun v => (0 <= Video.length v)%Q) rest ->
  forall leftover acc,
  (total_length rest < leftover)%Q ->
  overflow_loop fps class rest leftover acc = Err IndexError.
Proof.
  induction 1 as [|v rest Hv Hrest IH]; intros leftover acc Hlt.
  - simpl in *. apply Qltb_true in Hlt. now rewrite Hlt.
  - pose proof (total_length_nonneg _ Hrest) as Htot.
    simpl in Hlt.
    assert (Hpos : (0 < leftover)%Q).
    { eapply Qle_lt_trans; [|exact Hlt].
      change 0%Q with (0 + 0)%Q. now apply Qplus_le_compat. }
    assert (Hge : (Video.length v <= leftover)%Q).
    { apply Qlt_le_weak. eapply Qle_lt_trans; [|exact Hlt].
      rewrite <- (Qplus_0_r (Video.length v)) at 1.
      apply Qplus_le_compat; [apply Qle_refl | exact Htot]. }
    rewrite overflow_loop_step by now apply Qltb_true.
    apply Qltb_false in Hge. rewrite Hge.
    apply IH.
    apply Qlt_minus_iff. apply Qlt_minus_iff in Hlt.
    eapply Qlt_le_trans; [exact Hlt|].
    apply Qle_lteq. right. ring.
Qed.

Lemma fill_video_end_nonneg (last_length : Q) (last_end : Z) (df : list EpochRow) :
  increasing (map epoch_ts df) = true ->
  (0 <= last_length)%Q ->
  Forall (fun v => (0 <= Video.length v)%Q) (fill_video_end last_length last_end df).
Proof.
  intros Hinc Hlast.
  induction df as [|r rest IH]; [constructor|].
  destruct rest as [|next rest].
  - constructor; [exact Hlast | constructor].
  - simpl in Hinc. apply andb_true_iff in Hinc. destruct Hinc as [Hlt Hinc].
    apply Z.ltb_lt in Hlt.
    change (fill_video_end last_length last_end (r :: next :: rest))
      with (Video.Build_row r (inject_Z (epoch_ts next - epoch_ts r)) (epoch_ts next)
              :: fill_video_end last_length last_end (next :: rest)).
    constructor; [|now apply IH].
    simpl. apply inject_Z_nonneg. lia.
Qed.

Lemma Forall_skipn_of {A : Type} (P : A -> Prop) (n : nat) (l : list A) :
  Forall P l -> Forall P (skipn n l).
Proof.
  intros H. rewrite <- (firstn_skipn n l) in H.
  apply Forall_app in H. tauto.
Qed.

Lemma total_duration_le_length (videos : list VideoRow) :
  Forall (fun v => (0 <= Video.length v)%Q) videos ->
  (inject_Z (total_duration videos) <= total_length videos)%Q.
Proof.
  induction 1 as [|v l Hv Hl IH]; simpl.
  - apply Qle_refl.
  - rewrite inject_Z_plus. apply Qplus_le_compat; [|exact IH].
    now apply py_int_le.
Qed.

Lemma fill_video_end_skipn (last_length : Q) (last_end : Z) (df : list EpochRow) :
  forall k,
  skipn k (fill_video_end last_length last_end df)
  = fill_video_end last_length last_end (skipn k df).
Proof.
  induction df as [|r rest IH]; intros k.
  - now rewrite !skipn_nil.
  - destruct k as [|k]; [reflexivity|].
    destruct rest as [|next rest].
    + simpl. now rewrite !skipn_nil.
    + change (fill_video_end last_length last_end (r :: next :: rest))
        with (Video.Build_row r (inject_Z (epoch_ts next - epoch_ts r)) (epoch_ts next)
                :: fill_video_end last_length last_end (next :: rest)).
      simpl skipn. apply IH.
Qed.

(** Only the last segment of a built timeline can have a fractional
    ["length"], so the column's total exceeds the whole seconds by less
    than one. *)
Lemma fill_video_end_total (last_length : Q) (last_end : Z) (df : list EpochRow) :
  (total_length (fill_video_end last_length last_end df)
   < inject_Z (total_duration (fill_video_end last_length last_end df) + 1))%Q.
Proof.
  induction df as [|r rest IH]; [reflexivity|].
  destruct rest as [|next rest].
  - simpl. unfold duration_seconds. simpl.
    rewrite Qplus_0_r, Z.add_0_r. apply py_int_succ_gt.
  - change (fill_video_end last_length last_end (r :: next :: rest))
      with (Video.Build_row r (inject_Z (epoch_ts next - epoch_ts r)) (epoch_ts next)
              :: fill_video_end last_length last_end (next :: rest)).
    set (tl := fill_video_end last_length last_end (next :: rest)) in *.
    simpl. unfold duration_seconds at 1. simpl Video.length.
    rewrite py_int_inject_Z, <- Z.add_assoc, inject_Z_plus.
    apply Qplus_lt_r. exact IH.
Qed.

Section Run.

Variable local_time : LocalTime.
Variable sort_values : list Label -> list Label.
Hypothesis sort_values_perm : forall l, Permutation l (sort_values l).

Lemma run_thru_events_rows (events_df : list LogRow) (counts_df : list CountsRow)
  (df : list EpochRow) (fps : Z) (labels : list Label) :
  run_thru_events local_time sort_values events_df counts_df df fps = Ok labels ->
  exists labels_list,
    collect_labels local_time events_df counts_df df fps = Ok labels_list /\
    Permutation labels_list labels.
Proof.
  unfold run_thru_events.
  destruct (collect_labels _ _ _ _ _) as [l|]; simpl; [|discriminate].
  intros H. injection H as <-. eauto.
Qed.

Lemma run_fails_at (events_df : list LogRow) (counts_df : list CountsRow)
  (df : list EpochRow) (fps : Z) (videos : list VideoRow) (events : list EventRow)
  (row : EventRow) (err : PyError) :
  _add_video_end_info local_time df counts_df fps = Ok videos ->
  _add_event_end_info local_time events_df counts_df fps = Ok events ->
  In row events ->
  (forall acc, loop_body videos fps acc row = Err err) ->
  (exists e, run_thru_events local_time sort_values events_df counts_df df fps
             = Err e) /\
  (forall before after acc1,
      events = before ++ row :: after ->
      iterrows videos fps before [] = Ok acc1 ->
      run_thru_events local_time sort_values events_df counts_df df fps
      = Err err).
Proof.
  intros Hv He Hin Hfail.
  unfold run_thru_events, collect_labels. rewrite Hv, He. simpl.
  split.
  - destruct (iterrows_fails videos fps row events Hin) with (acc := @nil Label)
      as [e Hrun].
    + intros acc. eauto.
    + rewrite Hrun. simpl. eauto.
  - intros before after acc1 -> Hbefore.
    rewrite iterrows_app, Hbefore. simpl. now rewrite Hfail.
Qed.

(** C8.  An event that starts no later than every segment has no owning
    segment: [_find_latest_video] raises ([ValueError], from [np.argmin] on an
    empty selection), so does the processing of the event, and a run over
    events that include it returns no table; the exception is this one when
    the events before it are processed without error. *)
Theorem C8_event_before_every_segment_fails_the_run :
  forall (events_df : list LogRow) (counts_df : list CountsRow)
         (df : list EpochRow) (fps : Z)
         (videos : list VideoRow) (events : list EventRow) (row : EventRow),
  _add_video_end_info local_time df counts_df fps = Ok videos ->
  _add_event_end_info local_time events_df counts_df fps = Ok events ->
  In row events ->
  (forall v, In v videos -> ts (log row) <= vstart v) ->
  _find_latest_video (ts (log row)) videos = Err ValueError /\
  (forall labels_list, loop_body videos fps labels_list row = Err ValueError) /\
  (exists e, run_thru_events local_time sort_values events_df counts_df df fps
             = Err e) /\
  (forall before after labels_list,
      events = before ++ row :: after ->
      iterrows videos fps before [] = Ok labels_list ->
      run_thru_events local_time sort_values events_df counts_df df fps
      = Err ValueError).
Proof.
  intros events_df counts_df df fps videos events row Hv He Hin Hearly.
  pose proof (find_latest_video_none _ _ Hearly) as Hfind.
  assert (Hbody : forall acc, loop_body videos fps acc row = Err ValueError).
  { intros acc. unfold loop_body. now rewrite Hfind. }
  split; [exact Hfind|]. split; [exact Hbody|].
  eapply run_fails_at; eauto.
Qed.

(** C7.  On a timeline with increasing start times, an event whose seconds
    left over after its owning segment exceed the total duration of the
    segments after it (in whole seconds; a fortiori when they exceed the
    total of the ["length"] column, [total_duration_le_length]) makes the
    overflow loop index past the last segment:
    the processing of the event raises ([IndexError], from [iloc]), and a run
    over events that include it returns no table, not even the labels
    collected so far; the exception is this one when the events before it
    are processed without error. *)
Theorem C7_leftover_beyond_timeline_fails_the_run :
  forall (events_df : list LogRow) (counts_df : list CountsRow)
         (df : list EpochRow) (fps : Z)
         (videos : list VideoRow) (events : list EventRow)
         (row : EventRow) (i : nat) (owner : VideoRow),
  increasing (map epoch_ts df) = true ->
  0 < fps ->
  (forall c, iloc_last counts_df = Ok c -> 0 <= frames c) ->
  _add_video_end_info local_time df counts_df fps = Ok videos ->
  _add_event_end_info local_time events_df counts_df fps = Ok events ->
  In row events ->
  owning_segment (ts (log row)) videos = Ok (i, owner) ->
  total_duration (skipn (i + 1) videos) < end_ts row - Video.end_epoch_ts owner ->
  (forall labels_list, loop_body videos fps labels_list row = Err IndexError) /\
  (exists e, run_thru_events local_time sort_values events_df counts_df df fps
             = Err e) /\
  (forall before after labels_list,
      events = before ++ row :: after ->
      iterrows videos fps before [] = Ok labels_list ->
      run_thru_events local_time sort_values events_df counts_df df fps
      = Err IndexError).
Proof.
  intros events_df counts_df df fps videos events row i owner
         Hinc Hfps Hframes Hv He Hin Hown Hbeyond.
  assert (Hnonneg : Forall (fun v => (0 <= Video.length v)%Q) videos).
  { destruct (add_video_end_info_inv _ _ _ _ _ Hv) as (c & t0 & Hc & _ & _ & ->).
    apply fill_video_end_nonneg; [exact Hinc|].
    apply true_div_nonneg; auto. }
  assert (Hrest : Forall (fun v => (0 <= Video.length v)%Q) (skipn (i + 1) videos))
    by now apply Forall_skipn_of.
  assert (Hstored : (total_length (skipn (i + 1) videos)
                     < inject_Z (end_ts row - Video.end_epoch_ts owner))%Q).
  { destruct (add_video_end_info_inv _ _ _ _ _ Hv) as (c & t0 & _ & _ & _ & ->).
    rewrite fill_video_end_skipn in *.
    eapply Qlt_le_trans; [apply fill_video_end_total|].
    rewrite <- Zle_Qle. lia. }
  assert (Hover : Video.end_epoch_ts owner < end_ts row).
  { pose proof (total_length_nonneg _ Hrest) as Htot.
    assert (Hq : (inject_Z 0 < inject_Z (end_ts row - Video.end_epoch_ts owner))%Q)
      by (eapply Qle_lt_trans; eauto).
    rewrite <- Zlt_Qlt in Hq. lia. }
  assert (Hbody : forall acc, loop_body videos fps acc row = Err IndexError).
  { intros acc. rewrite (loop_body_owner _ _ _ _ _ _ Hown). cbv zeta.
    apply Z.ltb_lt in Hover. rewrite Hover.
    rewrite overflow_loop_exhausted; auto. }
  split; [exact Hbody|].
  eapply run_fails_at; eauto.
Qed.

End Run.

(** ** Shape of the timeline [_add_video_end_info] builds *)

Lemma iloc_last_cons {A : Type} (a b : A) (l : list A) :
  iloc_last (a :: b :: l) = iloc_last (b :: l).
Proof.
  unfold iloc_last. simpl rev.
  destruct (rev l ++ [b]) as [|x rest] eqn:E; [|reflexivity].
  destruct (rev l); discriminate.
Qed.

Lemma fill_video_end_head (last_length : Q) (last_end : Z) (r : EpochRow)
  (rest : list EpochRow) :
  exists v tl, fill_video_end last_length last_end (r :: rest) = v :: tl /\
               Video.base v = r.
Proof.
  destruct rest; simpl; eauto.
Qed.

Lemma fill_video_end_nth (last_length : Q) (last_end : Z) (df : list EpochRow) :
  forall j v,
  nth_error (fill_video_end last_length last_end df) j = Some v ->
  (exists next,
      nth_error (fill_video_end last_length last_end df) (S j) = Some next /\
      Video.length v = inject_Z (vstart next - vstart v) /\
      Video.end_epoch_ts v = vstart next)
  \/ (nth_error (fill_video_end last_length last_end df) (S j) = None /\
      Video.length v = last_length /\
      Video.end_epoch_ts v = last_end /\
      iloc_last df = Ok (Video.base v)).
Proof.
  induction df as [|r rest IH]; intros j v Hj.
  - destruct j; discriminate.
  - destruct rest as [|next rest].
    + destruct j as [|[|j]]; try discriminate.
      injection Hj as <-. right. repeat split.
    + change (fill_video_end last_length last_end (r :: next :: rest))
        with (Video.Build_row r (inject_Z (epoch_ts next - epoch_ts r)) (epoch_ts next)
                :: fill_video_end last_length last_end (next :: rest)) in *.
      destruct j as [|j].
      * injection Hj as <-. left.
        destruct (fill_video_end_head last_length last_end next rest)
          as (w & tl & Hw & Hbase).
        exists w. rewrite Hw. unfold vstart. rewrite Hbase. repeat split.
      * change (nth_error (fill_video_end last_length last_end (next :: rest)) j
                = Some v) in Hj.
        rewrite iloc_last_cons.
        destruct (IH j v Hj) as [(w & Hw & Hlen & Hend) | (Hnone & Hlen & Hend & Hlast)].
        -- left. exists w. repeat split; auto.
        -- right. repeat split; auto.
Qed.

(** In a built timeline whose last counted file is its last file, a
    segment ends [int(length)] seconds after it starts. *)
Lemma built_segment_end (local_time : LocalTime)
  (df : list EpochRow) (counts_df : list CountsRow) (fps : Z)
  (videos : list VideoRow) (j : nat) (v : VideoRow) :
  (forall c r, iloc_last counts_df = Ok c -> iloc_last df = Ok r ->
               last_video_end local_time counts_df fps =
                 Ok (epoch_ts r + py_int (true_div (frames c) fps))) ->
  _add_video_end_info local_time df counts_df fps = Ok videos ->
  nth_error videos j = Some v ->
  Video.end_epoch_ts v = vstart v + py_int (Video.length v).
Proof.
  intros Hlast Hv Hj.
  destruct (add_video_end_info_inv _ _ _ _ _ Hv) as (c & t0 & Hc & Hp & _ & ->).
  destruct (fill_video_end_nth _ _ _ _ _ Hj)
    as [(w & _ & Hlen & Hend) | (_ & Hlen & Hend & Hl)].
  - rewrite Hlen, Hend, py_int_inject_Z. lia.
  - rewrite Hlen, Hend.
    specialize (Hlast _ _ Hc Hl). rewrite Hp in Hlast. now injection Hlast.
Qed.

Lemma built_segment_length (local_time : LocalTime)
  (df : list EpochRow) (counts_df : list CountsRow) (fps : Z)
  (videos : list VideoRow) (j : nat) (v : VideoRow) :
  0 < fps ->
  (forall c, iloc_last counts_df = Ok c -> 0 <= frames c) ->
  _add_video_end_info local_time df counts_df fps = Ok videos ->
  nth_error videos j = Some v ->
  (inject_Z (py_int (Video.length v)) <= Video.length v)%Q.
Proof.
  intros Hfps Hframes Hv Hj.
  destruct (add_video_end_info_inv _ _ _ _ _ Hv) as (c & t0 & Hc & Hp & _ & ->).
  destruct (fill_video_end_nth _ _ _ _ _ Hj)
    as [(w & _ & Hlen & Hend) | (_ & Hlen & Hend & Hl)].
  - rewrite Hlen, py_int_inject_Z. apply Qle_refl.
  - rewrite Hlen. apply py_int_le. apply true_div_nonneg; auto.
Qed.

Lemma true_div_multiple (k fps : Z) :
  0 < fps ->
  (true_div (k * fps) fps == inject_Z (py_int (true_div (k * fps) fps)))%Q.
Proof.
  intros Hfps. destruct fps as [|p|p]; try lia.
  unfold true_div, py_int, Qdiv, Qinv, Qmult, inject_Z, Qeq.
  cbn [Qnum Qden]. rewrite Pos.mul_1_l, Z.mul_1_r, Z.mul_1_r, Z.quot_mul by lia.
  reflexivity.
Qed.

(** The ["length"] column of a built timeline holds whole seconds when the
    frame rate divides the last file's frame count. *)
Lemma built_whole_lengths (local_time : LocalTime)
  (df : list EpochRow) (counts_df : list CountsRow) (fps : Z)
  (videos : list VideoRow) :
  0 < fps ->
  (forall c, iloc_last counts_df = Ok c -> (fps | frames c)) ->
  _add_video_end_info local_time df counts_df fps = Ok videos ->
  Forall (fun v => (Video.length v == inject_Z (duration_seconds v))%Q) videos.
Proof.
  intros Hfps Hdiv Hv.
  destruct (add_video_end_info_inv _ _ _ _ _ Hv) as (c & t0 & Hc & _ & _ & ->).
  apply Forall_forall. intros v Hin.
  destruct (In_nth_error _ _ Hin) as [j Hj]. unfold duration_seconds.
  destruct (fill_video_end_nth _ _ _ _ _ Hj)
    as [(w & _ & Hlen & _) | (_ & Hlen & _)].
  - rewrite Hlen, py_int_inject_Z. reflexivity.
  - rewrite Hlen. destruct (Hdiv _ Hc) as [k ->].
    now apply true_div_multiple.
Qed.

Lemma distinct_names_inj (videos : list VideoRow) (a b : VideoRow) :
  distinct (map vname videos) = true ->
  In a videos -> In b videos -> vname a = vname b -> a = b.
Proof.
  intros Hd Ha Hb Hname.
  destruct (In_nth_error _ _ Ha) as [i Hi].
  destruct (In_nth_error _ _ Hb) as [j Hj].
  pose proof (rows_named_distinct _ _ _ Hd Hi) as Ra.
  pose proof (rows_named_distinct _ _ _ Hd Hj) as Rb.
  rewrite Hname, Rb in Ra. now injection Ra.
Qed.

(** ** Frame bounds along the walk *)

Lemma walk_bounds (last_length : Q) (last_end : Z) (df : list EpochRow)
  (fps : Z) (class : string) (event_end : Z)
  (i : nat) (leftover : Q) (rows : list Label) :
  0 < fps ->
  overflow_walk (fill_video_end last_length last_end df) fps class i leftover rows ->
  forall current,
  nth_error (fill_video_end last_length last_end df) i = Some current ->
  leftover = inject_Z (event_end - vstart current) ->
  forall k r, nth_error rows k = Some r ->
  exists v,
    nth_error (fill_video_end last_length last_end df) (i + k) = Some v /\
    lbl_filename r = vname v /\
    (0 <= start_frame r)%Q /\
    ((inject_Z (event_end - vstart v) < Video.length v)%Q -> frames_within fps r v).
Proof.
  intros Hfps.
  assert (Hfq : (0 < inject_Z fps)%Q) by now apply inject_Z_pos.
  induction 1 as [i leftover Hnot | i leftover cur Hpos Hnth Hlt
                 | i leftover cur rows Hpos Hnth Hge Hwalk IH];
    intros current Hcur Hleft k r Hk.
  - destruct k; discriminate.
  - destruct k as [|[|k]]; try discriminate. injection Hk as <-.
    rewrite Hnth in Hcur. injection Hcur as <-.
    exists cur. rewrite Nat.add_0_r.
    unfold frames_within. cbn [lbl_filename start_frame end_frame].
    split; [exact Hnth|]. split; [reflexivity|]. split.
    + apply Q.min_glb; [discriminate|].
      apply Qlt_le_weak. now apply Qmult_lt_0_compat.
    + intros _. split; [apply Q.le_min_r|]. split.
      * rewrite <- inject_Z_mul.
        apply Qmult_le_compat_r; [|now apply Qlt_le_weak].
        subst leftover. rewrite <- Zle_Qle. now apply py_int_ge_of_lt.
      * apply Qmult_le_compat_r; now apply Qlt_le_weak.
  - rewrite Hnth in Hcur. injection Hcur as <-.
    destruct k as [|k].
    + injection Hk as <-.
      exists cur. rewrite Nat.add_0_r. cbn [lbl_filename start_frame end_frame].
      split; [exact Hnth|]. split; [reflexivity|]. split.
      * apply Q.min_glb; [discriminate|].
        apply Qlt_le_weak. now apply Qmult_lt_0_compat.
      * subst leftover. intros Hin. contradiction.
    + simpl in Hk.
      destruct (fill_video_end_nth _ _ _ _ _ Hnth)
        as [(next & Hnext & Hlen & Hend) | (Hnone & _)].
      * replace (i + S k)%nat with (S i + k)%nat by lia.
        apply (IH next Hnext); [|exact Hk].
        rewrite Hleft, Hlen, inject_Z_sub. f_equal. lia.
      * inversion Hwalk; subst; try congruence. destruct k; discriminate.
Qed.

Lemma built_names (local_time : LocalTime)
  (df : list EpochRow) (counts_df : list CountsRow) (fps : Z)
  (videos : list VideoRow) :
  _add_video_end_info local_time df counts_df fps = Ok videos ->
  map vname videos = map filename df.
Proof.
  intros H. apply add_video_end_info_base in H. rewrite <- H.
  now rewrite map_map.
Qed.

Lemma primary_frames_ok (fps s t e d : Z) (len : Q) :
  0 < fps -> s < t -> t - s <= e -> e <= d ->
  (inject_Z d <= len)%Q ->
  (0 <= inject_Z ((t - s) * fps))%Q /\
  (inject_Z ((t - s) * fps) <= inject_Z (e * fps))%Q /\
  (inject_Z (e * fps) <= inject_Z (d * fps))%Q /\
  (inject_Z (e * fps) <= len * inject_Z fps)%Q.
Proof.
  intros Hfps Hst Hte Hed Hlen. repeat split.
  - apply inject_Z_nonneg. nia.
  - rewrite <- Zle_Qle. nia.
  - rewrite <- Zle_Qle. nia.
  - rewrite <- inject_Z_mul. apply Qmult_le_compat_r.
    + eapply Qle_trans; [|exact Hlen]. rewrite <- Zle_Qle. lia.
    + apply inject_Z_nonneg. lia.
Qed.

(** C5 (amended).  On a timeline built from files with distinct names, with
    a positive frame rate and a non-negative frame count, whose recording
    ends [int(frames / fps)] seconds after its last file starts (the last
    counted file is the last file, and the local clock is not set forward
    or back while it is recorded): for an event that does not end before it
    starts and that starts before its owning segment ends, the owning
    segment's label has [0 <= start frame <= end frame <= duration * fps],
    every overflow label has a non-negative start frame, and the overflow
    label of the segment in which the event ends has
    [start frame <= end frame <= duration * fps].  The duration is the
    segment's in whole seconds, and so also its ["length"]. *)
Theorem C5_frame_bounds_of_owning_and_final_rows :
  forall (local_time : LocalTime)
         (df : list EpochRow) (counts_df : list CountsRow) (fps : Z)
         (videos : list VideoRow) (labels_list labels_list' : list Label)
         (row : EventRow),
  0 < fps ->
  (forall c, iloc_last counts_df = Ok c -> 0 <= frames c) ->
  (forall c r, iloc_last counts_df = Ok c -> iloc_last df = Ok r ->
               last_video_end local_time counts_df fps =
                 Ok (epoch_ts r + py_int (true_div (frames c) fps))) ->
  distinct (map filename df) = true ->
  _add_video_end_info local_time df counts_df fps = Ok videos ->
  ts (log row) <= end_ts row ->
  (forall i owner, owning_segment (ts (log row)) videos = Ok (i, owner) ->
                   ts (log row) < Video.end_epoch_ts owner) ->
  loop_body videos fps labels_list row = Ok labels_list' ->
  exists overflow_rows primary,
    labels_list' = labels_list ++ overflow_rows ++ [ primary ] /\
    (forall seg, In seg videos -> vname seg = lbl_filename primary ->
       (0 <= start_frame primary)%Q /\ frames_within fps primary seg) /\
    (forall r seg, In r overflow_rows -> In seg videos ->
       vname seg = lbl_filename r ->
       (0 <= start_frame r)%Q /\
       ((inject_Z (end_ts row - vstart seg) < Video.length seg)%Q ->
        frames_within fps r seg)).
Proof.
  intros local_time df counts_df fps videos acc acc' row
         Hfps Hframes Hlast Hdist Hv Horder Hbefore Hbody.
  destruct (loop_body_ok_owner _ _ _ _ _ Hbody) as (i & owner & Hown).
  specialize (Hbefore _ _ Hown).
  destruct (owning_segment_spec _ _ _ _ Hown) as (_ & _ & Hnth & Hstart & _).
  assert (Hnames : distinct (map vname videos) = true)
    by (rewrite (built_names _ _ _ _ _ Hv); exact Hdist).
  assert (Hin : In owner videos) by (eapply nth_error_In; eauto).
  pose proof (built_segment_end _ _ _ _ _ _ _ Hlast Hv Hnth) as Hend.
  pose proof (built_segment_length _ _ _ _ _ _ _ Hfps Hframes Hv Hnth) as Hlen.
  destruct (Z_lt_le_dec (Video.end_epoch_ts owner) (end_ts row)) as [Hover|Hinside].
  - (* the event ends after its owning segment *)
    apply (loop_body_overflow _ _ _ _ _ _ Hown Hover) in Hbody.
    destruct Hbody as (rows & Hwalk & ->).
    eexists rows, _. split; [reflexivity|]. split.
    + unfold frames_within. cbn [lbl_filename start_frame end_frame].
      intros seg Hseg Hname.
      assert (seg = owner) by (apply (distinct_names_inj videos); auto).
      subst seg. unfold duration_seconds.
      apply primary_frames_ok; auto; lia.
    + intros r seg Hr Hseg Hname.
      destruct (In_nth_error _ _ Hr) as [k Hk].
      destruct (add_video_end_info_inv _ _ _ _ _ Hv) as (c & t0 & _ & _ & _ & Hbuilt).
      subst videos.
      destruct (fill_video_end_nth _ _ _ _ _ Hnth)
        as [(next & Hnext & _ & Hnextstart) | (Hnone & _)].
      * destruct (walk_bounds _ _ _ _ _ (end_ts row) _ _ _ Hfps Hwalk next Hnext)
          with (k := k) (r := r) as (v & Hv' & Hvname & Hpos & Hfinal); auto.
        { now rewrite Hnextstart. }
        assert (seg = v).
        { apply (distinct_names_inj _ _ _ Hnames); auto.
          - eapply nth_error_In; eauto.
          - congruence. }
        subst seg. split; assumption.
      * inversion Hwalk; subst; try congruence; contradiction.
  - (* the event ends inside its owning segment *)
    rewrite (loop_body_owner _ _ _ _ _ _ Hown) in Hbody. cbv zeta in Hbody.
    pose proof Hinside as Hb. apply Z.ltb_ge in Hb. rewrite Hb in Hbody.
    injection Hbody as <-.
    eexists [], _. split; [reflexivity|]. split.
    + unfold frames_within. cbn [lbl_filename start_frame end_frame].
      intros seg Hseg Hname.
      assert (seg = owner) by (apply (distinct_names_inj videos); auto).
      subst seg. unfold duration_seconds.
      apply primary_frames_ok; auto; lia.
    + intros r seg [].
Qed.

(** ** The boundary scenario *)

Lemma boundary_videos_built :
  _add_video_end_info (utc_time boundary_files) boundary_files boundary_counts 2
  = Ok boundary_videos.
Proof. reflexivity. Qed.

Lemma boundary_events_built :
  _add_event_end_info (utc_time boundary_files) boundary_log boundary_counts 2
  = Ok boundary_events.
Proof. reflexivity. Qed.

(** C6 (amended).  Segments start at 0, 10 and 25, the frame rate is 2 and
    the last file has 30 frames.  The event spanning [5, 12) is resolved to
    the segment starting at 0; it gets one overflow label in the segment
    starting at 10, frames 4 to 4, and then the owning segment's label,
    frames 10 to 18: the end frame is [(10 - 1) * 2]. *)
Theorem C6_boundary_scenario :
  _find_latest_video 5 boundary_videos = Ok "v00.h264"%string /\
  owning_segment 5 boundary_videos
  = Ok (0%nat, Video.Build_row (Build_EpochRow "v00.h264"%string 0) (inject_Z 10) 10) /\
  loop_body boundary_videos 2 [] boundary_event
  = Ok [ Build_Label "v10.h264"%string "logPos"%string (inject_Z 4) (inject_Z 4);
         Build_Label "v00.h264"%string "logPos"%string (inject_Z 10) (inject_Z 18) ] /\
  exists others,
    collect_labels (utc_time boundary_files) boundary_log boundary_counts
      boundary_files 2
    = Ok (Build_Label "v10.h264"%string "logPos"%string (inject_Z 4) (inject_Z 4)
          :: Build_Label "v00.h264"%string "logPos"%string (inject_Z 10) (inject_Z 18)
          :: others).
Proof.
  repeat split; try reflexivity.
  eexists. reflexivity.
Qed.

(** C6, as stated, fails: the owning segment's label of the boundary
    scenario does not end at frame 20. *)
Lemma C6_counterexample_primary_end_frame_is_not_20 :
  ~ exists labels label,
      loop_body boundary_videos 2 [] boundary_event = Ok labels /\
      In label labels /\
      lbl_filename label = "v00.h264"%string /\
      (start_frame label == inject_Z 10)%Q /\
      (end_frame label == inject_Z 20)%Q.
Proof.
  intros (labels & label & Hbody & Hin & Hname & _ & Hend).
  vm_compute in Hbody. injection Hbody as <-.
  destruct Hin as [<-|[<-|[]]]; simpl in *.
  - discriminate.
  - unfold Qeq in Hend. simpl in Hend. discriminate.
Qed.

(** C5, as stated, fails: the event that starts exactly at the second
    segment's start is owned by the first segment, and its label there
    starts at frame 20 and ends at frame 18. *)
Lemma C5_counterexample_start_after_end :
  exists labels label seg,
    loop_body boundary_videos 2 [] edge_event = Ok labels /\
    In label labels /\
    In seg boundary_videos /\
    vname seg = lbl_filename label /\
    ~ ((0 <= start_frame label)%Q /\
       (start_frame label <= end_frame label)%Q /\
       (end_frame label <= Video.length seg * inject_Z 2)%Q).
Proof.
  eexists _, (Build_Label "v00.h264"%string "logPos"%string (inject_Z 20) (inject_Z 18)),
          (Video.Build_row (Build_EpochRow "v00.h264"%string 0) (inject_Z 10) 10).
  split; [reflexivity|].
  split; [right; left; reflexivity|].
  split; [left; reflexivity|].
  split; [reflexivity|].
  intros (_ & Hle & _). unfold Qle in Hle. simpl in Hle. lia.
Qed.

(** The frame bounds need the recording to end [int(frames / fps)] seconds
    after its last file starts.  With the clock set back during the last
    file, a file of 3600 seconds is given an end 7200 seconds after its
    start, and the event that lasts to that end gets end frame 14400 in a
    segment of 7200 frames. *)
Lemma clock_set_back_breaks_frame_bounds :
  exists seg row label,
    _add_video_end_info (set_back_time night_files) night_files night_counts 2
    = Ok [ seg ] /\
    _add_event_end_info (set_back_time night_files) night_log night_counts 2
    = Ok [ row ] /\
    duration_seconds seg = 3600 /\
    Video.end_epoch_ts seg = vstart seg + 7200 /\
    loop_body [ seg ] 2 [] row = Ok [ label ] /\
    lbl_filename label = vname seg /\
    end_frame label = inject_Z 14400 /\
    ~ frames_within 2 label seg.
Proof.
  do 3 eexists.
  split; [reflexivity|]. split; [reflexivity|]. split; [reflexivity|].
  split; [reflexivity|]. split; [reflexivity|]. split; [reflexivity|].
  split; [reflexivity|].
  intros (_ & Hle & _). vm_compute in Hle. apply Hle. reflexivity.
Qed.

(** C4 at a last file of 31 frames and 2 frames per second: the segments
    before the last have the next start minus their own as duration, but the
    last segment's stored duration is [31 / 2], not its floor, while its end
    is its start plus [int(31 / 2)]. *)
Theorem C4_last_duration_is_not_floored :
  exists first second last,
    _add_video_end_info (utc_time boundary_files) boundary_files odd_counts 2
    = Ok [ first; second; last ] /\
    Video.length first = inject_Z (vstart second - vstart first) /\
    Video.length second = inject_Z (vstart last - vstart second) /\
    Video.length last = true_div 31 2 /\
    ~ (Video.length last == inject_Z (Qfloor (true_div 31 2)))%Q /\
    Video.end_epoch_ts last = vstart last + 15 /\
    ~ (inject_Z (Video.end_epoch_ts last)
       == inject_Z (vstart last) + Video.length last)%Q.
Proof.
  do 3 eexists. split; [reflexivity|]. simpl.
  repeat split; intros H; vm_compute in H; discriminate.
Qed.

(** ** The theorems at the boundary scenario *)

Lemma insert_by_filename_perm (x : Label) (l : list Label) :
  Permutation (x :: l) (insert_by_filename x l).
Proof.
  induction l as [|y rest IH]; simpl; [reflexivity|].
  destruct (String.leb (lbl_filename x) (lbl_filename y)); [reflexivity|].
  rewrite perm_swap. now apply perm_skip.
Qed.

Lemma sort_by_filename_perm (l : list Label) : Permutation l (sort_by_filename l).
Proof.
  induction l as [|x rest IH]; simpl; [constructor|].
  rewrite <- insert_by_filename_perm. now apply perm_skip.
Qed.

Lemma C1_witness :
  _find_latest_video 10 boundary_videos = Ok "v00.h264"%string.
Proof.
  assert (Hex : exists v, In v boundary_videos /\ vstart v < 10).
  { exists (Video.Build_row (Build_EpochRow "v00.h264"%string 0) (inject_Z 10) 10).
    split; [left; reflexivity | by_evaluation]. }
  exact (proj2 (C1_owning_segment_has_greatest_earlier_start 10 boundary_videos Hex)
           []
           (Video.Build_row (Build_EpochRow "v00.h264"%string 0) (inject_Z 10) 10)
           (Video.Build_row (Build_EpochRow "v10.h264"%string 10) (inject_Z 15) 25)
           [ Video.Build_row (Build_EpochRow "v25.h264"%string 25) (true_div 30 2) 40 ]
           eq_refl eq_refl eq_refl).
Defined.

Lemma C3_witness :
  exists label,
    loop_body boundary_videos 2 []
      (Build_EventRow (Build_LogRow "logNo"%string 3) 3) = Ok ([] ++ [ label ]) /\
    lbl_filename label = "v00.h264"%string /\
    lbl_class label = "logNo"%string /\
    start_frame label = inject_Z (Qfloor (inject_Z (3 - 0) * inject_Z 2)) /\
    end_frame label = inject_Z (Qfloor (inject_Z (3 - 0) * inject_Z 2)) /\
    (3 = 3 -> start_frame label = end_frame label).
Proof.
  apply (C3_contained_event_emits_one_row boundary_videos 2 []
           (Build_EventRow (Build_LogRow "logNo"%string 3) 3) 0%nat
           (Video.Build_row (Build_EpochRow "v00.h264"%string 0) (inject_Z 10) 10)).
  - reflexivity.
  - by_evaluation.
Defined.

Lemma C5_witness :
  exists overflow_rows primary,
    [ Build_Label "v10.h264"%string "logPos"%string (inject_Z 4) (inject_Z 4);
      Build_Label "v00.h264"%string "logPos"%string (inject_Z 10) (inject_Z 18) ]
    = [] ++ overflow_rows ++ [ primary ] /\
    (forall seg, In seg boundary_videos -> vname seg = lbl_filename primary ->
       (0 <= start_frame primary)%Q /\ frames_within 2 primary seg) /\
    (forall r seg, In r overflow_rows -> In seg boundary_videos ->
       vname seg = lbl_filename r ->
       (0 <= start_frame r)%Q /\
       ((inject_Z (12 - vstart seg) < Video.length seg)%Q ->
        frames_within 2 r seg)).
Proof.
  apply (C5_frame_bounds_of_owning_and_final_rows (utc_time boundary_files)
           boundary_files boundary_counts 2 boundary_videos [] _ boundary_event).
  - by_evaluation.
  - intros c H. vm_compute in H. injection H as <-. by_evaluation.
  - intros c r Hc Hr. vm_compute in Hc, Hr.
    injection Hc as <-. injection Hr as <-. reflexivity.
  - reflexivity.
  - reflexivity.
  - by_evaluation.
  - intros i owner H. vm_compute in H. injection H as <- <-. by_evaluation.
  - reflexivity.
Defined.

Lemma C7_witness :
  (forall labels_list,
      loop_body boundary_videos 2 labels_list
        (Build_EventRow (Build_LogRow "logPos"%string 5) 50) = Err IndexError) /\
  (exists e,
      run_thru_events (utc_time boundary_files) sort_by_filename
        [ Build_LogRow "logPos"%string 5; Build_LogRow "logNeg"%string 50 ]
        boundary_counts boundary_files 2 = Err e) /\
  (forall before after labels_list,
      [ Build_EventRow (Build_LogRow "logPos"%string 5) 50;
        Build_EventRow (Build_LogRow "logNeg"%string 50) 40 ]
      = before ++ Build_EventRow (Build_LogRow "logPos"%string 5) 50 :: after ->
      iterrows boundary_videos 2 before [] = Ok labels_list ->
      run_thru_events (utc_time boundary_files) sort_by_filename
        [ Build_LogRow "logPos"%string 5; Build_LogRow "logNeg"%string 50 ]
        boundary_counts boundary_files 2 = Err IndexError).
Proof.
  apply (C7_leftover_beyond_timeline_fails_the_run (utc_time boundary_files)
           sort_by_filename
           [ Build_LogRow "logPos"%string 5; Build_LogRow "logNeg"%string 50 ]
           boundary_counts boundary_files 2 boundary_videos
           [ Build_EventRow (Build_LogRow "logPos"%string 5) 50;
             Build_EventRow (Build_LogRow "logNeg"%string 50) 40 ]
           (Build_EventRow (Build_LogRow "logPos"%string 5) 50) 0%nat
           (Video.Build_row (Build_EpochRow "v00.h264"%string 0) (inject_Z 10) 10)).
  - reflexivity.
  - by_evaluation.
  - intros c H. vm_compute in H. injection H as <-. by_evaluation.
  - reflexivity.
  - reflexivity.
  - left. reflexivity.
  - reflexivity.
  - by_evaluation.
Defined.

Lemma C8_witness :
  _find_latest_video 0 boundary_videos = Err ValueError /\
  (forall labels_list,
      loop_body boundary_videos 2 labels_list
        (Build_EventRow (Build_LogRow "logPos"%string 0) 12) = Err ValueError) /\
  (exists e,
      run_thru_events (utc_time boundary_files) sort_by_filename
        [ Build_LogRow "logPos"%string 0; Build_LogRow "logNeg"%string 12 ]
        boundary_counts boundary_files 2 = Err e) /\
  (forall before after labels_list,
      [ Build_EventRow (Build_LogRow "logPos"%string 0) 12;
        Build_EventRow (Build_LogRow "logNeg"%string 12) 40 ]
      = before ++ Build_EventRow (Build_LogRow "logPos"%string 0) 12 :: after ->
      iterrows boundary_videos 2 before [] = Ok labels_list ->
      run_thru_events (utc_time boundary_files) sort_by_filename
        [ Build_LogRow "logPos"%string 0; Build_LogRow "logNeg"%string 12 ]
        boundary_counts boundary_files 2 = Err ValueError).
Proof.
  apply (C8_event_before_every_segment_fails_the_run (utc_time boundary_files)
           sort_by_filename
           [ Build_LogRow "logPos"%string 0; Build_LogRow "logNeg"%string 12 ]
           boundary_counts boundary_files 2 boundary_videos
           [ Build_EventRow (Build_LogRow "logPos"%string 0) 12;
             Build_EventRow (Build_LogRow "logNeg"%string 12) 40 ]
           (Build_EventRow (Build_LogRow "logPos"%string 0) 12)).
  - reflexivity.
  - reflexivity.
  - left. reflexivity.
  - intros v [<-|[<-|[<-|[]]]]; by_evaluation.
Defined.

Lemma C9_witness :
  exists before overflow_rows primary after,
    [ Build_Label "v10.h264"%string "logPos"%string (inject_Z 4) (inject_Z 4);
      Build_Label "v00.h264"%string "logPos"%string (inject_Z 10) (inject_Z 18);
      Build_Label "v25.h264"%string "logNeg"%string (inject_Z 4) (true_div 30 2);
      Build_Label "v10.h264"%string "logNeg"%string (inject_Z 4) (inject_Z 28) ]
    = before ++ overflow_rows ++ primary :: after /\
    overflow_rows <> [] /\
    overflow_loop 2 "logPos"%string (skipn (0 + 1) boundary_videos)
      (inject_Z (12 - 10)) [] = Ok overflow_rows /\
    primary =
      Build_Label "v00.h264"%string "logPos"%string
        (inject_Z ((5 - 0) * 2)) (inject_Z ((py_int (inject_Z 10) - 1) * 2)) /\
    forall acc,
      loop_body boundary_videos 2 acc boundary_event
      = Ok (acc ++ overflow_rows ++ [ primary ]).
Proof.
  apply (C9_overflow_rows_precede_primary_row boundary_videos 2 boundary_events []
           _ boundary_event 0%nat
           (Video.Build_row (Build_EpochRow "v00.h264"%string 0) (inject_Z 10) 10)).
  - reflexivity.
  - left. reflexivity.
  - reflexivity.
  - by_evaluation.
Defined.

Lemma C10_witness :
  exists overflow_rows,
    [ Build_Label "v10.h264"%string "logPos"%string (inject_Z 4) (inject_Z 4) ]
    = [] ++ overflow_rows /\
    Forall (fun r => (start_frame r <= 4)%Q) overflow_rows.
Proof.
  apply (C10_overflow_start_frame_at_most_4 2 "logPos"%string
           (skipn 1 boundary_videos) (inject_Z 2) []).
  reflexivity.
Defined.


(** * Further properties of the code *)

(** ** The two end-time builders *)

Lemma iloc_last_fill_video_end (last_length : Q) (last_end : Z) (df : list EpochRow) :
  df <> [] ->
  exists v,
    iloc_last (fill_video_end last_length last_end df) = Ok v /\
    Video.length v = last_length /\
    Video.end_epoch_ts v = last_end /\
    iloc_last df = Ok (Video.base v).
Proof.
  induction df as [|r rest IH]; intros Hne; [congruence|].
  destruct rest as [|next rest].
  - eexists. repeat split.
  - change (fill_video_end last_length last_end (r :: next :: rest))
      with (Video.Build_row r (inject_Z (epoch_ts next - epoch_ts r)) (epoch_ts next)
              :: fill_video_end last_length last_end (next :: rest)).
    destruct (fill_video_end_head last_length last_end next rest) as (w & tl & Hw & _).
    rewrite Hw, !iloc_last_cons, <- Hw. apply IH. discriminate.
Qed.

Lemma iloc_last_fill_event_end (last_end : Z) (events_df : list LogRow) :
  events_df <> [] ->
  exists e,
    iloc_last (fill_event_end last_end events_df) = Ok e /\
    end_ts e = last_end /\
    iloc_last events_df = Ok (log e).
Proof.
  induction events_df as [|r rest IH]; intros Hne; [congruence|].
  destruct rest as [|next rest].
  - eexists. repeat split.
  - change (fill_event_end last_end (r :: next :: rest))
      with (Build_EventRow r (ts next) :: fill_event_end last_end (next :: rest)).
    assert (Hhd : exists w tl, fill_event_end last_end (next :: rest) = w :: tl)
      by (destruct rest; simpl; eauto).
    destruct Hhd as (w & tl & Hw).
    rewrite Hw, !iloc_last_cons, <- Hw. apply IH. discriminate.
Qed.

Lemma fill_event_end_nth (last_end : Z) (events_df : list LogRow) :
  forall j e next,
  nth_error (fill_event_end last_end events_df) j = Some e ->
  nth_error (fill_event_end last_end events_df) (S j) = Some next ->
  end_ts e = ts (log next).
Proof.
  induction events_df as [|r rest IH]; intros j e next Hj Hn.
  - destruct j; discriminate.
  - destruct rest as [|r' rest].
    + destruct j as [|[|j]]; discriminate.
    + change (fill_event_end last_end (r :: r' :: rest))
        with (Build_EventRow r (ts r') :: fill_event_end last_end (r' :: rest)) in *.
      destruct j as [|j].
      * injection Hj as <-. simpl in Hn.
        destruct rest; simpl in Hn; injection Hn as <-; reflexivity.
      * exact (IH j e next Hj Hn).
Qed.

Lemma nondecreasing_nth (l : list Z) : forall j x y,
  nondecreasing l = true ->
  nth_error l j = Some x -> nth_error l (S j) = Some y -> x <= y.
Proof.
  induction l as [|a l IH]; intros j x y Hs Hx Hy.
  - destruct j; discriminate.
  - destruct l as [|b l]; [destruct j as [|[|j]]; discriminate|].
    simpl in Hs. apply andb_true_iff in Hs. destruct Hs as [Hab Hs].
    destruct j as [|j].
    + injection Hx as <-. injection Hy as <-. now apply Z.leb_le.
    + exact (IH j x y Hs Hx Hy).
Qed.

Section EndTimes.

Variable local_time : LocalTime.

(** X1.  [_add_video_end_info] keeps the rows it is given (files, start
    times, order), and every segment that has a successor ends exactly
    where the successor starts, its length being the seconds from its own
    start to that end: the built timeline has neither gaps nor overlaps. *)
Theorem video_end_info_is_contiguous :
  forall (df : list EpochRow) (counts_df : list CountsRow) (fps : Z)
         (videos : list VideoRow),
  _add_video_end_info local_time df counts_df fps = Ok videos ->
  map Video.base videos = df /\
  forall j v next,
    nth_error videos j = Some v ->
    nth_error videos (S j) = Some next ->
    Video.end_epoch_ts v = vstart next /\
    Video.length v = inject_Z (Video.end_epoch_ts v - vstart v).
Proof.
  intros df counts_df fps videos H.
  split; [eapply add_video_end_info_base; eauto|].
  destruct (add_video_end_info_inv _ _ _ _ _ H) as (c & t0 & _ & _ & _ & ->).
  intros j v next Hj Hn.
  destruct (fill_video_end_nth _ _ _ _ _ Hj)
    as [(w & Hw & Hlen & Hend) | (Hnone & _)]; [|congruence].
  rewrite Hw in Hn. injection Hn as <-. rewrite Hend. auto.
Qed.

Lemma add_video_end_info_unfold (df : list EpochRow) (counts_df : list CountsRow)
  (fps : Z) :
  df <> [] ->
  _add_video_end_info local_time df counts_df fps =
    match iloc_last counts_df, last_video_end local_time counts_df fps with
    | Ok c, Ok last_end => Ok (fill_video_end (true_div (frames c) fps) last_end df)
    | Ok _, Err e => Err e
    | Err e, _ => Err e
    end.
Proof.
  intros Hne. unfold _add_video_end_info.
  destruct df; [congruence|].
  destruct (iloc_last counts_df); [|reflexivity]. cbn [bind].
  destruct (last_video_end local_time counts_df fps); reflexivity.
Qed.

Lemma add_event_end_info_unfold (events_df : list LogRow) (counts_df : list CountsRow)
  (fps : Z) :
  events_df <> [] ->
  _add_event_end_info local_time events_df counts_df fps =
    match last_video_end local_time counts_df fps with
    | Ok last_end => Ok (fill_event_end last_end events_df)
    | Err e => Err e
    end.
Proof.
  intros Hne. unfold _add_event_end_info.
  destruct events_df; [congruence|].
  destruct (last_video_end local_time counts_df fps); reflexivity.
Qed.

(** X2.  On non-empty frames the two builders raise the same exception or
    both succeed, and when they succeed the last event ends at the very
    second at which the last segment ends. *)
Theorem builders_agree_on_recording_end :
  forall (events_df : list LogRow) (counts_df : list CountsRow)
         (df : list EpochRow) (fps : Z),
  df <> [] -> events_df <> [] ->
  (forall e,
      _add_video_end_info local_time df counts_df fps = Err e <->
      _add_event_end_info local_time events_df counts_df fps = Err e) /\
  (forall videos events,
      _add_video_end_info local_time df counts_df fps = Ok videos ->
      _add_event_end_info local_time events_df counts_df fps = Ok events ->
      exists v ev,
        iloc_last videos = Ok v /\ iloc_last events = Ok ev /\
        end_ts ev = Video.end_epoch_ts v).
Proof.
  intros events_df counts_df df fps Hdf Hev.
  rewrite (add_video_end_info_unfold _ _ _ Hdf), (add_event_end_info_unfold _ _ _ Hev).
  destruct (iloc_last counts_df) as [c|x] eqn:Hc.
  - destruct (last_video_end local_time counts_df fps) as [last_end|x].
    + split; [intros e; split; discriminate|].
      intros videos events Hv He. injection Hv as <-. injection He as <-.
      destruct (iloc_last_fill_video_end (true_div (frames c) fps) last_end df Hdf)
        as (v & Hv & _ & Hend & _).
      destruct (iloc_last_fill_event_end last_end events_df Hev)
        as (ev & Hevl & Hend' & _).
      exists v, ev. repeat split; auto. congruence.
    + split; [intros e; split; congruence | intros ? ? H; discriminate H].
  - unfold last_video_end. rewrite Hc. cbn [bind].
    split; [intros e; split; congruence | intros ? ? H; discriminate H].
Qed.

(** X3.  [_add_event_end_info] keeps the events it is given, and every
    event that has a successor ends when the successor starts; so, in a log
    sorted by time, no event but the last ends before it starts. *)
Theorem event_end_info_chains_events :
  forall (events_df : list LogRow) (counts_df : list CountsRow) (fps : Z)
         (events : list EventRow),
  _add_event_end_info local_time events_df counts_df fps = Ok events ->
  map log events = events_df /\
  (forall j e next,
      nth_error events j = Some e ->
      nth_error events (S j) = Some next ->
      end_ts e = ts (log next)) /\
  (nondecreasing (map ts events_df) = true ->
   forall j e next,
      nth_error events j = Some e ->
      nth_error events (S j) = Some next ->
      ts (log e) <= end_ts e).
Proof.
  intros events_df counts_df fps events H.
  pose proof (add_event_end_info_log _ _ _ _ _ H) as Hlog.
  assert (Hchain : forall j e next,
             nth_error events j = Some e ->
             nth_error events (S j) = Some next -> end_ts e = ts (log next)).
  { unfold _add_event_end_info in H.
    destruct events_df as [|r rest]; [discriminate|].
    destruct (last_video_end local_time counts_df fps); simpl in H;
      [|discriminate].
    injection H as <-. intros j e next.
    apply (fill_event_end_nth _ (r :: rest)). }
  split; [exact Hlog|]. split; [exact Hchain|].
  intros Hsorted j e next Hj Hn.
  rewrite (Hchain _ _ _ Hj Hn).
  apply (nondecreasing_nth (map ts events_df) j); auto.
  - rewrite <- Hlog, map_map, nth_error_map, Hj. reflexivity.
  - rewrite <- Hlog, map_map, nth_error_map, Hn. reflexivity.
Qed.

End EndTimes.

(** ** Owner resolution and the order of rows *)

Lemma NoDup_map_injective {A B : Type} (f : A -> B) (l : list A) (a b : A) :
  NoDup (map f l) -> In a l -> In b l -> f a = f b -> a = b.
Proof.
  induction l as [|x l IH]; simpl; intros Hnd Ha Hb Hf; [contradiction|].
  inversion Hnd as [|y ys Hnotin Hnd']; subst.
  destruct Ha as [->|Ha], Hb as [->|Hb]; auto.
  - exfalso. apply Hnotin. rewrite Hf. now apply in_map.
  - exfalso. apply Hnotin. rewrite <- Hf. now apply in_map.
Qed.

(** X4.  When no two segments start at the same second, the file
    [_find_latest_video] returns (or the exception it raises) depends only on
    which rows the frame holds, not on their order. *)
Theorem find_latest_video_ignores_row_order :
  forall (t : Z) (videos videos' : list VideoRow),
  NoDup (map vstart videos) ->
  (forall v, In v videos <-> In v videos') ->
  _find_latest_video t videos = _find_latest_video t videos'.
Proof.
  intros t videos videos' Hnd Hsame.
  destruct (existsb (fun v => vstart v <? t) videos) eqn:Hex.
  - apply existsb_exists in Hex. destruct Hex as (w & Hw & Hlt).
    apply Z.ltb_lt in Hlt.
    assert (H1 : exists v, In v videos /\ vstart v < t) by eauto.
    assert (H2 : exists v, In v videos' /\ vstart v < t).
    { exists w. split; [now apply Hsame | exact Hlt]. }
    destruct (find_latest_video_ok _ _ H1) as [n1 Hf1].
    destruct (find_latest_video_ok _ _ H2) as [n2 Hf2].
    rewrite Hf1, Hf2. f_equal.
    destruct (find_latest_video_spec _ _ _ Hf1) as (o1 & Hin1 & Hn1 & Hlt1 & Hmax1).
    destruct (find_latest_video_spec _ _ _ Hf2) as (o2 & Hin2 & Hn2 & Hlt2 & Hmax2).
    apply Hsame in Hin2.
    assert (Heq : o1 = o2).
    { apply (NoDup_map_injective vstart videos); auto.
      assert (vstart o2 <= vstart o1) by (apply Hmax1; auto).
      assert (vstart o1 <= vstart o2) by (apply Hmax2; auto; now apply Hsame).
      lia. }
    congruence.
  - assert (Hnone : forall v, In v videos -> t <= vstart v).
    { intros v Hv. apply Z.ltb_ge.
      destruct (vstart v <? t) eqn:E; [|reflexivity].
      assert (existsb (fun v => vstart v <? t) videos = true)
        by (apply existsb_exists; eauto).
      congruence. }
    rewrite !find_latest_video_none; auto.
    intros v Hv. apply Hnone. now apply Hsame.
Qed.

(** ** Labels event by event *)

Lemma overflow_loop_acc (fps : Z) (class : string) (rest : list VideoRow) :
  forall leftover acc,
  overflow_loop fps class rest leftover acc =
    (rows <- overflow_loop fps class rest leftover [] ;; Ok (acc ++ rows)).
Proof.
  induction rest as [|v rest IH]; intros leftover acc;
    destruct (Qltb 0 leftover) eqn:Hpos.
  - simpl. now rewrite Hpos.
  - rewrite !overflow_loop_done by assumption. simpl. now rewrite app_nil_r.
  - rewrite !overflow_loop_step by assumption.
    destruct (Qltb leftover (Video.length v)); [reflexivity|].
    rewrite IH. rewrite (IH _ ([] ++ _)).
    destruct (overflow_loop fps class rest _ []); simpl; [|reflexivity].
    now rewrite <- app_assoc.
  - rewrite !overflow_loop_done by assumption. simpl. now rewrite app_nil_r.
Qed.

Lemma loop_body_acc (videos : list VideoRow) (fps : Z) (row : EventRow)
  (acc : list Label) :
  loop_body videos fps acc row =
    (rows <- loop_body videos fps [] row ;; Ok (acc ++ rows)).
Proof.
  unfold loop_body.
  destruct (_find_latest_video _ _) as [name|]; simpl; [|reflexivity].
  destruct (rows_named name videos) as [|[i info] [|]]; try reflexivity.
  destruct (Video.end_epoch_ts info <? end_ts row); [|reflexivity].
  rewrite overflow_loop_acc.
  destruct (overflow_loop _ _ _ _ []); simpl; [|reflexivity].
  now rewrite <- app_assoc.
Qed.

Lemma iterrows_per_event :
  forall (videos : list VideoRow) (fps : Z) (events : list EventRow)
         (labels_list0 labels_list : list Label),
  iterrows videos fps events labels_list0 = Ok labels_list <->
  exists per_event,
    Forall2 (fun row rows => loop_body videos fps [] row = Ok rows)
      events per_event /\
    labels_list = labels_list0 ++ List.concat per_event.
Proof.
  intros videos fps events. induction events as [|row rest IH]; intros acc labels.
  - simpl. split.
    + intros H. injection H as <-. exists []. split; [constructor|].
      simpl. now rewrite app_nil_r.
    + intros (pe & Hall & ->). inversion Hall; subst. simpl. now rewrite app_nil_r.
  - simpl. rewrite loop_body_acc. split.
    + destruct (loop_body videos fps [] row) as [rows|] eqn:Hrow; simpl; [|discriminate].
      intros H. apply IH in H. destruct H as (pe & Hall & ->).
      exists (rows :: pe). split; [now constructor|]. simpl. now rewrite app_assoc.
    + intros (pe & Hall & ->). inversion Hall as [|? rows ? pe' Hrow Hrest]; subst.
      rewrite Hrow. simpl. apply IH. exists pe'. split; [exact Hrest|].
      simpl. now rewrite app_assoc.
Qed.

(** X5.  The labels a run collects are the labels of its events, each
    computed on its own from an empty list, laid end to end in the order of
    the events: what is already collected never changes what an event
    adds. *)
Theorem collected_labels_are_per_event_labels :
  forall (videos : list VideoRow) (fps : Z) (events : list EventRow)
         (labels_list0 labels_list : list Label),
  iterrows videos fps events labels_list0 = Ok labels_list <->
  exists per_event,
    Forall2 (fun row rows => loop_body videos fps [] row = Ok rows)
      events per_event /\
    labels_list = labels_list0 ++ List.concat per_event.
Proof.
  exact iterrows_per_event.
Qed.

Lemma iterrows_succeeds_iff (videos : list VideoRow) (fps : Z)
  (events : list EventRow) (acc : list Label) :
  (exists labels, iterrows videos fps events acc = Ok labels) <->
  (forall row, In row events -> exists rows, loop_body videos fps [] row = Ok rows).
Proof.
  split.
  - intros (labels & H). apply iterrows_per_event in H. destruct H as (pe & Hall & _).
    induction Hall as [|row rows events' pe' Hrow Hrest IH]; intros r Hr;
      [contradiction|].
    destruct Hr as [<-|Hr]; eauto.
  - intros H.
    assert (Hpe : exists pe,
               Forall2 (fun row rows => loop_body videos fps [] row = Ok rows)
                 events pe).
    { induction events as [|row rest IH]; [exists []; constructor|].
      destruct (H row (or_introl eq_refl)) as [rows Hrows].
      destruct IH as [pe Hpe]; [intros r Hr; apply H; now right|].
      exists (rows :: pe). now constructor. }
    destruct Hpe as [pe Hpe]. eexists. apply iterrows_per_event. eauto.
Qed.

(** X6.  The labels an event adds are its overflow labels followed by one
    label in its owning segment; all carry the event's type; the overflow
    labels name, one each and in order, the segments that follow the owning
    segment in the frame, so an event owned by the segment at position [i]
    adds at most as many labels as there are segments from [i] on. *)
Theorem event_labels_name_consecutive_segments :
  forall (videos : list VideoRow) (fps : Z) (labels_list labels_list' : list Label)
         (row : EventRow),
  loop_body videos fps labels_list row = Ok labels_list' ->
  exists i owner overflow_rows primary,
    owning_segment (ts (log row)) videos = Ok (i, owner) /\
    labels_list' = labels_list ++ overflow_rows ++ [ primary ] /\
    lbl_filename primary = vname owner /\
    lbl_class primary = event_type (log row) /\
    (forall k r, nth_error overflow_rows k = Some r ->
       lbl_class r = event_type (log row) /\
       exists v, nth_error videos (i + 1 + k) = Some v /\ lbl_filename r = vname v) /\
    (List.length overflow_rows + i < List.length videos)%nat.
Proof.
  intros videos fps acc acc' row Hbody.
  destruct (loop_body_ok_owner _ _ _ _ _ Hbody) as (i & owner & Hown).
  destruct (owning_segment_spec _ _ _ _ Hown) as (_ & _ & Hnth & _).
  assert (Hi : (i < List.length videos)%nat) by (apply nth_error_Some; congruence).
  exists i, owner.
  destruct (Z_lt_le_dec (Video.end_epoch_ts owner) (end_ts row)) as [Hover|Hinside].
  - apply (loop_body_overflow _ _ _ _ _ _ Hown Hover) in Hbody.
    destruct Hbody as (rows & Hwalk & ->).
    eexists rows, _. split; [exact Hown|]. split; [reflexivity|].
    split; [reflexivity|]. split; [reflexivity|].
    assert (Hseg : forall k r, nth_error rows k = Some r ->
               lbl_class r = event_type (log row) /\
               exists v, nth_error videos (i + 1 + k) = Some v /\
                         lbl_filename r = vname v).
    { intros k r Hk.
      destruct (walk_segments _ _ _ _ _ _ Hwalk k r Hk) as (v & Hv & Hname & Hclass).
      split; [exact Hclass|]. exists v.
      replace (i + 1 + k)%nat with (S i + k)%nat by lia. auto. }
    split; [exact Hseg|].
    destruct rows as [|r0 rows'] eqn:Hrows; [simpl; lia|].
    rewrite <- Hrows in *.
    assert (Hlast : exists r, nth_error rows (List.length rows - 1) = Some r).
    { destruct (nth_error rows (List.length rows - 1)) eqn:E; [eauto|].
      apply nth_error_None in E. rewrite Hrows in E. simpl in E. lia. }
    destruct Hlast as [r Hr]. destruct (Hseg _ _ Hr) as (_ & v & Hv & _).
    assert ((i + 1 + (List.length rows - 1) < List.length videos)%nat)
      by (apply nth_error_Some; congruence).
    rewrite Hrows in *. simpl in *. lia.
  - rewrite (loop_body_owner _ _ _ _ _ _ Hown) in Hbody. cbv zeta in Hbody.
    pose proof Hinside as Hb. apply Z.ltb_ge in Hb. rewrite Hb in Hbody.
    injection Hbody as <-.
    eexists [], _. split; [exact Hown|]. split; [reflexivity|].
    split; [reflexivity|]. split; [reflexivity|].
    split; [|simpl; lia].
    intros k r Hk. destruct k; discriminate.
Qed.

Lemma walk_start_positive (videos : list VideoRow) (fps : Z) (class : string)
  (i : nat) (leftover : Q) (rows : list Label) :
  0 < fps ->
  overflow_walk videos fps class i leftover rows ->
  Forall (fun r => (0 < start_frame r)%Q) rows.
Proof.
  intros Hfps. induction 1; constructor; simpl; auto.
  - apply Q.min_glb_lt; [reflexivity|].
    apply Qmult_lt_0_compat; [assumption | now apply inject_Z_pos].
  - apply Q.min_glb_lt; [reflexivity|].
    apply Qmult_lt_0_compat; [assumption | now apply inject_Z_pos].
Qed.

(** X7.  With a positive frame rate no label starts at frame 0: the owning
    segment's label starts at least one second into the segment (an event
    at the segment's very start belongs to the segment before), and an
    overflow label starts at frame 4 or at the frames left over. *)
Theorem no_label_starts_at_frame_zero :
  forall (videos : list VideoRow) (fps : Z) (labels_list labels_list' : list Label)
         (row : EventRow),
  0 < fps ->
  loop_body videos fps labels_list row = Ok labels_list' ->
  exists overflow_rows primary,
    labels_list' = labels_list ++ overflow_rows ++ [ primary ] /\
    (inject_Z fps <= start_frame primary)%Q /\
    Forall (fun r => (0 < start_frame r)%Q) overflow_rows.
Proof.
  intros videos fps acc acc' row Hfps Hbody.
  destruct (loop_body_ok_owner _ _ _ _ _ Hbody) as (i & owner & Hown).
  destruct (owning_segment_spec _ _ _ _ Hown) as (_ & _ & _ & Hstart & _).
  assert (Hprimary : (inject_Z fps
                      <= inject_Z ((ts (log row) - vstart owner) * fps))%Q)
    by (rewrite <- Zle_Qle; nia).
  destruct (Z_lt_le_dec (Video.end_epoch_ts owner) (end_ts row)) as [Hover|Hinside].
  - apply (loop_body_overflow _ _ _ _ _ _ Hown Hover) in Hbody.
    destruct Hbody as (rows & Hwalk & ->).
    eexists rows, _. split; [reflexivity|]. split; [exact Hprimary|].
    eapply walk_start_positive; eauto.
  - rewrite (loop_body_owner _ _ _ _ _ _ Hown) in Hbody. cbv zeta in Hbody.
    pose proof Hinside as Hb. apply Z.ltb_ge in Hb. rewrite Hb in Hbody.
    injection Hbody as <-.
    eexists [], _. split; [reflexivity|]. split; [exact Hprimary|]. constructor.
Qed.

(** ** Runs on consistent inputs *)

Lemma iloc_last_skipn {A : Type} (l : list A) : forall k,
  (k < List.length l)%nat -> iloc_last (skipn k l) = iloc_last l.
Proof.
  induction l as [|a l IH]; intros k Hk; [simpl in Hk; lia|].
  destruct k as [|k]; [reflexivity|].
  destruct l as [|b l]; [simpl in Hk; lia|].
  rewrite iloc_last_cons. simpl skipn. apply IH. simpl in *. lia.
Qed.

Lemma iloc_last_inv {A : Type} (l : list A) (x : A) :
  iloc_last l = Ok x -> exists pre, l = pre ++ [ x ].
Proof.
  unfold iloc_last. destruct (rev l) as [|y rest] eqn:E; [discriminate|].
  intros H. injection H as ->.
  exists (rev rest). rewrite <- (rev_involutive l), E. reflexivity.
Qed.

Lemma py_int_nonneg (x : Q) : (0 <= x)%Q -> 0 <= py_int x.
Proof.
  destruct x as [n d]. unfold py_int, Qle. simpl. intros H.
  apply Z.quot_pos; lia.
Qed.

Lemma total_duration_nonneg (videos : list VideoRow) :
  Forall (fun v => (0 <= Video.length v)%Q) videos -> 0 <= total_duration videos.
Proof.
  induction 1 as [|v l Hv Hl IH]; simpl; [lia|].
  unfold duration_seconds. pose proof (py_int_nonneg _ Hv). lia.
Qed.

Lemma total_duration_cons (v : VideoRow) (l : list VideoRow) :
  total_duration (v :: l) = duration_seconds v + total_duration l.
Proof. reflexivity. Qed.

(** The whole seconds of a built timeline add up to the distance from its
    first start to the end of its last segment. *)
Lemma fill_video_end_duration (last_length : Q) (last_end : Z) (df : list EpochRow) :
  forall first rest l,
  df = first :: rest -> iloc_last df = Ok l ->
  total_duration (fill_video_end last_length last_end df)
  = epoch_ts l + py_int last_length - epoch_ts first.
Proof.
  induction df as [|r tl IH]; intros first rest l Hdf Hl; [discriminate|].
  injection Hdf as <- <-.
  destruct tl as [|next tl].
  - injection Hl as <-. simpl. unfold duration_seconds. simpl. lia.
  - change (fill_video_end last_length last_end (r :: next :: tl))
      with (Video.Build_row r (inject_Z (epoch_ts next - epoch_ts r)) (epoch_ts next)
              :: fill_video_end last_length last_end (next :: tl)).
    rewrite iloc_last_cons in Hl.
    rewrite total_duration_cons, (IH next tl l eq_refl Hl).
    unfold duration_seconds. simpl Video.length.
    rewrite py_int_inject_Z. lia.
Qed.

(** The overflow loop on a built timeline comes to an end without an
    exception when the event ends no later than the last segment's
    ["length"] allows. *)
Lemma overflow_loop_succeeds (last_length : Q) (last_end : Z) (fps : Z)
  (class : string) (event_end : Z) (df : list EpochRow) :
  forall first rest acc,
  df = first :: rest ->
  (forall l, iloc_last df = Ok l ->
             (inject_Z (event_end - epoch_ts l) <= last_length)%Q) ->
  exists acc',
    overflow_loop fps class (fill_video_end last_length last_end df)
      (inject_Z (event_end - epoch_ts first)) acc = Ok acc'.
Proof.
  induction df as [|r tl IH]; intros first rest acc Hdf Hlast; [discriminate|].
  injection Hdf as <- <-.
  destruct (Qltb 0 (inject_Z (event_end - epoch_ts r))) eqn:Hpos;
    [|rewrite overflow_loop_done by assumption; eauto].
  destruct tl as [|next tl].
  - simpl fill_video_end. rewrite overflow_loop_step by assumption. simpl Video.length.
    destruct (Qltb _ last_length); [eauto|].
    rewrite overflow_loop_done; [eauto|].
    apply Qltb_false.
    specialize (Hlast r eq_refl).
    apply Qle_minus_iff in Hlast. apply Qle_minus_iff.
    eapply Qle_trans; [exact Hlast|]. apply Qle_lteq. right. ring.
  - change (fill_video_end last_length last_end (r :: next :: tl))
      with (Video.Build_row r (inject_Z (epoch_ts next - epoch_ts r)) (epoch_ts next)
              :: fill_video_end last_length last_end (next :: tl)).
    rewrite overflow_loop_step by assumption. simpl Video.length.
    destruct (Qltb _ (inject_Z (epoch_ts next - epoch_ts r))); [eauto|].
    rewrite inject_Z_sub.
    replace (event_end - epoch_ts r - (epoch_ts next - epoch_ts r))
      with (event_end - epoch_ts next) by lia.
    apply (IH next tl); [reflexivity|].
    intros l Hl. apply Hlast. now rewrite iloc_last_cons.
Qed.

Lemma filter_none {A : Type} (f : A -> bool) (l : list A) :
  (forall x, In x l -> f x = false) -> filter f l = [].
Proof.
  induction l as [|a l IH]; intros H; [reflexivity|]. simpl.
  rewrite (H a (or_introl eq_refl)). apply IH. intros x Hx. apply H. now right.
Qed.

Lemma increasing_head_least (x : Z) (l : list Z) :
  increasing (x :: l) = true -> forall y, In y l -> x < y.
Proof.
  intros H. apply increasing_sorted, StronglySorted_inv in H.
  destruct H as [_ H]. now rewrite Forall_forall in H.
Qed.

Lemma increasing_tail (x : Z) (l : list Z) :
  increasing (x :: l) = true -> increasing l = true.
Proof.
  destruct l as [|y l]; [reflexivity|]. simpl.
  intros H. apply andb_true_iff in H. tauto.
Qed.

(** No segment of a sorted timeline starts before an instant that its
    first segment does not start before. *)
Lemma filter_later_nil (last_length : Q) (last_end : Z) (event_end : Z)
  (df : list EpochRow) (first : EpochRow) (rest : list EpochRow) :
  df = first :: rest ->
  increasing (map epoch_ts df) = true ->
  event_end <= epoch_ts first ->
  filter (fun v => vstart v <? event_end) (fill_video_end last_length last_end df) = [].
Proof.
  intros -> Hinc Hle. apply filter_none. intros v Hv.
  apply Z.ltb_ge.
  assert (Hb : In (Video.base v) (first :: rest)).
  { rewrite <- (fill_video_end_base last_length last_end (first :: rest)).
    now apply in_map. }
  destruct Hb as [Hb|Hb].
  - unfold vstart. rewrite <- Hb. exact Hle.
  - simpl in Hinc.
    assert (epoch_ts first < vstart v); [|lia].
    apply (increasing_head_least _ _ Hinc). unfold vstart. now apply in_map.
Qed.

Lemma overflow_loop_names (last_length : Q) (last_end : Z) (fps : Z)
  (class : string) (event_end : Z) (df : list EpochRow) :
  forall first rest acc acc',
  df = first :: rest ->
  increasing (map epoch_ts df) = true ->
  overflow_loop fps class (fill_video_end last_length last_end df)
    (inject_Z (event_end - epoch_ts first)) acc = Ok acc' ->
  exists rows,
    acc' = acc ++ rows /\
    map lbl_filename rows
    = map vname (filter (fun v => vstart v <? event_end)
                   (fill_video_end last_length last_end df)).
Proof.
  induction df as [|r tl IH]; intros first rest acc acc' Hdf Hinc Hloop; [discriminate|].
  injection Hdf as <- <-.
  destruct (Qltb 0 (inject_Z (event_end - epoch_ts r))) eqn:Hpos.
  - assert (Hlt : epoch_ts r < event_end).
    { apply Qltb_true in Hpos. change 0%Q with (inject_Z 0) in Hpos.
      rewrite <- Zlt_Qlt in Hpos. lia. }
    assert (Hkeep : forall len e l,
               filter (fun v => vstart v <? event_end) (Video.Build_row r len e :: l)
               = Video.Build_row r len e
                   :: filter (fun v => vstart v <? event_end) l).
    { intros len e l. cbn [filter]. unfold vstart at 1. cbn [Video.base].
      apply Z.ltb_lt in Hlt. now rewrite Hlt. }
    destruct tl as [|next tl].
    + simpl fill_video_end in *. rewrite overflow_loop_step in Hloop by assumption.
      rewrite Hkeep. simpl Video.length in Hloop.
      destruct (Qltb _ last_length).
      * injection Hloop as <-. eexists. split; reflexivity.
      * destruct (Qltb 0 (inject_Z (event_end - epoch_ts r) - last_length)) eqn:Hmore.
        -- simpl in Hloop. rewrite Hmore in Hloop. discriminate.
        -- rewrite overflow_loop_done in Hloop by assumption.
           injection Hloop as <-. eexists. split; reflexivity.
    + change (fill_video_end last_length last_end (r :: next :: tl))
        with (Video.Build_row r (inject_Z (epoch_ts next - epoch_ts r)) (epoch_ts next)
                :: fill_video_end last_length last_end (next :: tl)) in *.
      rewrite overflow_loop_step in Hloop by assumption.
      rewrite Hkeep. simpl Video.length in Hloop.
      destruct (Qltb _ (inject_Z (epoch_ts next - epoch_ts r))) eqn:Hstop.
      * injection Hloop as <-.
        rewrite (filter_later_nil last_length last_end event_end (next :: tl) next tl);
          [eexists; split; reflexivity | reflexivity | |].
        -- now apply increasing_tail in Hinc.
        -- apply Qltb_true in Hstop. rewrite <- Zlt_Qlt in Hstop. lia.
      * rewrite inject_Z_sub in Hloop.
        replace (event_end - epoch_ts r - (epoch_ts next - epoch_ts r))
          with (event_end - epoch_ts next) in Hloop by lia.
        apply (IH next tl) in Hloop; [|reflexivity | now apply increasing_tail in Hinc].
        destruct Hloop as (rows & -> & Hnames).
        eexists (_ :: rows). split; [now rewrite <- app_assoc|].
        simpl. now rewrite Hnames.
  - rewrite overflow_loop_done in Hloop by assumption. injection Hloop as <-.
    exists []. split; [now rewrite app_nil_r|].
    rewrite (filter_later_nil last_length last_end event_end (r :: tl) r tl);
      auto.
    apply Qltb_false in Hpos. change 0%Q with (inject_Z 0) in Hpos.
    rewrite <- Zle_Qle in Hpos. lia.
Qed.

Lemma whole_inject_Z (z : Z) : whole (inject_Z z).
Proof. exists z. reflexivity. Qed.

Lemma whole_py_min (a b : Q) : whole a -> whole b -> whole (py_min a b).
Proof. intros Ha Hb. unfold py_min. now destruct (Qltb b a). Qed.

Lemma overflow_loop_whole (last_length : Q) (last_end : Z) (fps : Z)
  (class : string) (event_end : Z) (df : list EpochRow) :
  forall first rest acc acc',
  df = first :: rest ->
  overflow_loop fps class (fill_video_end last_length last_end df)
    (inject_Z (event_end - epoch_ts first)) acc = Ok acc' ->
  exists rows,
    acc' = acc ++ rows /\
    Forall (fun r => whole (start_frame r) /\ whole (end_frame r)) rows.
Proof.
  induction df as [|r tl IH]; intros first rest acc acc' Hdf Hloop; [discriminate|].
  injection Hdf as <- <-.
  destruct (Qltb 0 (inject_Z (event_end - epoch_ts r))) eqn:Hpos.
  - assert (Hstart : whole (py_min 4 (inject_Z (event_end - epoch_ts r) * inject_Z fps))).
    { apply whole_py_min; [exact (whole_inject_Z 4)|].
      rewrite inject_Z_mul. apply whole_inject_Z. }
    assert (Hend : whole (inject_Z (event_end - epoch_ts r) * inject_Z fps)).
    { rewrite inject_Z_mul. apply whole_inject_Z. }
    destruct tl as [|next tl].
    + simpl fill_video_end in *. rewrite overflow_loop_step in Hloop by assumption.
      simpl Video.length in Hloop.
      destruct (Qltb _ last_length) eqn:Hstop.
      * injection Hloop as <-. eexists. split; [reflexivity|].
        constructor; [|constructor]. split; assumption.
      * destruct (Qltb 0 (inject_Z (event_end - epoch_ts r) - last_length)) eqn:Hmore.
        -- simpl in Hloop. rewrite Hmore in Hloop. discriminate.
        -- rewrite overflow_loop_done in Hloop by assumption.
           injection Hloop as <-. eexists. split; [reflexivity|].
           constructor; [|constructor]. split; [exact Hstart|].
           exists (event_end - epoch_ts r). simpl end_frame.
           apply Qltb_false in Hstop, Hmore.
           apply Qle_antisym; [exact Hstop|].
           apply Qle_minus_iff in Hmore. apply Qle_minus_iff.
           eapply Qle_trans; [exact Hmore|]. apply Qle_lteq. right. ring.
    + change (fill_video_end last_length last_end (r :: next :: tl))
        with (Video.Build_row r (inject_Z (epoch_ts next - epoch_ts r)) (epoch_ts next)
                :: fill_video_end last_length last_end (next :: tl)) in *.
      rewrite overflow_loop_step in Hloop by assumption.
      simpl Video.length in Hloop.
      destruct (Qltb _ (inject_Z (epoch_ts next - epoch_ts r))) eqn:Hstop.
      * injection Hloop as <-. eexists. split; [reflexivity|].
        constructor; [|constructor]. split; assumption.
      * rewrite inject_Z_sub in Hloop.
        replace (event_end - epoch_ts r - (epoch_ts next - epoch_ts r))
          with (event_end - epoch_ts next) in Hloop by lia.
        apply (IH next tl) in Hloop; [|reflexivity].
        destruct Hloop as (rows & -> & Hall).
        eexists (_ :: rows). split; [now rewrite <- app_assoc|].
        constructor; [|exact Hall]. split; [exact Hstart | apply whole_inject_Z].
  - rewrite overflow_loop_done in Hloop by assumption. injection Hloop as <-.
    exists []. split; [now rewrite app_nil_r | constructor].
Qed.

Lemma increasing_skipn (l : list Z) : forall k,
  increasing l = true -> increasing (skipn k l) = true.
Proof.
  induction l as [|x l IH]; intros k H; [now rewrite skipn_nil|].
  destruct k as [|k]; [exact H|]. simpl skipn.
  apply IH. now apply increasing_tail in H.
Qed.

(** What follows a segment of a built timeline is itself built from the
    files that follow, the first of which starts where the segment ends. *)
Lemma fill_video_end_suffix (last_length : Q) (last_end : Z) (df : list EpochRow)
  (i : nat) (v : VideoRow) :
  nth_error (fill_video_end last_length last_end df) i = Some v ->
  (skipn (i + 1) (fill_video_end last_length last_end df) = [] /\
   skipn (i + 1) df = [] /\
   Video.end_epoch_ts v = last_end)
  \/ exists first rest,
       skipn (i + 1) df = first :: rest /\
       skipn (i + 1) (fill_video_end last_length last_end df)
       = fill_video_end last_length last_end (first :: rest) /\
       epoch_ts first = Video.end_epoch_ts v.
Proof.
  intros Hi. replace (i + 1)%nat with (S i) by lia.
  rewrite fill_video_end_skipn.
  destruct (fill_video_end_nth _ _ _ _ _ Hi)
    as [(next & Hnext & _ & Hvend) | (Hnone & _ & Hvend & _)].
  - right. pose proof (nth_error_skipn_cons _ _ _ Hnext) as Hs.
    rewrite fill_video_end_skipn in Hs.
    destruct (skipn (S i) df) as [|first rest]; [discriminate|].
    exists first, rest. repeat split.
    destruct (fill_video_end_head last_length last_end first rest)
      as (w & tl & Hw & Hbase).
    rewrite Hw in Hs. injection Hs as <- _.
    rewrite Hvend. unfold vstart. now rewrite Hbase.
  - left. apply nth_error_None in Hnone.
    pose proof (skipn_all2 _ Hnone) as Hnil.
    rewrite fill_video_end_skipn in Hnil.
    destruct (skipn (S i) df) as [|first rest] eqn:Hskip.
    + auto.
    + destruct (fill_video_end_head last_length last_end first rest)
        as (w & tl & Hw & _). congruence.
Qed.

Lemma fill_event_end_forall (P : Z -> Prop) (bound last_end : Z)
  (events_df : list LogRow) :
  last_end <= bound ->
  ((forall row, In row (fill_event_end last_end events_df) ->
      P (ts (log row)) /\ end_ts row <= bound) <->
   (forall e, In e events_df -> P (ts e)) /\
   (forall e, In e (tl events_df) -> ts e <= bound)).
Proof.
  intros Hle. induction events_df as [|r rest IH].
  - simpl. split; [intros _; split; intros e [] | intros _ row []].
  - destruct rest as [|next rest].
    + simpl. split.
      * intros H. split; [|intros e []].
        intros e [<-|[]]. apply (H (Build_EventRow r last_end)). now left.
      * intros [H _] row [<-|[]]. simpl. split; [apply H; now left | exact Hle].
    + change (fill_event_end last_end (r :: next :: rest))
        with (Build_EventRow r (ts next) :: fill_event_end last_end (next :: rest)).
      split.
      * intros H.
        assert (Hrest : forall row, In row (fill_event_end last_end (next :: rest)) ->
                          P (ts (log row)) /\ end_ts row <= bound)
          by (intros row Hrow; apply H; now right).
        apply IH in Hrest. destruct Hrest as [H1 H2].
        destruct (H _ (or_introl eq_refl)) as [Hr Hn]. simpl in Hr, Hn.
        split.
        -- intros e [<-|He]; auto.
        -- intros e [<-|He]; auto.
      * intros [H1 H2] row [<-|Hrow].
        -- simpl. split; [apply H1; now left | apply H2; now left].
        -- apply IH; auto. split.
           ++ intros e He. apply H1. now right.
           ++ intros e He. apply H2. now right.
Qed.

(** X9.  Every frame number in the labels of an event is whole on a built
    timeline, although the last segment's ["length"] need not be: when the
    loop runs through the last segment without an exception, the event ends
    exactly with that segment. *)
Theorem label_frames_are_whole :
  forall (local_time : LocalTime)
         (df : list EpochRow) (counts_df : list CountsRow) (fps : Z)
         (videos : list VideoRow) (labels_list labels_list' : list Label)
         (row : EventRow),
  _add_video_end_info local_time df counts_df fps = Ok videos ->
  loop_body videos fps labels_list row = Ok labels_list' ->
  exists rows,
    labels_list' = labels_list ++ rows /\
    Forall (fun r => whole (start_frame r) /\ whole (end_frame r)) rows.
Proof.
  intros local_time df counts_df fps videos acc acc' row Hv Hbody.
  destruct (add_video_end_info_inv _ _ _ _ _ Hv) as (c & t0 & _ & _ & _ & ->).
  destruct (loop_body_ok_owner _ _ _ _ _ Hbody) as (i & owner & Hown).
  destruct (owning_segment_spec _ _ _ _ Hown) as (_ & _ & Hnth & _).
  rewrite (loop_body_owner _ _ _ _ _ _ Hown) in Hbody. cbv zeta in Hbody.
  destruct (Video.end_epoch_ts owner <? end_ts row) eqn:Hover.
  - destruct (overflow_loop _ _ _ _ _) as [l|] eqn:Hloop; simpl in Hbody;
      [|discriminate].
    injection Hbody as <-.
    destruct (fill_video_end_suffix _ _ _ _ _ Hnth)
      as [(Hnil & _) | (first & rest & _ & Hsuffix & Hfirst)].
    + rewrite Hnil in Hloop. apply Z.ltb_lt in Hover.
      assert (Hpos : Qltb 0 (inject_Z (end_ts row - Video.end_epoch_ts owner)) = true)
        by (apply Qltb_true, inject_Z_pos; lia).
      simpl in Hloop. rewrite Hpos in Hloop. discriminate.
    + rewrite Hsuffix, <- Hfirst in Hloop.
      apply (overflow_loop_whole _ _ _ _ _ _ first rest) in Hloop; [|reflexivity].
      destruct Hloop as (rows & -> & Hall).
      exists (rows ++ [ Build_Label (vname owner) (event_type (log row))
                          (inject_Z ((ts (log row) - vstart owner) * fps))
                          (inject_Z ((py_int (Video.length owner) - 1) * fps)) ]).
      split; [now rewrite app_assoc|].
      apply Forall_app. split; [exact Hall|].
      constructor; [|constructor]. split; apply whole_inject_Z.
  - injection Hbody as <-. eexists. split; [reflexivity|].
    constructor; [|constructor]. split; apply whole_inject_Z.
Qed.

Section ConsistentRuns.

Variable local_time : LocalTime.
Variable sort_values : list Label -> list Label.

Variable df : list EpochRow.
Variable counts_df : list CountsRow.
Variable fps : Z.
Variable videos : list VideoRow.
Variable last_video : VideoRow.

Hypothesis inputs_consistent : consistent_inputs local_time df counts_df fps.
Hypothesis videos_built :
  _add_video_end_info local_time df counts_df fps = Ok videos.
Hypothesis last_video_is_last : iloc_last videos = Ok last_video.

Lemma built_shape :
  exists last_length,
    (0 <= last_length)%Q /\
    videos = fill_video_end last_length (Video.end_epoch_ts last_video) df /\
    Video.end_epoch_ts last_video = vstart last_video + py_int last_length /\
    iloc_last df = Ok (Video.base last_video) /\
    df <> [].
Proof.
  destruct inputs_consistent as (Hfps & _ & _ & Hcount).
  destruct (add_video_end_info_inv _ _ _ _ _ videos_built)
    as (c & t0 & Hc & Hp & _ & Hv).
  assert (Hne : df <> []).
  { intros ->. unfold _add_video_end_info in videos_built. discriminate. }
  destruct (iloc_last_fill_video_end (true_div (frames c) fps) t0 df Hne)
    as (v & Hlast & Hlen & Hend & Hbase).
  rewrite <- Hv, last_video_is_last in Hlast. injection Hlast as <-.
  destruct (Hcount _ _ Hc Hbase) as [Hframes Hsteady].
  rewrite Hp in Hsteady. injection Hsteady as ->.
  exists (true_div (frames c) fps). repeat split; auto.
  - now apply true_div_nonneg.
  - now rewrite Hend.
Qed.

Lemma built_distinct : distinct (map vname videos) = true.
Proof.
  rewrite (built_names _ _ _ _ _ videos_built). apply inputs_consistent.
Qed.

Lemma built_nonneg : Forall (fun v => (0 <= Video.length v)%Q) videos.
Proof.
  destruct built_shape as (ll & Hll & Hv & _).
  rewrite Hv. apply fill_video_end_nonneg; [apply inputs_consistent | exact Hll].
Qed.

(** The whole seconds of the segments after a segment of the timeline are
    the seconds from its end to the end of the last segment. *)
Lemma built_duration_after (i : nat) (v : VideoRow) :
  nth_error videos i = Some v ->
  total_duration (skipn (i + 1) videos)
  = Video.end_epoch_ts last_video - Video.end_epoch_ts v.
Proof.
  intros Hi.
  destruct built_shape as (ll & Hll & Hv & Hend & Hlast & Hne).
  replace (i + 1)%nat with (S i) by lia.
  pose proof Hi as Hi'. rewrite Hv in Hi'.
  destruct (fill_video_end_nth _ _ _ _ _ Hi')
    as [(next & Hnext & _ & Hvend) | (Hnone & _ & Hvend & _)].
  - rewrite <- Hv in Hnext.
    assert (Hlen : (S i < List.length df)%nat).
    { rewrite <- (add_video_end_info_base _ _ _ _ _ videos_built), length_map.
      apply nth_error_Some. congruence. }
    rewrite Hv, fill_video_end_skipn.
    destruct (skipn (S i) df) as [|first rest] eqn:Hskip.
    { apply (f_equal (@List.length _)) in Hskip.
      rewrite length_skipn in Hskip. simpl in Hskip. lia. }
    rewrite (fill_video_end_duration _ _ _ first rest (Video.base last_video) eq_refl).
    + assert (Hfirst : vstart next = epoch_ts first).
      { pose proof (nth_error_skipn_cons _ _ _ Hnext) as Hs.
        rewrite Hv, fill_video_end_skipn, Hskip in Hs.
        destruct (fill_video_end_head ll (Video.end_epoch_ts last_video) first rest)
          as (w & tl & Hw & Hbase).
        rewrite Hw in Hs. injection Hs as <- _. unfold vstart. now rewrite Hbase. }
      rewrite Hvend, Hend, Hfirst. unfold vstart. lia.
    + rewrite <- Hskip, iloc_last_skipn; auto.
  - rewrite <- Hv in Hnone. apply nth_error_None in Hnone.
    rewrite skipn_all2 by exact Hnone. simpl. rewrite Hvend. lia.
Qed.

Lemma loop_body_succeeds_iff (labels_list : list Label) (row : EventRow) :
  (exists labels_list', loop_body videos fps labels_list row = Ok labels_list') <->
  (exists v, In v videos /\ vstart v < ts (log row)) /\
  end_ts row <= Video.end_epoch_ts last_video.
Proof.
  destruct built_shape as (ll & Hll & Hv & Hend & Hlast & Hne).
  split.
  - intros (acc' & Hbody).
    destruct (loop_body_ok_owner _ _ _ _ _ Hbody) as (i & owner & Hown).
    destruct (owning_segment_spec _ _ _ _ Hown) as (_ & _ & Hnth & Hstart & _).
    split; [exists owner; split; [eapply nth_error_In; eauto | exact Hstart]|].
    destruct (Z_lt_le_dec (Video.end_epoch_ts last_video) (end_ts row)) as [Hlate|];
      [exfalso | assumption].
    pose proof (built_duration_after _ _ Hnth) as Hdur.
    assert (Hrest : Forall (fun v => (0 <= Video.length v)%Q) (skipn (i + 1) videos))
      by (apply Forall_skipn_of, built_nonneg).
    pose proof (total_duration_nonneg _ Hrest) as Hpos.
    rewrite (loop_body_owner _ _ _ _ _ _ Hown) in Hbody. cbv zeta in Hbody.
    assert (Hover : (Video.end_epoch_ts owner <? end_ts row) = true)
      by (apply Z.ltb_lt; lia).
    rewrite Hover in Hbody.
    rewrite overflow_loop_exhausted in Hbody; [discriminate | exact Hrest |].
    rewrite Hv, fill_video_end_skipn.
    eapply Qlt_le_trans; [apply fill_video_end_total|].
    rewrite <- fill_video_end_skipn, <- Hv, <- Zle_Qle. lia.
  - intros [Hex Hin].
    destruct (owning_segment_distinct _ _ built_distinct Hex) as (i & owner & Hown).
    destruct (owning_segment_spec _ _ _ _ Hown) as (_ & _ & Hnth & _).
    rewrite (loop_body_owner _ _ _ _ _ _ Hown). cbv zeta.
    destruct (Video.end_epoch_ts owner <? end_ts row) eqn:Hover; [|eauto].
    apply Z.ltb_lt in Hover.
    replace (i + 1)%nat with (S i) by lia.
    pose proof Hnth as Hnth'. rewrite Hv in Hnth'.
    destruct (fill_video_end_nth _ _ _ _ _ Hnth')
      as [(next & Hnext & _ & Hvend) | (_ & _ & Hvend & _)]; [|lia].
    rewrite <- Hv in Hnext.
    assert (Hlen : (S i < List.length df)%nat).
    { rewrite <- (add_video_end_info_base _ _ _ _ _ videos_built), length_map.
      apply nth_error_Some. congruence. }
    pose proof (nth_error_skipn_cons _ _ _ Hnext) as Hs.
    rewrite Hv, fill_video_end_skipn in Hs |- *.
    destruct (skipn (S i) df) as [|first rest] eqn:Hskip; [discriminate|].
    assert (Hfirst : Video.end_epoch_ts owner = epoch_ts first).
    { destruct (fill_video_end_head ll (Video.end_epoch_ts last_video) first rest)
        as (w & tl & Hw & Hbase).
      rewrite Hw in Hs. injection Hs as <- _.
      rewrite Hvend. unfold vstart. now rewrite Hbase. }
    rewrite Hfirst.
    destruct (overflow_loop_succeeds ll (Video.end_epoch_ts last_video) fps
                (event_type (log row)) (end_ts row) (first :: rest) first rest
                labels_list eq_refl) as [acc' Hloop].
    + intros l Hl. rewrite <- Hskip in Hl.
      rewrite iloc_last_skipn in Hl by exact Hlen. rewrite Hlast in Hl.
      injection Hl as <-.
      eapply Qle_trans; [|apply py_int_le; exact Hll].
      rewrite <- Zle_Qle. unfold vstart in Hend. lia.
    + rewrite Hloop. simpl. eauto.
Qed.

(** X8.  On consistent inputs an event is processed without an exception
    exactly when some segment starts strictly before it and it ends no
    later than the last segment does. *)
Theorem event_is_processed_iff_within_recording :
  forall (labels_list : list Label) (row : EventRow),
  (exists labels_list', loop_body videos fps labels_list row = Ok labels_list') <->
  (exists v, In v videos /\ vstart v < ts (log row)) /\
  end_ts row <= Video.end_epoch_ts last_video.
Proof.
  exact loop_body_succeeds_iff.
Qed.


Lemma built_events (events_df : list LogRow) :
  events_df <> [] ->
  _add_event_end_info local_time events_df counts_df fps
  = Ok (fill_event_end (Video.end_epoch_ts last_video) events_df).
Proof.
  intros Hne.
  destruct built_shape as (ll & _ & _ & _ & _ & Hdf).
  rewrite (add_event_end_info_unfold _ _ _ _ Hne).
  pose proof videos_built as Hv.
  rewrite (add_video_end_info_unfold _ _ _ _ Hdf) in Hv.
  destruct (iloc_last counts_df) as [c|]; [|discriminate].
  destruct (last_video_end local_time counts_df fps) as [last_end|];
    [|discriminate].
  injection Hv as Hv.
  destruct (iloc_last_fill_video_end (true_div (frames c) fps) last_end df Hdf)
    as (v & Hlast & _ & Hend & _).
  rewrite Hv, last_video_is_last in Hlast. injection Hlast as <-.
  now rewrite Hend.
Qed.

(** X10.  On consistent inputs a run returns a table exactly when every
    logged event starts strictly after some segment's start and every
    event but the first in the log starts no later than the last segment
    ends. *)
Theorem run_returns_a_table_iff_log_within_recording :
  forall (events_df : list LogRow),
  events_df <> [] ->
  ((exists labels,
       run_thru_events local_time sort_values events_df counts_df df fps
       = Ok labels) <->
   (forall e, In e events_df -> exists r, In r df /\ epoch_ts r < ts e) /\
   (forall e, In e (tl events_df) -> ts e <= Video.end_epoch_ts last_video)).
Proof.
  intros events_df Hne.
  unfold run_thru_events, collect_labels.
  rewrite videos_built, (built_events _ Hne). cbn [bind].
  rewrite <- (fill_event_end_forall
                (fun t => exists r, In r df /\ epoch_ts r < t)
                (Video.end_epoch_ts last_video) (Video.end_epoch_ts last_video)
                events_df (Z.le_refl _)).
  assert (Hseg : forall t, (exists v, In v videos /\ vstart v < t) <->
                           (exists r, In r df /\ epoch_ts r < t)).
  { intros t. rewrite <- (add_video_end_info_base _ _ _ _ _ videos_built). split.
    - intros (v & Hv & Hlt). exists (Video.base v). split; [now apply in_map | exact Hlt].
    - intros (r & Hr & Hlt). apply in_map_iff in Hr. destruct Hr as (v & <- & Hv).
      eauto. }
  split.
  - intros (labels & H).
    destruct (iterrows videos fps _ []) as [l|] eqn:Hrun; [|discriminate].
    intros row Hrow.
    assert (Hok : exists labels, iterrows videos fps
                    (fill_event_end (Video.end_epoch_ts last_video) events_df) []
                    = Ok labels) by eauto.
    apply (proj1 (iterrows_succeeds_iff _ _ _ _)) with (row := row) in Hok; auto.
    apply (loop_body_succeeds_iff []) in Hok. rewrite <- Hseg. exact Hok.
  - intros H.
    assert (Hok : exists labels, iterrows videos fps
                    (fill_event_end (Video.end_epoch_ts last_video) events_df) []
                    = Ok labels).
    { apply iterrows_succeeds_iff. intros row Hrow.
      apply (loop_body_succeeds_iff []). rewrite Hseg. now apply H. }
    destruct Hok as [l Hl]. rewrite Hl. simpl. eauto.
Qed.

End ConsistentRuns.

(** X11.  On a timeline built from files listed by increasing start time,
    the labels an event adds name exactly the segments after its owning
    segment that start before the event ends, one label each and in the
    order of the frame, and then the owning segment. *)
Theorem event_labels_cover_started_segments :
  forall (local_time : LocalTime)
         (df : list EpochRow) (counts_df : list CountsRow) (fps : Z)
         (videos : list VideoRow)
         (labels_list labels_list' : list Label) (row : EventRow)
         (i : nat) (owner : VideoRow),
  increasing (map epoch_ts df) = true ->
  _add_video_end_info local_time df counts_df fps = Ok videos ->
  owning_segment (ts (log row)) videos = Ok (i, owner) ->
  loop_body videos fps labels_list row = Ok labels_list' ->
  exists rows,
    labels_list' = labels_list ++ rows /\
    map lbl_filename rows
    = map vname (filter (fun v => vstart v <? end_ts row) (skipn (i + 1) videos))
      ++ [ vname owner ].
Proof.
  intros local_time df counts_df fps videos acc acc' row i owner
         Hinc videos_built Hown Hbody.
  destruct (add_video_end_info_inv _ _ _ _ _ videos_built)
    as (c & last_end & _ & _ & _ & Hv).
  destruct (owning_segment_spec _ _ _ _ Hown) as (_ & _ & Hnth & _).
  rewrite (loop_body_owner _ _ _ _ _ _ Hown) in Hbody. cbv zeta in Hbody.
  pose proof Hnth as Hnth'. rewrite Hv in Hnth'.
  destruct (Video.end_epoch_ts owner <? end_ts row) eqn:Hover.
  - destruct (overflow_loop _ _ _ _ _) as [l|] eqn:Hloop; simpl in Hbody;
      [|discriminate].
    injection Hbody as <-. rewrite Hv in Hloop |- *.
    destruct (fill_video_end_suffix _ _ _ _ _ Hnth')
      as [(Hnil & _) | (first & rest & Hskip & Hsuffix & Hfirst)].
    + rewrite Hnil in Hloop. apply Z.ltb_lt in Hover.
      assert (Hpos : Qltb 0 (inject_Z (end_ts row - Video.end_epoch_ts owner)) = true)
        by (apply Qltb_true, inject_Z_pos; lia).
      simpl in Hloop. rewrite Hpos in Hloop. discriminate.
    + rewrite Hsuffix in Hloop |- *. rewrite <- Hfirst in Hloop.
      apply (overflow_loop_names _ _ _ _ _ _ first rest) in Hloop; [|reflexivity|].
      * destruct Hloop as (rows & -> & Hnames).
        eexists (rows ++ [ _ ]). split; [now rewrite app_assoc|].
        rewrite map_app, Hnames. reflexivity.
      * rewrite <- Hskip, <- skipn_map. now apply increasing_skipn.
  - injection Hbody as <-. apply Z.ltb_ge in Hover.
    eexists [ _ ]. split; [reflexivity|]. rewrite Hv.
    destruct (fill_video_end_suffix _ _ _ _ _ Hnth')
      as [(Hnil & _) | (first & rest & Hskip & Hsuffix & Hfirst)].
    + rewrite Hnil. reflexivity.
    + rewrite Hsuffix,
        (filter_later_nil _ _ _ (first :: rest) first rest eq_refl); [reflexivity| |lia].
      rewrite <- Hskip, <- skipn_map. now apply increasing_skipn.
Qed.

(** X12.  On a timeline built from files with distinct names listed by
    increasing start time, with a positive frame rate and a last segment
    that does not end before it starts: an event that is given the last
    segment's end as its own end (as the last event of the log is) but
    starts after that end does not fail the run: it gets one label, in the
    last segment, whose end frame lies before its start frame. *)
Theorem late_last_event_gets_inverted_label :
  forall (local_time : LocalTime)
         (df : list EpochRow) (counts_df : list CountsRow) (fps : Z)
         (videos : list VideoRow) (last_video : VideoRow)
         (labels_list : list Label) (row : EventRow),
  0 < fps ->
  increasing (map epoch_ts df) = true ->
  distinct (map filename df) = true ->
  _add_video_end_info local_time df counts_df fps = Ok videos ->
  iloc_last videos = Ok last_video ->
  vstart last_video <= Video.end_epoch_ts last_video ->
  end_ts row = Video.end_epoch_ts last_video ->
  Video.end_epoch_ts last_video < ts (log row) ->
  exists label,
    loop_body videos fps labels_list row = Ok (labels_list ++ [ label ]) /\
    lbl_filename label = vname last_video /\
    (end_frame label < start_frame label)%Q.
Proof.
  intros local_time df counts_df fps videos last_video acc row
         Hfps Hinc Hdist videos_built last_video_is_last Hends Hrow Hlate.
  assert (built_distinct : distinct (map vname videos) = true)
    by (rewrite (built_names _ _ _ _ _ videos_built); exact Hdist).
  destruct (iloc_last_inv _ _ last_video_is_last) as [pre Hpre].
  assert (Hin : In last_video videos)
    by (rewrite Hpre; apply in_or_app; right; now left).
  assert (Hex : exists v, In v videos /\ vstart v < ts (log row))
    by (exists last_video; split; [exact Hin | lia]).
  destruct (owning_segment_distinct _ _ built_distinct Hex) as (i & owner & Hown).
  destruct (owning_segment_spec _ _ _ _ Hown) as (_ & _ & Hnth & Hstart & Hmax).
  assert (Hsorted : StronglySorted Z.lt (map vstart videos)).
  { apply increasing_sorted.
    replace (map vstart videos) with (map epoch_ts df); [exact Hinc|].
    rewrite <- (add_video_end_info_base _ _ _ _ _ videos_built).
    now rewrite map_map. }
  rewrite Hpre, map_app in Hsorted. simpl in Hsorted.
  destruct (sorted_around _ _ _ Hsorted) as [Hbefore _].
  assert (Howner : owner = last_video).
  { assert (Ho : In owner videos) by (eapply nth_error_In; eauto).
    rewrite Hpre in Ho. apply in_app_or in Ho. destruct Ho as [Ho|[Ho|[]]]; auto.
    exfalso. rewrite Forall_forall in Hbefore.
    assert (vstart owner < vstart last_video) by (apply Hbefore; now apply in_map).
    assert (vstart last_video <= vstart owner) by (apply Hmax; [exact Hin | lia]).
    lia. }
  subst owner.
  rewrite (loop_body_owner _ _ _ _ _ _ Hown). cbv zeta.
  assert (Hb : (Video.end_epoch_ts last_video <? end_ts row) = false)
    by (apply Z.ltb_ge; lia).
  rewrite Hb. eexists. split; [reflexivity|]. split; [reflexivity|].
  cbn [start_frame end_frame]. rewrite <- Zlt_Qlt. nia.
Qed.

(** ** [VideoReader]: reading frames in order *)

Section VideoReaderProperties.

Variables Frame Array : Type.
Variable to_array : Frame -> Array.

Lemma init_in_step (frames : list Frame) : VideoReader.in_step (VideoReader.init frames).
Proof. repeat split. simpl. lia. Qed.

Lemma frames_left_in_step (self : VideoReader.state Frame) :
  VideoReader.in_step self ->
  match VideoReader.decoder self with
  | None => VideoReader.video self
  | Some remaining => remaining
  end = skipn (Z.to_nat (VideoReader.cur_frame self)) (VideoReader.video self).
Proof.
  intros (_ & _ & H). destruct (VideoReader.decoder self); [exact H|].
  rewrite H. reflexivity.
Qed.

Lemma getFrame_in_step (self : VideoReader.state Frame) (idx : Z) :
  VideoReader.in_step self ->
  VideoReader.in_step (snd (VideoReader.getFrame to_array self idx)) /\
  VideoReader.video (snd (VideoReader.getFrame to_array self idx))
  = VideoReader.video self /\
  forall array,
    fst (VideoReader.getFrame to_array self idx) = inr array ->
    idx = VideoReader.cur_frame self /\
    VideoReader.hasFrame self idx = true /\
    option_map to_array (nth_error (VideoReader.video self) (Z.to_nat idx))
    = Some array /\
    VideoReader.cur_frame (snd (VideoReader.getFrame to_array self idx)) = idx + 1.
Proof.
  intros Hstep. pose proof (frames_left_in_step _ Hstep) as Hleft.
  destruct Hstep as (Htotal & Hcur & _).
  unfold VideoReader.getFrame. rewrite Hleft. clear Hleft.
  destruct (idx =? VideoReader.cur_frame self) eqn:Heq; simpl negb; cbv iota.
  - apply Z.eqb_eq in Heq. subst idx.
    destruct (skipn _ _) as [|frame remaining] eqn:Hskip; simpl fst; simpl snd.
    + split; [|split; [reflexivity | intros array H; discriminate H]].
      unfold VideoReader.in_step. simpl. auto.
    + apply skipn_cons_inv in Hskip. destruct Hskip as [Hnth Hrest].
      assert (Hlt : (Z.to_nat (VideoReader.cur_frame self)
                     < List.length (VideoReader.video self))%nat)
        by (apply nth_error_Some; congruence).
      split; [|split; [reflexivity|]].
      * unfold VideoReader.in_step. simpl.
        split; [exact Htotal|]. split; [lia|].
        rewrite <- Hrest. f_equal. lia.
      * intros array H. injection H as <-. split; [reflexivity|]. split.
        -- unfold VideoReader.hasFrame. rewrite Htotal.
           apply andb_true_iff. split; [apply Z.leb_le | apply Z.ltb_lt]; lia.
        -- split; [now rewrite Hnth | reflexivity].
  - simpl fst; simpl snd.
    split; [|split; [reflexivity | intros array H; discriminate H]].
    unfold VideoReader.in_step. simpl. auto.
Qed.

(** X13.  Asking a fresh [VideoReader] for the frames 0, 1, ..., k - 1 in
    this order, with [k] at most the number of frames, answers with exactly
    these frames of the file, in order, and leaves the reader at frame
    [k]. *)
Theorem video_frames_read_in_order_are_returned :
  forall (frames : list Frame) (k : nat),
  (k <= List.length frames)%nat ->
  let (answers, self) :=
    VideoReader.getFrames to_array (VideoReader.init frames)
      (map Z.of_nat (seq 0 k)) in
  answers = map (fun frame => inr (to_array frame)) (firstn k frames) /\
  VideoReader.cur_frame self = Z.of_nat k.
Proof.
  intros frames k Hk.
  assert (G : forall n j (self : VideoReader.state Frame),
             VideoReader.in_step self ->
             VideoReader.video self = frames ->
             VideoReader.cur_frame self = Z.of_nat j ->
             (j + n <= List.length frames)%nat ->
             let (answers, self') :=
               VideoReader.getFrames to_array self (map Z.of_nat (seq j n)) in
             answers = map (fun frame => inr (to_array frame))
                         (firstn n (skipn j frames)) /\
             VideoReader.cur_frame self' = Z.of_nat (j + n)).
  { induction n as [|n IH]; intros j self Hstep Hvideo Hcur Hlen.
    - simpl. rewrite Nat.add_0_r. auto.
    - simpl seq. simpl map. simpl VideoReader.getFrames.
      pose proof (frames_left_in_step _ Hstep) as Hleft.
      destruct (getFrame_in_step self (Z.of_nat j) Hstep) as (Hstep' & Hvideo' & _).
      unfold VideoReader.getFrame in *. rewrite Hleft, Hvideo, Hcur in *.
      rewrite Z.eqb_refl in *. simpl negb in *. cbv iota in *.
      rewrite Nat2Z.id in *.
      destruct (skipn j frames) as [|frame remaining] eqn:Hskip.
      + apply (f_equal (@List.length _)) in Hskip. rewrite length_skipn in Hskip.
        simpl in Hskip. lia.
      + pose proof (skipn_cons_inv _ _ _ _ Hskip) as [_ Hrest].
        simpl in Hstep', Hvideo'.
        specialize (IH (S j) _ Hstep' Hvideo').
        simpl VideoReader.cur_frame in IH.
        destruct (VideoReader.getFrames to_array _ (map Z.of_nat (seq (S j) n)))
          as [answers self'].
        destruct IH as [Hans Hcur']; [lia | lia |].
        split.
        * simpl. rewrite Hans, Hrest. reflexivity.
        * rewrite Hcur'. f_equal. lia. }
  specialize (G k 0%nat (VideoReader.init frames) (init_in_step frames)
                eq_refl eq_refl Hk).
  simpl skipn in G. exact G.
Qed.

(** X14.  Whatever frames a client asks of a fresh [VideoReader], and in
    whatever order, an answer that is not an exception is the frame that
    was asked for, and [hasFrame] holds of its index. *)
Theorem video_reader_never_returns_another_frame :
  forall (frames : list Frame) (requests : list Z) (n : nat) (idx : Z)
         (array : Array),
  nth_error requests n = Some idx ->
  nth_error (fst (VideoReader.getFrames to_array (VideoReader.init frames) requests)) n
  = Some (inr array) ->
  option_map to_array (nth_error frames (Z.to_nat idx)) = Some array /\
  VideoReader.hasFrame (VideoReader.init frames) idx = true.
Proof.
  intros frames requests.
  assert (G : forall (self : VideoReader.state Frame) n idx array,
             VideoReader.in_step self ->
             nth_error requests n = Some idx ->
             nth_error (fst (VideoReader.getFrames to_array self requests)) n
             = Some (inr array) ->
             option_map to_array (nth_error (VideoReader.video self) (Z.to_nat idx))
             = Some array /\
             (0 <=? idx) && (idx <? Z.of_nat (List.length (VideoReader.video self)))
             = true).
  { induction requests as [|r rest IH]; intros self n idx array Hstep Hn Ha.
    - destruct n; discriminate.
    - simpl in Ha.
      destruct (getFrame_in_step self r Hstep) as (Hstep' & Hvideo' & Hok).
      destruct (VideoReader.getFrame to_array self r) as [answer self'] eqn:Hget.
      simpl in Hstep', Hvideo', Hok.
      destruct (VideoReader.getFrames to_array self' rest) as [answers self''] eqn:Hrest.
      destruct n as [|n]; simpl in Hn, Ha.
      + injection Hn as <-. injection Ha as ->.
        destruct (Hok array eq_refl) as (_ & Hhas & Hframe & _).
        split; [exact Hframe|].
        unfold VideoReader.hasFrame in Hhas.
        destruct Hstep as (Htotal & _). now rewrite Htotal in Hhas.
      + rewrite <- Hvideo'. apply (IH self' n); auto. now rewrite Hrest. }
  intros n idx array Hn Ha.
  exact (G (VideoReader.init frames) n idx array (init_in_step frames) Hn Ha).
Qed.

(** X15.  A request for any frame but the current one raises
    [RuntimeError], and the reader then answers the next request as it
    would have without it. *)
Theorem video_reader_refuses_to_seek :
  forall (self : VideoReader.state Frame) (idx next : Z),
  idx <> VideoReader.cur_frame self ->
  fst (VideoReader.getFrame to_array self idx) = inl VideoReader.RuntimeError /\
  VideoReader.cur_frame (snd (VideoReader.getFrame to_array self idx))
  = VideoReader.cur_frame self /\
  VideoReader.getFrame to_array (snd (VideoReader.getFrame to_array self idx)) next
  = VideoReader.getFrame to_array self next.
Proof.
  intros [frames total dec cur] idx next Hne. simpl in Hne.
  apply Z.eqb_neq in Hne.
  unfold VideoReader.getFrame. simpl. rewrite Hne. simpl.
  split; [reflexivity|]. split; [reflexivity|].
  destruct dec; reflexivity.
Qed.

(** X16.  After a [for] loop over a fresh reader of a non-empty file has
    run to its end, [getFrame(0)] raises [RuntimeError], while
    [getFrame(total_frames)], an index of which [hasFrame] is false,
    answers with the first frame of the file. *)
Theorem video_reader_counter_is_shared_with_iteration :
  forall (first : Frame) (rest : list Frame),
  let frames := first :: rest in
  let self := snd (VideoReader.iterate to_array (VideoReader.init frames)
                     (List.length frames)) in
  fst (VideoReader.iterate to_array (VideoReader.init frames) (List.length frames))
  = map to_array frames /\
  fst (VideoReader.getFrame to_array self 0) = inl VideoReader.RuntimeError /\
  VideoReader.hasFrame self (VideoReader.total_frames self) = false /\
  fst (VideoReader.getFrame to_array self (VideoReader.total_frames self))
  = inr (to_array first).
Proof.
  intros first rest frames self.
  assert (Hcur : VideoReader.cur_frame self = Z.of_nat (List.length frames)).
  { unfold self, VideoReader.iterate. simpl VideoReader.cur_frame.
    rewrite firstn_all. simpl. lia. }
  assert (Htot : VideoReader.total_frames self = Z.of_nat (List.length frames))
    by reflexivity.
  split; [unfold VideoReader.iterate; simpl fst; now rewrite firstn_all|].
  split; [|split].
  - unfold VideoReader.getFrame. rewrite Hcur.
    assert (H : (0 =? Z.of_nat (List.length frames)) = false)
      by (apply Z.eqb_neq; simpl; lia).
    rewrite H. reflexivity.
  - unfold VideoReader.hasFrame. rewrite Htot.
    apply andb_false_iff. right. apply Z.ltb_ge. lia.
  - unfold VideoReader.getFrame. rewrite Hcur, Htot, Z.eqb_refl. reflexivity.
Qed.

End VideoReaderProperties.

(** ** The text of a start time in a file name *)

Lemma stamp_char_plain (c : Ascii.ascii) :
  stamp_char c = true ->
  c <> "."%char /\ c <> "d"%char /\ c <> "h"%char.
Proof.
  destruct c as [b0 b1 b2 b3 b4 b5 b6 b7].
  destruct b0, b1, b2, b3, b4, b5, b6, b7; vm_compute; intros H;
    try discriminate H; repeat split; discriminate.
Qed.

Lemma is_digit_stamp_char (c : Ascii.ascii) : is_digit c = true -> stamp_char c = true.
Proof. unfold stamp_char. now intros ->. Qed.

Lemma prefix_head_differs (a c : Ascii.ascii) (old s : string) :
  c <> a -> String.prefix (String a old) (String c s) = false.
Proof.
  intros H. simpl. destruct (Ascii.ascii_dec a c); [congruence | reflexivity].
Qed.

(** Where the first character of [old] does not occur, nothing is
    replaced. *)
Lemma replace_from_untouched (a : Ascii.ascii) (old new : string) (s rest : string) :
  all_chars (fun c => negb (Ascii.eqb c a)) s = true ->
  replace_from (String a old) new 0 (String.append s rest)
  = String.append s (replace_from (String a old) new 0 rest).
Proof.
  induction s as [|c s IH]; intros H; [reflexivity|].
  simpl in H. apply andb_true_iff in H. destruct H as [Hc Hs].
  apply negb_true_iff, Ascii.eqb_neq in Hc.
  change (String.append (String c s) rest) with (String c (String.append s rest)).
  cbn [replace_from]. rewrite (prefix_head_differs a c old _ Hc).
  now rewrite IH.
Qed.

Lemma all_chars_weaken (p q : Ascii.ascii -> bool) (s : string) :
  (forall c, p c = true -> q c = true) ->
  all_chars p s = true -> all_chars q s = true.
Proof.
  intros Hpq. induction s as [|c s IH]; [reflexivity|]. simpl.
  intros H. apply andb_true_iff in H. destruct H as [Hc Hs].
  rewrite (Hpq c Hc). now apply IH.
Qed.

Lemma all_chars_append (p : Ascii.ascii -> bool) (s t : string) :
  all_chars p (String.append s t) = all_chars p s && all_chars p t.
Proof.
  induction s as [|c s IH]; [reflexivity|]. simpl. now rewrite IH, andb_assoc.
Qed.

Lemma stamp_no (a : Ascii.ascii) (s : string) :
  (a = "."%char \/ a = "d"%char \/ a = "h"%char) ->
  all_chars stamp_char s = true ->
  all_chars (fun c => negb (Ascii.eqb c a)) s = true.
Proof.
  intros Ha. apply all_chars_weaken. intros c Hc.
  apply negb_true_iff, Ascii.eqb_neq.
  destruct (stamp_char_plain c Hc) as (H1 & H2 & H3).
  destruct Ha as [-> | [-> | ->]]; assumption.
Qed.

Lemma substring_prefix (a b : string) :
  String.substring 0 (String.length a) (String.append a b) = a.
Proof.
  induction a as [|c a IH]; simpl.
  - destruct b; reflexivity.
  - now rewrite IH.
Qed.

Lemma length_append (a b : string) :
  String.length (String.append a b) = (String.length a + String.length b)%nat.
Proof. induction a as [|c a IH]; simpl; [reflexivity | now rewrite IH]. Qed.

Lemma before_dot_append (a b : string) :
  all_chars (fun c => negb (Ascii.eqb c "."%char)) a = true ->
  before_dot (String.append a (String "."%char b)) = a.
Proof.
  induction a as [|c a IH]; intros H; [reflexivity|].
  simpl in H. apply andb_true_iff in H. destruct H as [Hc Ha].
  apply negb_true_iff in Hc. simpl. rewrite Hc. now rewrite IH.
Qed.

Lemma before_dot_none (a : string) :
  all_chars (fun c => negb (Ascii.eqb c "."%char)) a = true -> before_dot a = a.
Proof.
  induction a as [|c a IH]; intros H; [reflexivity|].
  simpl in H. apply andb_true_iff in H. destruct H as [Hc Ha].
  apply negb_true_iff in Hc. simpl. rewrite Hc. now rewrite IH.
Qed.

Lemma append_empty (s : string) : String.append s "" = s.
Proof. induction s as [|c s IH]; simpl; congruence. Qed.

Lemma strip_data_prefix (body : string) :
  all_chars (fun c => negb (Ascii.eqb c "d"%char)) body = true ->
  py_replace "data/" "" (String.append "data/" body) = body.
Proof.
  intros H. unfold py_replace. simpl.
  assert (Hp : String.prefix "" body = true) by (destruct body; reflexivity).
  rewrite Hp.
  pose proof (replace_from_untouched "d"%char "ata/" "" body "" H) as Hu.
  rewrite append_empty in Hu. rewrite Hu. simpl. apply append_empty.
Qed.

Lemma strip_h264_suffix (name : string) :
  all_chars (fun c => negb (Ascii.eqb c "."%char)) name = true ->
  py_replace ".h264" "" (String.append name ".h264") = name.
Proof.
  intros H. unfold py_replace.
  rewrite (replace_from_untouched "."%char "h264" "" name ".h264" H).
  simpl. apply append_empty.
Qed.

Lemma strip_h264_after_stamp (ts micro : string) :
  all_chars stamp_char ts = true ->
  all_chars is_digit micro = true ->
  micro <> ""%string ->
  py_replace ".h264" ""
    (String.append ts (String "."%char (String.append micro ".h264")))
  = String.append ts (String "."%char micro).
Proof.
  intros Hts Hmicro Hne. unfold py_replace.
  rewrite (replace_from_untouched "."%char "h264" "" ts _
             (stamp_no "."%char ts (or_introl eq_refl) Hts)).
  f_equal.
  destruct micro as [|m0 micro']; [congruence|].
  simpl in Hmicro. apply andb_true_iff in Hmicro. destruct Hmicro as [Hm0 Hm'].
  destruct (stamp_char_plain m0 (is_digit_stamp_char m0 Hm0)) as (_ & _ & Hh).
  change (String.append (String m0 micro') ".h264")
    with (String m0 (String.append micro' ".h264")).
  change (replace_from ".h264" "" 0
            (String "."%char (String m0 (String.append micro' ".h264"))))
    with (if String.prefix ".h264"
               (String "."%char (String m0 (String.append micro' ".h264")))
          then String.append ""
                 (replace_from ".h264" "" 4 (String m0 (String.append micro' ".h264")))
          else String "."%char
                 (replace_from ".h264" "" 0 (String m0 (String.append micro' ".h264")))).
  assert (Hp : String.prefix ".h264"
                 (String "."%char (String m0 (String.append micro' ".h264"))) = false).
  { change (String.prefix ".h264"
              (String "."%char (String m0 (String.append micro' ".h264"))))
      with (String.prefix "h264" (String m0 (String.append micro' ".h264"))).
    now apply prefix_head_differs. }
  rewrite Hp. f_equal.
  apply (strip_h264_suffix (String m0 micro')).
  apply (stamp_no "."%char (String m0 micro') (or_introl eq_refl)).
  simpl. rewrite (is_digit_stamp_char m0 Hm0).
  apply (all_chars_weaken is_digit); [exact is_digit_stamp_char | exact Hm'].
Qed.

Lemma substring_length (n : nat) (s : string) :
  (n <= String.length s)%nat -> String.length (String.substring 0 n s) = n.
Proof.
  revert n. induction s as [|c s IH]; intros n Hn.
  - simpl in Hn. destruct n; [reflexivity | lia].
  - destruct n as [|n]; [reflexivity|]. simpl in *. rewrite IH; lia.
Qed.

(** X17.  For a file "data/<time>.<six digits>.h264" the two ways the code
    cuts the time out of a name give the same text, the time itself:
    [_add_video_end_info] by replacing "data/" and ".h264" and dropping the
    last seven characters, [map_file_names_to_epoch] by keeping what stands
    before the first dot of the stem. *)
Theorem both_stamp_texts_are_the_time :
  forall (time subsecond : string),
  all_chars stamp_char time = true ->
  all_chars is_digit subsecond = true ->
  String.length subsecond = 6%nat ->
  counts_name_stamp
    (String.append "data/"
       (String.append time (String "."%char (String.append subsecond ".h264"))))
  = time /\
  stem_stamp (String.append time (String "."%char subsecond)) = time.
Proof.
  intros time subsecond Ht Hs Hlen.
  assert (Hne : subsecond <> ""%string) by (intros ->; discriminate).
  split.
  - unfold counts_name_stamp.
    rewrite strip_data_prefix.
    + rewrite (strip_h264_after_stamp _ _ Ht Hs Hne).
      unfold drop_last. rewrite length_append. simpl String.length. rewrite Hlen.
      replace (String.length time + 7 - 7)%nat with (String.length time) by lia.
      apply substring_prefix.
    + rewrite all_chars_append.
      rewrite (stamp_no "d"%char time (or_intror (or_introl eq_refl)) Ht).
      simpl. rewrite all_chars_append.
      rewrite (stamp_no "d"%char subsecond (or_intror (or_introl eq_refl))
                 (all_chars_weaken _ _ _ is_digit_stamp_char Hs)).
      reflexivity.
  - unfold stem_stamp. apply before_dot_append.
    exact (stamp_no "."%char time (or_introl eq_refl) Ht).
Qed.

(** X18.  For a file "data/<time>.h264", without sub-second digits, the two
    texts differ: [map_file_names_to_epoch] parses the whole time, while
    [_add_video_end_info] parses the time cut short by its last seven
    characters. *)
Theorem stamp_without_subsecond_is_cut_short :
  forall (time : string),
  all_chars stamp_char time = true ->
  stem_stamp time = time /\
  counts_name_stamp (String.append "data/" (String.append time ".h264"))
  = drop_last 7 time /\
  (time <> ""%string ->
   (String.length
      (counts_name_stamp (String.append "data/" (String.append time ".h264")))
    < String.length time)%nat).
Proof.
  intros time Ht.
  assert (Hcut : counts_name_stamp (String.append "data/" (String.append time ".h264"))
                 = drop_last 7 time).
  { unfold counts_name_stamp. rewrite strip_data_prefix.
    - now rewrite (strip_h264_suffix _ (stamp_no "."%char time (or_introl eq_refl) Ht)).
    - rewrite all_chars_append.
      now rewrite (stamp_no "d"%char time (or_intror (or_introl eq_refl)) Ht). }
  split; [apply before_dot_none; exact (stamp_no "."%char time (or_introl eq_refl) Ht)|].
  split; [exact Hcut|].
  intros Hne. rewrite Hcut. unfold drop_last.
  rewrite substring_length by lia.
  destruct time; [congruence | simpl; lia].
Qed.

(** X19.  Only a directory spelled "data/" is taken off the name: for a
    file of the same form in a directory whose name has neither "d" nor
    ".", the text [_add_video_end_info] parses still begins with the
    directory. *)
Theorem other_directory_stays_in_stamp_text :
  forall (directory time subsecond : string),
  all_chars (fun c => negb (Ascii.eqb c "d"%char) && negb (Ascii.eqb c "."%char))
    directory = true ->
  all_chars stamp_char time = true ->
  all_chars is_digit subsecond = true ->
  String.length subsecond = 6%nat ->
  counts_name_stamp
    (String.append directory
       (String.append time (String "."%char (String.append subsecond ".h264"))))
  = String.append directory time.
Proof.
  intros directory time subsecond Hd Ht Hs Hlen.
  assert (Hne : subsecond <> ""%string) by (intros ->; discriminate).
  assert (Hd1 : all_chars (fun c => negb (Ascii.eqb c "d"%char)) directory = true).
  { revert Hd. apply all_chars_weaken. intros c Hc.
    apply andb_true_iff in Hc. tauto. }
  assert (Hd2 : all_chars (fun c => negb (Ascii.eqb c "."%char)) directory = true).
  { revert Hd. apply all_chars_weaken. intros c Hc.
    apply andb_true_iff in Hc. tauto. }
  set (body := String.append time (String "."%char (String.append subsecond ".h264"))).
  assert (Hbody : all_chars (fun c => negb (Ascii.eqb c "d"%char)) body = true).
  { unfold body. rewrite all_chars_append.
    rewrite (stamp_no "d"%char time (or_intror (or_introl eq_refl)) Ht).
    simpl. rewrite all_chars_append.
    rewrite (stamp_no "d"%char subsecond (or_intror (or_introl eq_refl))
               (all_chars_weaken _ _ _ is_digit_stamp_char Hs)).
    reflexivity. }
  assert (Hu : replace_from "data/" "" 0 (String.append directory body)
               = String.append directory body).
  { assert (Hall : all_chars (fun c => negb (Ascii.eqb c "d"%char))
                     (String.append directory body) = true)
      by (rewrite all_chars_append, Hd1, Hbody; reflexivity).
    pose proof (replace_from_untouched "d"%char "ata/" ""
                  (String.append directory body) "" Hall) as Hu.
    rewrite append_empty in Hu. rewrite Hu.
    change (replace_from "data/" "" 0 "") with ""%string.
    apply append_empty. }
  unfold counts_name_stamp, py_replace. rewrite Hu.
  rewrite (replace_from_untouched "."%char "h264" "" directory body Hd2).
  fold (py_replace ".h264" "" body). unfold body.
  rewrite (strip_h264_after_stamp _ _ Ht Hs Hne).
  unfold drop_last. rewrite !length_append. simpl String.length. rewrite Hlen.
  replace (String.length directory + (String.length time + 7) - 7)%nat
    with (String.length (String.append directory time))
    by (rewrite length_append; lia).
  assert (Hassoc : String.append directory (String.append time (String "."%char subsecond))
                   = String.append (String.append directory time)
                       (String "."%char subsecond)).
  { clear. induction directory as [|c d IH]; simpl; [reflexivity | now rewrite IH]. }
  rewrite Hassoc. apply substring_prefix.
Qed.

(** ** [ImageReader]: counting the frames of a directory *)

Section ImageReaderProperties.

Variable Array : Type.
Variable path_exists : Z -> bool.
Variable convert_ok : string -> bool.
Variable load : string -> Z -> Array.

Lemma scan_returns (fuel : nat) : forall check_idx stop,
  ImageReader.scan path_exists fuel check_idx = Some stop ->
  check_idx <= stop < check_idx + Z.of_nat fuel /\
  (forall j, check_idx <= j < stop -> path_exists j = true) /\
  path_exists stop = false.
Proof.
  induction fuel as [|fuel IH]; intros check_idx stop H; simpl in H;
    [discriminate|].
  unfold ImageReader.hasFrame in H.
  destruct (path_exists check_idx) eqn:Hhas.
  - destruct (IH _ _ H) as (Hrange & Hall & Hstop).
    split; [lia|]. split; [|exact Hstop].
    intros j Hj. destruct (Z.eq_dec j check_idx) as [->|Hne]; [exact Hhas|].
    apply Hall. lia.
  - injection H as <-. split; [lia|]. split; [|exact Hhas].
    intros j Hj. lia.
Qed.

Lemma scan_finds_gap (n : nat) : forall fuel check_idx,
  (forall j, check_idx <= j < check_idx + Z.of_nat n -> path_exists j = true) ->
  path_exists (check_idx + Z.of_nat n) = false ->
  (n < fuel)%nat ->
  ImageReader.scan path_exists fuel check_idx = Some (check_idx + Z.of_nat n).
Proof.
  induction n as [|n IH]; intros fuel check_idx Hall Hgap Hfuel;
    (destruct fuel as [|fuel]; [lia|]); simpl; unfold ImageReader.hasFrame.
  - rewrite Z.add_0_r in *. now rewrite Hgap.
  - rewrite (Hall check_idx) by lia.
    rewrite (IH fuel (check_idx + 1)).
    + f_equal. lia.
    + intros j Hj. apply Hall. lia.
    + rewrite <- Hgap. f_equal. lia.
    + lia.
Qed.

Lemma scan_without_gap (fuel : nat) : forall check_idx,
  (forall j, check_idx <= j -> path_exists j = true) ->
  ImageReader.scan path_exists fuel check_idx = None.
Proof.
  induction fuel as [|fuel IH]; intros check_idx Hall; simpl; [reflexivity|].
  unfold ImageReader.hasFrame. rewrite (Hall check_idx) by lia.
  apply IH. intros j Hj. apply Hall. lia.
Qed.

Lemma image_reader_init_inv (fuel : nat) (first : Z) (target_format : string)
  (self : ImageReader.state) :
  ImageReader.init path_exists convert_ok load fuel first target_format
  = Some (inr self) ->
  ImageReader.first_frame self = first /\
  ImageReader.format self = ImageReader.normalise target_format /\
  convert_ok (ImageReader.format self) = true /\
  1 <= ImageReader.total_frames self /\
  (forall idx, first <= idx < first + ImageReader.total_frames self ->
               path_exists idx = true) /\
  path_exists (first + ImageReader.total_frames self) = false.
Proof.
  unfold ImageReader.init, ImageReader.getFrame, ImageReader.hasFrame.
  destruct (ImageReader.scan path_exists fuel first) as [stop|] eqn:Hscan;
    [|discriminate].
  destruct (scan_returns _ _ _ Hscan) as (Hrange & Hall & Hstop).
  destruct (path_exists first) eqn:Hfirst; [|discriminate].
  destruct (convert_ok (ImageReader.normalise target_format)) eqn:Hmode;
    [|discriminate].
  intros H. injection H as <-. simpl.
  assert (Hne : stop <> first) by congruence.
  split; [reflexivity|]. split; [reflexivity|]. split; [exact Hmode|].
  split; [lia|]. split.
  - intros idx Hidx. apply Hall. lia.
  - now replace (first + (stop - first)) with stop by lia.
Qed.

(** X20.  Where the files of [n] frames from [first_frame] on exist and the
    next one does not, the constructor of [ImageReader] ends its count
    there: it raises [RuntimeError] when [n] is 0 (the file of the first
    frame is missing), [ValueError] when the conversion to the format is
    not accepted, and else gives a reader whose [total_frames] is [n], so
    frames beyond a gap are not counted.  Where every frame from
    [first_frame] on has a file (as with a path without a replacement
    field, when the file exists), the constructor does not return. *)
Theorem image_reader_counts_the_unbroken_run :
  forall (first : Z) (target_format : string),
  (forall (n fuel : nat),
     (forall j, first <= j < first + Z.of_nat n -> path_exists j = true) ->
     path_exists (first + Z.of_nat n) = false ->
     (n < fuel)%nat ->
     ImageReader.init path_exists convert_ok load fuel first target_format
     = Some (if (n =? 0)%nat then inl ImageReader.RuntimeError
             else if convert_ok (ImageReader.normalise target_format)
                  then inr {| ImageReader.first_frame := first;
                              ImageReader.format :=
                                ImageReader.normalise target_format;
                              ImageReader.total_frames := Z.of_nat n |}
                  else inl ImageReader.ValueError)) /\
  ((forall j, first <= j -> path_exists j = true) ->
   forall fuel,
     ImageReader.init path_exists convert_ok load fuel first target_format = None).
Proof.
  intros first target_format. split.
  - intros n fuel Hall Hgap Hfuel.
    unfold ImageReader.init, ImageReader.getFrame, ImageReader.hasFrame.
    rewrite (scan_finds_gap n fuel first Hall Hgap Hfuel).
    destruct n as [|n].
    + rewrite Z.add_0_r in Hgap. rewrite Hgap. reflexivity.
    + rewrite (Hall first) by lia. cbn [Nat.eqb].
      destruct (convert_ok (ImageReader.normalise target_format)); [|reflexivity].
      do 3 f_equal. lia.
  - intros Hall fuel. unfold ImageReader.init.
    now rewrite (scan_without_gap fuel first Hall).
Qed.

(** X21.  Iterating over a constructed [ImageReader] raises no exception
    and yields the frames [first_frame], ..., [first_frame + total_frames
    - 1], in this order. *)
Theorem image_reader_iterates_over_the_run :
  forall (fuel : nat) (first : Z) (target_format : string)
         (self : ImageReader.state),
  ImageReader.init path_exists convert_ok load fuel first target_format
  = Some (inr self) ->
  ImageReader.iterate path_exists convert_ok load self
  = map (fun idx => inr (load (ImageReader.format self) idx))
      (ImageReader.range first (first + ImageReader.total_frames self)) /\
  Z.of_nat (List.length (ImageReader.iterate path_exists convert_ok load self))
  = ImageReader.total_frames self.
Proof.
  intros fuel first target_format self Hinit.
  destruct (image_reader_init_inv _ _ _ _ Hinit)
    as (Hfirst & _ & Hmode & Htotal & Hall & _).
  unfold ImageReader.iterate. rewrite Hfirst. split.
  - apply map_ext_in. intros idx Hidx.
    unfold ImageReader.range in Hidx. apply in_map_iff in Hidx.
    destruct Hidx as (i & <- & Hi). apply in_seq in Hi.
    unfold ImageReader.getFrame, ImageReader.hasFrame.
    rewrite Hall by lia. now rewrite Hmode.
  - unfold ImageReader.range. rewrite !length_map, length_seq. lia.
Qed.

End ImageReaderProperties.

(** ** The further properties at the boundary scenario *)

Lemma boundary_inputs_consistent :
  consistent_inputs (utc_time boundary_files) boundary_files boundary_counts 2.
Proof.
  repeat split; try by_evaluation;
    vm_compute in H, H0; injection H as <-; injection H0 as <-;
    first [ reflexivity | by_evaluation ].
Defined.

Lemma boundary_last_video :
  iloc_last boundary_videos
  = Ok (Video.Build_row (Build_EpochRow "v25.h264"%string 25) (true_div 30 2) 40).
Proof. reflexivity. Defined.

Lemma video_end_info_is_contiguous_witness :
  map Video.base boundary_videos = boundary_files /\
  forall j v next,
    nth_error boundary_videos j = Some v ->
    nth_error boundary_videos (S j) = Some next ->
    Video.end_epoch_ts v = vstart next /\
    Video.length v = inject_Z (Video.end_epoch_ts v - vstart v).
Proof.
  apply (video_end_info_is_contiguous (utc_time boundary_files)
           boundary_files boundary_counts 2 boundary_videos).
  reflexivity.
Defined.

Lemma builders_agree_on_recording_end_witness :
  (forall e,
      _add_video_end_info (utc_time boundary_files) boundary_files boundary_counts 2
      = Err e <->
      _add_event_end_info (utc_time boundary_files) boundary_log boundary_counts 2
      = Err e) /\
  (forall videos events,
      _add_video_end_info (utc_time boundary_files) boundary_files boundary_counts 2
      = Ok videos ->
      _add_event_end_info (utc_time boundary_files) boundary_log boundary_counts 2
      = Ok events ->
      exists v ev,
        iloc_last videos = Ok v /\ iloc_last events = Ok ev /\
        end_ts ev = Video.end_epoch_ts v).
Proof.
  apply (builders_agree_on_recording_end (utc_time boundary_files)
           boundary_log boundary_counts boundary_files 2); discriminate.
Defined.

Lemma event_end_info_chains_events_witness :
  map log boundary_events = boundary_log /\
  (forall j e next,
      nth_error boundary_events j = Some e ->
      nth_error boundary_events (S j) = Some next ->
      end_ts e = ts (log next)) /\
  (nondecreasing (map ts boundary_log) = true ->
   forall j e next,
      nth_error boundary_events j = Some e ->
      nth_error boundary_events (S j) = Some next ->
      ts (log e) <= end_ts e).
Proof.
  apply (event_end_info_chains_events (utc_time boundary_files)
           boundary_log boundary_counts 2 boundary_events).
  reflexivity.
Defined.

Lemma find_latest_video_ignores_row_order_witness :
  _find_latest_video 12 boundary_videos
  = _find_latest_video 12 boundary_videos_shuffled.
Proof.
  apply find_latest_video_ignores_row_order.
  - repeat constructor; simpl; intuition discriminate.
  - intros v. simpl. tauto.
Defined.

Lemma event_labels_name_consecutive_segments_witness :
  exists i owner overflow_rows primary,
    owning_segment (ts (log boundary_event)) boundary_videos = Ok (i, owner) /\
    [ Build_Label "v10.h264"%string "logPos"%string (inject_Z 4) (inject_Z 4);
      Build_Label "v00.h264"%string "logPos"%string (inject_Z 10) (inject_Z 18) ]
    = [] ++ overflow_rows ++ [ primary ] /\
    lbl_filename primary = vname owner /\
    lbl_class primary = event_type (log boundary_event) /\
    (forall k r, nth_error overflow_rows k = Some r ->
       lbl_class r = event_type (log boundary_event) /\
       exists v, nth_error boundary_videos (i + 1 + k) = Some v /\
                 lbl_filename r = vname v) /\
    (List.length overflow_rows + i < List.length boundary_videos)%nat.
Proof.
  apply (event_labels_name_consecutive_segments boundary_videos 2 [] _ boundary_event).
  reflexivity.
Defined.

Lemma no_label_starts_at_frame_zero_witness :
  exists overflow_rows primary,
    [ Build_Label "v10.h264"%string "logPos"%string (inject_Z 4) (inject_Z 4);
      Build_Label "v00.h264"%string "logPos"%string (inject_Z 10) (inject_Z 18) ]
    = [] ++ overflow_rows ++ [ primary ] /\
    (inject_Z 2 <= start_frame primary)%Q /\
    Forall (fun r => (0 < start_frame r)%Q) overflow_rows.
Proof.
  apply (no_label_starts_at_frame_zero boundary_videos 2 [] _ boundary_event).
  - by_evaluation.
  - reflexivity.
Defined.

Lemma event_is_processed_iff_within_recording_witness :
  exists labels_list', loop_body boundary_videos 2 [] boundary_event = Ok labels_list'.
Proof.
  apply (event_is_processed_iff_within_recording (utc_time boundary_files)
           boundary_files boundary_counts 2 boundary_videos _
           boundary_inputs_consistent boundary_videos_built boundary_last_video).
  split.
  - exists (Video.Build_row (Build_EpochRow "v00.h264"%string 0) (inject_Z 10) 10).
    split; [left; reflexivity | by_evaluation].
  - by_evaluation.
Defined.

Lemma label_frames_are_whole_witness :
  exists rows,
    [ Build_Label "v10.h264"%string "logPos"%string (inject_Z 4) (inject_Z 4);
      Build_Label "v00.h264"%string "logPos"%string (inject_Z 10) (inject_Z 18) ]
    = [] ++ rows /\
    Forall (fun r => whole (start_frame r) /\ whole (end_frame r)) rows.
Proof.
  apply (label_frames_are_whole (utc_time boundary_files) boundary_files
           boundary_counts 2 boundary_videos [] _ boundary_event).
  - reflexivity.
  - reflexivity.
Defined.

Lemma run_returns_a_table_iff_log_within_recording_witness :
  exists labels,
    run_thru_events (utc_time boundary_files) sort_by_filename boundary_log
      boundary_counts boundary_files 2 = Ok labels.
Proof.
  apply (run_returns_a_table_iff_log_within_recording (utc_time boundary_files)
           sort_by_filename boundary_files boundary_counts 2 boundary_videos _
           boundary_inputs_consistent boundary_videos_built boundary_last_video
           boundary_log).
  - discriminate.
  - split.
    + intros e [<-|[<-|[]]]; exists (Build_EpochRow "v00.h264"%string 0);
        (split; [left; reflexivity | by_evaluation]).
    + intros e [<-|[]]. by_evaluation.
Defined.

Lemma event_labels_cover_started_segments_witness :
  exists rows,
    [ Build_Label "v10.h264"%string "logPos"%string (inject_Z 4) (inject_Z 4);
      Build_Label "v00.h264"%string "logPos"%string (inject_Z 10) (inject_Z 18) ]
    = [] ++ rows /\
    map lbl_filename rows
    = map vname (filter (fun v => vstart v <? end_ts boundary_event)
                   (skipn (0 + 1) boundary_videos))
      ++ [ "v00.h264"%string ].
Proof.
  apply (event_labels_cover_started_segments (utc_time boundary_files)
           boundary_files boundary_counts 2 boundary_videos
           [] _ boundary_event 0%nat
           (Video.Build_row (Build_EpochRow "v00.h264"%string 0) (inject_Z 10) 10)).
  - reflexivity.
  - reflexivity.
  - reflexivity.
  - reflexivity.
Defined.

Lemma late_last_event_gets_inverted_label_witness :
  exists label,
    loop_body boundary_videos 2 []
      (Build_EventRow (Build_LogRow "logNo"%string 50) 40) = Ok ([] ++ [ label ]) /\
    lbl_filename label = "v25.h264"%string /\
    (end_frame label < start_frame label)%Q.
Proof.
  apply (late_last_event_gets_inverted_label (utc_time boundary_files)
           boundary_files boundary_counts 2 boundary_videos
           (Video.Build_row (Build_EpochRow "v25.h264"%string 25) (true_div 30 2) 40)
           [] (Build_EventRow (Build_LogRow "logNo"%string 50) 40)).
  - by_evaluation.
  - reflexivity.
  - reflexivity.
  - reflexivity.
  - reflexivity.
  - by_evaluation.
  - reflexivity.
  - by_evaluation.
Defined.

(** ** The reader and name properties at small inputs *)

Lemma video_frames_read_in_order_are_returned_witness :
  let (answers, self) :=
    VideoReader.getFrames S (VideoReader.init [ 10; 20; 30 ]%nat)
      (map Z.of_nat (seq 0 2)) in
  answers = map (fun frame => inr (S frame)) (firstn 2 [ 10; 20; 30 ]%nat) /\
  VideoReader.cur_frame self = Z.of_nat 2.
Proof.
  apply (video_frames_read_in_order_are_returned nat nat S [ 10; 20; 30 ]%nat 2%nat).
  simpl. lia.
Defined.

Lemma video_reader_never_returns_another_frame_witness :
  option_map S (nth_error [ 10; 20; 30 ]%nat (Z.to_nat 1)) = Some 21%nat /\
  VideoReader.hasFrame (VideoReader.init [ 10; 20; 30 ]%nat) 1 = true.
Proof.
  apply (video_reader_never_returns_another_frame nat nat S [ 10; 20; 30 ]%nat
           [ 0; 2; 1 ] 2%nat 1 21%nat).
  - reflexivity.
  - reflexivity.
Defined.

Lemma video_reader_refuses_to_seek_witness :
  fst (VideoReader.getFrame S (VideoReader.init [ 10; 20; 30 ]%nat) 2)
  = inl VideoReader.RuntimeError /\
  VideoReader.cur_frame
    (snd (VideoReader.getFrame S (VideoReader.init [ 10; 20; 30 ]%nat) 2))
  = VideoReader.cur_frame (VideoReader.init [ 10; 20; 30 ]%nat) /\
  VideoReader.getFrame S
    (snd (VideoReader.getFrame S (VideoReader.init [ 10; 20; 30 ]%nat) 2)) 0
  = VideoReader.getFrame S (VideoReader.init [ 10; 20; 30 ]%nat) 0.
Proof.
  apply (video_reader_refuses_to_seek nat nat S (VideoReader.init [ 10; 20; 30 ]%nat)
           2 0).
  by_evaluation.
Defined.

Lemma both_stamp_texts_are_the_time_witness :
  counts_name_stamp "data/2024-05-01 10:00:00.123456.h264" = "2024-05-01 10:00:00"%string
  /\ stem_stamp "2024-05-01 10:00:00.123456" = "2024-05-01 10:00:00"%string.
Proof.
  apply (both_stamp_texts_are_the_time "2024-05-01 10:00:00" "123456");
    reflexivity.
Defined.

Lemma stamp_without_subsecond_is_cut_short_witness :
  stem_stamp "2024-05-01 10:00:00" = "2024-05-01 10:00:00"%string /\
  counts_name_stamp
    (String.append "data/" (String.append "2024-05-01 10:00:00" ".h264"))
  = drop_last 7 "2024-05-01 10:00:00" /\
  ("2024-05-01 10:00:00"%string <> ""%string ->
   (String.length
      (counts_name_stamp
         (String.append "data/" (String.append "2024-05-01 10:00:00" ".h264")))
    < String.length "2024-05-01 10:00:00")%nat).
Proof.
  apply (stamp_without_subsecond_is_cut_short "2024-05-01 10:00:00").
  reflexivity.
Defined.

Lemma other_directory_stays_in_stamp_text_witness :
  counts_name_stamp "clips/2024-05-01 10:00:00.123456.h264"
  = "clips/2024-05-01 10:00:00"%string.
Proof.
  apply (other_directory_stays_in_stamp_text "clips/" "2024-05-01 10:00:00" "123456");
    reflexivity.
Defined.

Lemma image_reader_counts_the_unbroken_run_witness :
  ImageReader.init (fun idx => existsb (Z.eqb idx) [ 3; 0; 1; 5 ])
    (String.eqb "RGB") (fun _ idx => Z.succ idx) 4 0 "rgb"
  = Some (inr {| ImageReader.first_frame := 0;
                 ImageReader.format := "RGB"%string;
                 ImageReader.total_frames := 2 |}).
Proof.
  apply (proj1 (image_reader_counts_the_unbroken_run Z
                  (fun idx => existsb (Z.eqb idx) [ 3; 0; 1; 5 ])
                  (String.eqb "RGB") (fun _ idx => Z.succ idx) 0 "rgb") 2%nat 4%nat).
  - intros j Hj. assert (Hcases : j = 0 \/ j = 1) by lia.
    destruct Hcases as [-> | ->]; reflexivity.
  - reflexivity.
  - lia.
Defined.

Lemma image_reader_iterates_over_the_run_witness :
  ImageReader.iterate (fun idx => existsb (Z.eqb idx) [ 3; 0; 1; 5 ])
    (String.eqb "RGB") (fun _ idx => Z.succ idx)
    {| ImageReader.first_frame := 0;
       ImageReader.format := "RGB"%string;
       ImageReader.total_frames := 2 |}
  = map (fun idx => inr (Z.succ idx)) (ImageReader.range 0 (0 + 2)) /\
  Z.of_nat (List.length
              (ImageReader.iterate (fun idx => existsb (Z.eqb idx) [ 3; 0; 1; 5 ])
                 (String.eqb "RGB") (fun _ idx => Z.succ idx)
                 {| ImageReader.first_frame := 0;
                    ImageReader.format := "RGB"%string;
                    ImageReader.total_frames := 2 |}))
  = 2.
Proof.
  apply (image_reader_iterates_over_the_run Z
           (fun idx => existsb (Z.eqb idx) [ 3; 0; 1; 5 ])
           (String.eqb "RGB") (fun _ idx => Z.succ idx) 4%nat 0 "rgb"%string).
  reflexivity.
Defined.
